(** * mdBook search front end ([src/theme/book.js], the [search] closure)

    A shallow embedding of the search part of the theme script: the URL
    codec ([parseURL], [renderURL]), the teaser generator ([makeTeaser]),
    the URL/history synchroniser ([setSearchUrlParameters],
    [doSearchOrMarkFromUrl]), the query executor ([doSearch]) and the global
    key handler ([globalKeyHandler]).  Three pieces of the other closures
    follow it: the rewriting of hidden lines in Rust code blocks
    ([codeSnippets]), the theme switch ([set_theme]) and the scroll listener
    of the menu bar ([autoHideMenu]).

    Conventions.
    - A JavaScript string is the list of its UTF-16 code units ([N]).
    - A JavaScript number that the code uses as a length, an offset or a
      counter is a [nat]; word weights and their sums are [Z]; scroll
      positions are rationals.
    - A plain JavaScript object used as a dictionary is an association list
      in property-enumeration order (see [Obj]).
    - A function that may raise returns a [result]; a handler that mutates
      the page is a function from [State] to a [result] and a [State], and
      the effects performed before an exception are kept.
    - What the script takes from its environment is a parameter: the
      browser's decomposition of a URL ([anchor]) and its answer to a
      history call ([history_url]: a refusal, or the URL the document has
      afterwards), the stemmer and the [search] method of the index
      library, the page's [path_to_root].  The
      built-ins [decodeURIComponent], [split], [substring], [trim] and the
      property semantics of plain objects follow the language standard. *)

From Stdlib Require Import List NArith ZArith Lia Bool PeanoNat Permutation.
From Stdlib Require Ascii String DecimalString QArith.
Import ListNotations.
Import String.StringSyntax.
Delimit Scope string_scope with string.

Set Implicit Arguments.

(* ------------------------------------------------------------------ *)
(** ** JavaScript strings *)

Module Js.

Definition char : Type := N.
Definition jsstring : Type := list char.

(** String literals of the source are written [js "..."]. *)
Definition js (s : String.string) : jsstring :=
  map Ascii.N_of_ascii (String.list_ascii_of_string s).

Definition ch (s : String.string) : char :=
  match js s with c :: _ => c | [] => 0%N end.

Arguments js s%_string.
Arguments ch s%_string.

Definition char_eqb (a b : char) : bool := N.eqb a b.

Fixpoint str_eqb (a b : jsstring) : bool :=
  match a, b with
  | [], [] => true
  | x :: a', y :: b' => char_eqb x y && str_eqb a' b'
  | _, _ => false
  end.

(** [cons_head c l] puts [c] in front of the first piece of [l]. *)
Definition cons_head (c : char) (l : list jsstring) : list jsstring :=
  match l with
  | w :: ws => (c :: w) :: ws
  | [] => [[c]]
  end.

(** [s.split(sep)] for a separator of one code unit. *)
Fixpoint split1 (sep : char) (s : jsstring) : list jsstring :=
  match s with
  | [] => [[]]
  | c :: s' =>
      if char_eqb c sep then [] :: split1 sep s'
      else cons_head c (split1 sep s')
  end.

(** [s.split(sep)] for a separator of two code units [c1 c2]: the leftmost
    occurrence is cut out first and the scan resumes after it. *)
Fixpoint split2 (c1 c2 : char) (s : jsstring) : list jsstring :=
  match s with
  | [] => [[]]
  | a :: s' =>
      match s' with
      | b :: s'' =>
          if char_eqb a c1 && char_eqb b c2 then [] :: split2 c1 c2 s''
          else cons_head a (split2 c1 c2 s')
      | [] => [[a]]
      end
  end.

(** [l.join(sep)]. *)
Fixpoint join (sep : jsstring) (l : list jsstring) : jsstring :=
  match l with
  | [] => []
  | [w] => w
  | w :: ws => w ++ sep ++ join sep ws
  end.

(** [s.substring(a, b)]: both bounds are clamped to the length and swapped
    when out of order. *)
Definition substring (s : jsstring) (a b : nat) : jsstring :=
  let a' := Nat.min a (length s) in
  let b' := Nat.min b (length s) in
  let lo := Nat.min a' b' in
  let hi := Nat.max a' b' in
  firstn (hi - lo) (skipn lo s).

(** [s.startsWith(p)]. *)
Fixpoint startsWith (s p : jsstring) : bool :=
  match p, s with
  | [], _ => true
  | x :: p', y :: s' => char_eqb x y && startsWith s' p'
  | _ :: _, [] => false
  end.

(** [s.replace(c, r)] with a string pattern of one code unit: only the first
    occurrence is replaced. *)
Fixpoint replace_first (c : char) (r : jsstring) (s : jsstring) : jsstring :=
  match s with
  | [] => []
  | x :: s' => if char_eqb x c then r ++ s' else x :: replace_first c r s'
  end.

(** [s.replace(/c/g, r)]: every occurrence is replaced. *)
Fixpoint replace_all (c : char) (r : jsstring) (s : jsstring) : jsstring :=
  match s with
  | [] => []
  | x :: s' =>
      if char_eqb x c then r ++ replace_all c r s' else x :: replace_all c r s'
  end.

(** White space and line terminators, as [String.prototype.trim] strips. *)
Definition is_space (c : char) : bool :=
  existsb (N.eqb c)
    [9; 10; 11; 12; 13; 32; 160; 5760; 8232; 8233; 8239; 8287; 12288; 65279]%N
  || (N.leb 8192 c && N.leb c 8202)%N.

Fixpoint drop_spaces (s : jsstring) : jsstring :=
  match s with
  | c :: s' => if is_space c then drop_spaces s' else s
  | [] => []
  end.

Definition trim (s : jsstring) : jsstring :=
  rev (drop_spaces (rev (drop_spaces s))).

(** Decimal rendering of a number used as a count. *)
Definition of_nat (n : nat) : jsstring :=
  js (DecimalString.NilEmpty.string_of_uint (Nat.to_uint n)).

End Js.
Export Js.

(* ------------------------------------------------------------------ *)
(** ** Exceptions *)

Inductive exn : Type := TypeError | URIError | SecurityError.

Inductive result (A : Type) : Type :=
| Ok (a : A)
| Throw (e : exn).
Arguments Ok {A} a.
Arguments Throw {A} e.

Definition rbind {A B} (r : result A) (k : A -> result B) : result B :=
  match r with
  | Ok a => k a
  | Throw e => Throw e
  end.

Declare Scope result_scope.
Delimit Scope result_scope with res.
Notation "x <- r ;; k" := (rbind r (fun x => k))
  (at level 61, r at next level, right associativity) : result_scope.

(** [l[i]] followed by a property read: reading a property of [undefined]
    raises TypeError. *)
Definition at_index {A} (l : list A) (i : nat) : result A :=
  match nth_error l i with
  | Some x => Ok x
  | None => Throw TypeError
  end.

(* ------------------------------------------------------------------ *)
(** ** Plain objects used as dictionaries *)

Module Obj.

(** The values the search code stores are strings and [undefined]. *)
Inductive jsval : Type :=
| Undefined
| Str (s : jsstring).

(** [v + ''] (ToString). *)
Definition to_string (v : jsval) : jsstring :=
  match v with
  | Undefined => js "undefined"
  | Str s => s
  end.

(** Own properties in enumeration order: array-index keys in ascending
    numeric order first, then the other keys in creation order. *)
Definition obj : Type := list (jsstring * jsval).

Definition is_digit (c : char) : bool := (N.leb 48 c && N.leb c 57)%N.

Fixpoint digits_value (acc : N) (s : jsstring) : option N :=
  match s with
  | [] => Some acc
  | c :: s' =>
      if is_digit c then digits_value (acc * 10 + (c - 48))%N s' else None
  end.

(** A key is an array index when it is the canonical decimal form of an
    integer below 2^32 - 1. *)
Definition array_index (k : jsstring) : option N :=
  match k with
  | [] => None
  | c :: rest =>
      if char_eqb c 48%N && negb (match rest with [] => true | _ => false end)
      then None
      else match digits_value 0 k with
           | Some n => if N.ltb n 4294967295 then Some n else None
           | None => None
           end
  end.

Fixpoint get (o : obj) (k : jsstring) : option jsval :=
  match o with
  | [] => None
  | (k', v) :: o' => if str_eqb k' k then Some v else get o' k
  end.

(** Own-property test, [Object.prototype.hasOwnProperty.call(o, k)]. *)
Definition has_own (o : obj) (k : jsstring) : bool :=
  match get o k with Some _ => true | None => false end.

Fixpoint update (o : obj) (k : jsstring) (v : jsval) : obj :=
  match o with
  | [] => []
  | (k', v') :: o' =>
      if str_eqb k' k then (k', v) :: o' else (k', v') :: update o' k v
  end.

(** Position of a new array-index key [n]: before the first key that is not
    an array index or is a larger one. *)
Fixpoint insert_index (o : obj) (n : N) (k : jsstring) (v : jsval) : obj :=
  match o with
  | [] => [(k, v)]
  | (k', v') :: o' =>
      match array_index k' with
      | Some m =>
          if N.ltb m n then (k', v') :: insert_index o' n k v
          else (k, v) :: o
      | None => (k, v) :: o
      end
  end.

(** [o[k] = v] on an object whose prototype is [Object.prototype], for a
    string or [undefined] value: the key [__proto__] reaches the inherited
    setter, which ignores such values; any other key becomes (or stays) an
    own property. *)
Definition set (o : obj) (k : jsstring) (v : jsval) : obj :=
  if str_eqb k (js "__proto__") then o
  else if has_own o k then update o k v
  else match array_index k with
       | Some n => insert_index o n k v
       | None => o ++ [(k, v)]
       end.

(** [delete o[k]]. *)
Definition delete (o : obj) (k : jsstring) : obj :=
  filter (fun kv => negb (str_eqb (fst kv) k)) o.

(** [o.hasOwnProperty(k)], a method call through the object itself: an own
    property named [hasOwnProperty] shadows the inherited method, and since
    the stored values are never functions the call raises TypeError. *)
Definition hasOwnProperty (o : obj) (k : jsstring) : result bool :=
  if has_own o (js "hasOwnProperty") then Throw TypeError
  else Ok (has_own o k).

(** [o[k]] as a read: own property, otherwise [undefined] (the keys read by
    the search code, [search] and [highlight], are not on the prototype). *)
Definition read (o : obj) (k : jsstring) : jsval :=
  match get o k with Some v => v | None => Undefined end.

End Obj.

(* ------------------------------------------------------------------ *)
(** ** The URL codec *)

(** What an anchor element reports once [a.href = url] has been assigned:
    the getters [protocol], [hostname], [port], [pathname], [search] and
    [hash].  All six are strings for every [url]. *)
Module Anchor.
Record t : Type := mk {
  protocol : jsstring;
  hostname : jsstring;
  port : jsstring;
  pathname : jsstring;
  search : jsstring;
  hash : jsstring
}.
End Anchor.

(** The object [parseURL] returns. *)
Module Url.
Record t : Type := mk {
  source : jsstring;
  protocol : jsstring;
  host : jsstring;
  port : jsstring;
  params : Obj.obj;
  file : jsstring;
  hash : jsstring;
  path : jsstring
}.

Definition with_params (u : t) (p : Obj.obj) : t :=
  mk (source u) (protocol u) (host u) (port u) p (file u) (hash u) (path u).

Definition with_hash (u : t) (h : jsstring) : t :=
  mk (source u) (protocol u) (host u) (port u) (params u) (file u) h (path u).
End Url.

(** [s.replace(/^\?/, '')]. *)
Definition strip_question (s : jsstring) : jsstring :=
  match s with
  | c :: s' => if char_eqb c (ch "?") then s' else s
  | [] => []
  end.

(** The loop of the [params] closure: [for (; i < len; i++)] over the
    segments, [continue] on an empty one, otherwise
    [s = seg[i].split('='); ret[s[0]] = s[1]]. *)
Fixpoint params_loop (seg : list jsstring) (ret : Obj.obj) : Obj.obj :=
  match seg with
  | [] => ret
  | segi :: rest =>
      match segi with
      | [] => params_loop rest ret
      | _ :: _ =>
          let s := split1 (ch "=") segi in
          let s0 := nth 0 s [] in
          let s1 := match nth_error s 1 with
                    | Some v => Obj.Str v
                    | None => Obj.Undefined
                    end in
          params_loop rest (Obj.set ret s0 s1)
      end
  end.

Definition parse_params (search : jsstring) : Obj.obj :=
  params_loop (split1 (ch "&") (strip_question search)) [].

(** [(a.pathname.match(/\/([^/?#]+)$/i) || [,''])[1]]: the text after the
    last slash when there is a slash and that text is not empty and holds
    neither [?] nor [#]. *)
Definition file_of (pathname : jsstring) : jsstring :=
  match rev (split1 (ch "/") pathname) with
  | tail :: _ :: _ =>
      match tail with
      | [] => []
      | _ :: _ =>
          if forallb (fun c => negb (char_eqb c (ch "?") || char_eqb c (ch "#")))
               tail
          then tail else []
      end
  | _ => []
  end.

(** [a.pathname.replace(/^([^/])/, '/$1')]. *)
Definition path_of (pathname : jsstring) : jsstring :=
  match pathname with
  | c :: _ => if char_eqb c (ch "/") then pathname else ch "/" :: pathname
  | [] => []
  end.

Section Codec.

(** The browser's URL decomposition behind [a.href = url]. *)
Variable anchor : jsstring -> Anchor.t.

Definition parseURL (url : jsstring) : Url.t :=
  let a := anchor url in
  {| Url.source := url;
     Url.protocol := replace_first (ch ":") [] (Anchor.protocol a);
     Url.host := Anchor.hostname a;
     Url.port := Anchor.port a;
     Url.params := parse_params (Anchor.search a);
     Url.file := file_of (Anchor.pathname a);
     Url.hash := replace_first (ch "#") [] (Anchor.hash a);
     Url.path := path_of (Anchor.pathname a) |}.

End Codec.

(** The [for (var prop in urlobject.params)] loop of [renderURL]; [props] are
    the keys still to visit, [url] and [joiner] the loop variables. *)
Fixpoint render_loop (params : Obj.obj) (props : list jsstring)
    (url joiner : jsstring) : result jsstring :=
  match props with
  | [] => Ok url
  | prop :: rest =>
      (own <- Obj.hasOwnProperty params prop ;;
       if own
       then render_loop params rest
              (url ++ joiner ++ prop ++ js "=" ++
               Obj.to_string (Obj.read params prop))
              (js "&")
       else render_loop params rest url joiner)%res
  end.

Definition renderURL (urlobject : Url.t) : result jsstring :=
  let url := Url.protocol urlobject ++ js "://" ++ Url.host urlobject in
  let url := if negb (str_eqb (Url.port urlobject) [])
             then url ++ js ":" ++ Url.port urlobject else url in
  let url := url ++ Url.path urlobject in
  (url <- render_loop (Url.params urlobject)
            (map fst (Url.params urlobject)) url (js "?") ;;
   Ok (if negb (str_eqb (Url.hash urlobject) [])
       then url ++ js "#" ++ Url.hash urlobject else url))%res.

(** *** A reference decomposition

    [reference_anchor] splits an absolute URL of the shape
    [scheme://[userinfo@]host[:port][/path][?query][#fragment]] into the six
    getters the way the URL standard reports them, without its
    normalisations (case folding, percent-encoding, default ports, dot
    segments, bracketed IPv6 hosts).  A string of another shape gets the
    getters of an anchor whose href does not parse: [protocol] is [":"] and
    the others are empty.  The general results below hold for every
    decomposition; this one evaluates the codec on concrete URLs. *)

Fixpoint span_until (p : char -> bool) (s : jsstring) : jsstring * jsstring :=
  match s with
  | [] => ([], [])
  | c :: s' =>
      if p c then ([], s)
      else let (a, b) := span_until p s' in (c :: a, b)
  end.

Definition invalid_anchor : Anchor.t :=
  Anchor.mk (js ":") [] [] [] [] [].

Definition reference_anchor (url : jsstring) : Anchor.t :=
  match span_until (char_eqb (ch ":")) url with
  | (c :: scheme, c1 :: c2 :: c3 :: r) =>
      if char_eqb c2 (ch "/") && char_eqb c3 (ch "/") then
        let is_end x := char_eqb x (ch "/") || char_eqb x (ch "?")
                        || char_eqb x (ch "#") in
        let (authority, r2) := span_until is_end r in
        let hostport := last (split1 (ch "@") authority) [] in
        let pieces := split1 (ch ":") hostport in
        let (host, port) :=
          match pieces with
          | _ :: _ :: _ => (join (js ":") (removelast pieces), last pieces [])
          | _ => (hostport, [])
          end in
        let (path, r3) :=
          span_until (fun x => char_eqb x (ch "?") || char_eqb x (ch "#")) r2 in
        let (query, r4) :=
          match r3 with
          | q :: r3' =>
              if char_eqb q (ch "?") then span_until (char_eqb (ch "#")) r3'
              else ([], r3)
          | [] => ([], [])
          end in
        let fragment := match r4 with _ :: f => f | [] => [] end in
        {| Anchor.protocol := (c :: scheme) ++ js ":";
           Anchor.hostname := host;
           Anchor.port := port;
           Anchor.pathname := match path with [] => js "/" | _ => path end;
           Anchor.search := match query with [] => [] | _ => ch "?" :: query end;
           Anchor.hash := match fragment with
                          | [] => []
                          | _ => ch "#" :: fragment
                          end |}
      else invalid_anchor
  | _ => invalid_anchor
  end.

(** *** A reference answer to history calls

    [reference_history] refuses a URL that is not of the shape above or
    whose scheme or authority (user information, host and port, compared as
    text) is not the document's, and otherwise makes the URL passed the
    document's URL with every space written [%20]; the other rewritings of
    the URL standard are left out.  The general results hold for every
    answer; this one evaluates the handlers on concrete pages. *)

Definition authority_of (url : jsstring) : jsstring :=
  match span_until (char_eqb (ch ":")) url with
  | (_ :: _, _ :: c2 :: c3 :: r) =>
      if char_eqb c2 (ch "/") && char_eqb c3 (ch "/") then
        fst (span_until (fun x => char_eqb x (ch "/") || char_eqb x (ch "?")
                                  || char_eqb x (ch "#")) r)
      else []
  | _ => []
  end.

Definition reference_history (live u : jsstring) : option jsstring :=
  if negb (str_eqb (Anchor.protocol (reference_anchor u)) (js ":"))
     && str_eqb (Anchor.protocol (reference_anchor live))
          (Anchor.protocol (reference_anchor u))
     && str_eqb (authority_of live) (authority_of u)
  then Some (replace_all (ch " ") (js "%20") u)
  else None.

(* ------------------------------------------------------------------ *)
(** ** [decodeURIComponent]

    The built-in of the language (ECMAScript, abstract operation Decode with
    an empty reserved set): every [%XX] escape stands for one octet, a run of
    escaped octets must be the UTF-8 form of one code point, and anything
    else raises URIError.  It is written in two passes over the string. *)

Module Decode.

Inductive item : Type :=
| Lit (c : char)       (* a code unit copied as it is *)
| Oct (b : N).         (* an octet written as [%XX] *)

Definition hex_value (c : char) : option N :=
  if (N.leb 48 c && N.leb c 57)%N then Some (c - 48)%N
  else if (N.leb 65 c && N.leb c 70)%N then Some (c - 55)%N
  else if (N.leb 97 c && N.leb c 102)%N then Some (c - 87)%N
  else None.

Fixpoint unescape (s : jsstring) : option (list item) :=
  match s with
  | [] => Some []
  | c :: s1 =>
      if char_eqb c (ch "%") then
        match s1 with
        | h1 :: s2 =>
            match s2 with
            | h2 :: rest =>
                match hex_value h1, hex_value h2, unescape rest with
                | Some a, Some b, Some l => Some (Oct (16 * a + b)%N :: l)
                | _, _, _ => None
                end
            | [] => None
            end
        | [] => None
        end
      else option_map (cons (Lit c)) (unescape s1)
  end.

(** A continuation octet [10xxxxxx]. *)
Definition is_cont (b : N) : bool := (N.leb 128 b && N.leb b 191)%N.

Definition low6 (b : N) : N := N.land b 63.

(** UTF-16 form of a code point. *)
Definition utf16 (cp : N) : jsstring :=
  if (cp <? 65536)%N then [cp]
  else [(55296 + N.shiftr (cp - 65536) 10)%N;
        (56320 + N.land (cp - 65536) 1023)%N].

Definition scalar (lo : N) (cp : N) : bool :=
  (N.leb lo cp && N.leb cp 1114111
   && negb (N.leb 55296 cp && N.leb cp 57343))%N.

Fixpoint utf8 (l : list item) : option jsstring :=
  match l with
  | [] => Some []
  | Lit c :: r => option_map (cons c) (utf8 r)
  | Oct b :: r =>
      if (b <? 128)%N then option_map (cons b) (utf8 r)
      else if (N.leb 192 b && N.leb b 223)%N then
        match r with
        | Oct b1 :: r1 =>
            let cp := (N.shiftl (N.land b 31) 6 + low6 b1)%N in
            if is_cont b1 && scalar 128 cp
            then option_map (app (utf16 cp)) (utf8 r1) else None
        | _ => None
        end
      else if (N.leb 224 b && N.leb b 239)%N then
        match r with
        | Oct b1 :: Oct b2 :: r2 =>
            let cp := (N.shiftl (N.land b 15) 12 + N.shiftl (low6 b1) 6
                       + low6 b2)%N in
            if is_cont b1 && is_cont b2 && scalar 2048 cp
            then option_map (app (utf16 cp)) (utf8 r2) else None
        | _ => None
        end
      else if (N.leb 240 b && N.leb b 247)%N then
        match r with
        | Oct b1 :: Oct b2 :: Oct b3 :: r3 =>
            let cp := (N.shiftl (N.land b 7) 18 + N.shiftl (low6 b1) 12
                       + N.shiftl (low6 b2) 6 + low6 b3)%N in
            if is_cont b1 && is_cont b2 && is_cont b3 && scalar 65536 cp
            then option_map (app (utf16 cp)) (utf8 r3) else None
        | _ => None
        end
      else None
  end.

End Decode.

Definition decodeURIComponent (s : jsstring) : result jsstring :=
  match Decode.unescape s with
  | Some l =>
      match Decode.utf8 l with
      | Some r => Ok r
      | None => Throw URIError
      end
  | None => Throw URIError
  end.

(* ------------------------------------------------------------------ *)
(** ** Search options and results *)

(** [searchoptions]: the fields the script itself reads are
    [teaser_word_count] and [limit_results]; [bool] and [expand] are passed
    through to the index ([fields], the per-field boosts, is read by the
    index only and lives with it). *)
Record SearchOptions : Type := {
  bool_mode : jsstring;
  expand : bool;
  teaser_word_count : nat;
  limit_results : nat
}.

(** One element of the array [searchindex.search] returns. *)
Record SearchResult : Type := {
  ref : jsstring;
  doc_body : jsstring;
  doc_breadcrumbs : jsstring
}.

(* ------------------------------------------------------------------ *)
(** ** The teaser generator *)

(** [escapeHTML]: every ampersand, angle bracket, double quote (code unit
    34) and single quote is replaced by its entry in the table [MAP]. *)
Definition escape_char (c : char) : jsstring :=
  if char_eqb c (ch "&") then js "&amp;"
  else if char_eqb c (ch "<") then js "&lt;"
  else if char_eqb c (ch ">") then js "&gt;"
  else if char_eqb c 34%N then js "&#34;"
  else if char_eqb c (ch "'") then js "&#39;"
  else [c].

Definition escapeHTML (s : jsstring) : jsstring := flat_map escape_char s.

(** An element [[word, weight, index_in_document]] of [weighted]. *)
Record entry : Type := Entry {
  e_word : jsstring;
  e_value : Z;
  e_index : nat
}.

Definition searchterm_weight : Z := 40.

(** The variables the two nested loops of [makeTeaser] share. *)
Record scan : Type := Scan {
  weighted : list entry;
  index : nat;
  value : Z;
  searchterm_found : bool
}.

Section Teaser.

(** [elasticlunr.stemmer]. *)
Variable stemmer : jsstring -> jsstring.

(** [for (var searchtermindex in stemmed_searchterms)]. *)
Fixpoint terms_loop (word : jsstring) (stemmed_searchterms : list jsstring)
    (value : Z) (found : bool) : Z * bool :=
  match stemmed_searchterms with
  | [] => (value, found)
  | term :: rest =>
      if startsWith (stemmer word) term
      then terms_loop word rest searchterm_weight true
      else terms_loop word rest value found
  end.

(** [for (var wordindex in words)]. *)
Fixpoint words_loop (stemmed_searchterms : list jsstring)
    (words : list jsstring) (st : scan) : scan :=
  match words with
  | [] => st
  | word :: rest =>
      let st1 :=
        if 0 <? length word then
          let (v, f) := terms_loop word stemmed_searchterms
                          (value st) (searchterm_found st) in
          Scan (weighted st ++ [Entry word v (index st)]) (index st) 2%Z f
        else st in
      words_loop stemmed_searchterms rest
        (Scan (weighted st1) (index st1 + length word + 1) (value st1)
           (searchterm_found st1))
  end.

(** [for (var sentenceindex in sentences)]. *)
Fixpoint sentences_loop (stemmed_searchterms : list jsstring)
    (sentences : list jsstring) (st : scan) : scan :=
  match sentences with
  | [] => st
  | sentence :: rest =>
      let st1 := words_loop stemmed_searchterms (split1 (ch " ") sentence)
                   (Scan (weighted st) (index st) 8%Z (searchterm_found st)) in
      sentences_loop stemmed_searchterms rest
        (Scan (weighted st1) (index st1 + 1) (value st1) (searchterm_found st1))
  end.

(** Lines 699-726: the weighting pass over the whole body. *)
Definition weigh (body : jsstring) (searchterms : list jsstring) : scan :=
  sentences_loop (map stemmer searchterms)
    (split2 (ch ".") (ch " ") body) (Scan [] 0 0%Z false).

(** Lines 735-738; [n] counts the iterations that remain. *)
Fixpoint first_window (weighted : list entry) (n wordindex : nat)
    (cur_sum : Z) : result Z :=
  match n with
  | O => Ok cur_sum
  | S n' =>
      (w <- at_index weighted wordindex ;;
       first_window weighted n' (S wordindex) (cur_sum + e_value w))%res
  end.

(** Lines 740-744. *)
Fixpoint slide (weighted : list entry) (window_size n wordindex : nat)
    (cur_sum : Z) (window_weight : list Z) : result (list Z) :=
  match n with
  | O => Ok window_weight
  | S n' =>
      (leaving <- at_index weighted wordindex ;;
       entering <- at_index weighted (wordindex + window_size) ;;
       let cur_sum := (cur_sum - e_value leaving + e_value entering)%Z in
       slide weighted window_size n' (S wordindex) cur_sum
         (window_weight ++ [cur_sum]))%res
  end.

Definition window_weights (weighted : list entry) (window_size : nat)
    : result (list Z) :=
  (cur_sum <- first_window weighted window_size 0 0%Z ;;
   slide weighted window_size (length weighted - window_size) 0 cur_sum
     [cur_sum])%res.

(** Lines 750-755, the scan [for (i = length - 1; i >= 0; i--)]; [n] is the
    number of indices still to visit, so the next one is [n - 1].  A read
    past the end gives [undefined], which is not greater than any number. *)
Fixpoint backwards (window_weight : list Z) (n : nat) (max_sum : Z)
    (max_sum_window_index : nat) : nat :=
  match n with
  | O => max_sum_window_index
  | S i =>
      match nth_error window_weight i with
      | Some w =>
          if (max_sum <? w)%Z then backwards window_weight i w i
          else backwards window_weight i max_sum max_sum_window_index
      | None => backwards window_weight i max_sum max_sum_window_index
      end
  end.

(** Lines 746-758. *)
Definition select_window (found : bool) (window_weight : list Z) : nat :=
  if found then backwards window_weight (length window_weight) 0%Z 0 else 0.

(** Lines 763-778; [n] counts the iterations that remain. *)
Fixpoint emit_loop (body : jsstring) (weighted : list entry) (n i : nat)
    (index : nat) (teaser_split : list jsstring) : result (list jsstring) :=
  match n with
  | O => Ok teaser_split
  | S n' =>
      (word <- at_index weighted i ;;
       let teaser_split :=
         if index <? e_index word
         then teaser_split ++ [substring body index (e_index word)]
         else teaser_split in
       let teaser_split :=
         if (e_value word =? searchterm_weight)%Z
         then teaser_split ++ [js "<em>"] else teaser_split in
       let index := e_index word + length (e_word word) in
       let teaser_split :=
         teaser_split ++ [substring body (e_index word) index] in
       let teaser_split :=
         if (e_value word =? searchterm_weight)%Z
         then teaser_split ++ [js "</em>"] else teaser_split in
       emit_loop body weighted n' (S i) index teaser_split)%res
  end.

Definition makeTeaser (searchoptions : SearchOptions) (body : jsstring)
    (searchterms : list jsstring) : result jsstring :=
  let st := weigh body searchterms in
  let weighted := weighted st in
  if length weighted =? 0 then Ok body
  else
    let window_size :=
      Nat.min (length weighted) (teaser_word_count searchoptions) in
    (window_weight <- window_weights weighted window_size ;;
     let max_sum_window_index :=
       select_window (searchterm_found st) window_weight in
     first <- at_index weighted max_sum_window_index ;;
     teaser_split <- emit_loop body weighted window_size max_sum_window_index
                       (e_index first) [] ;;
     Ok (join [] teaser_split))%res.

End Teaser.

(** A stemmer for examples: lower-case ASCII letters and cut a final [s]. *)
Definition toy_stemmer (w : jsstring) : jsstring :=
  let lower := map (fun c => if (N.leb 65 c && N.leb c 90)%N
                             then (c + 32)%N else c) w in
  match rev lower with
  | c :: r => if char_eqb c (ch "s") then rev r else lower
  | [] => []
  end.

Definition demo_options (n : nat) : SearchOptions :=
  {| bool_mode := js "AND"; expand := true;
     teaser_word_count := n; limit_results := 30 |}.

(* ------------------------------------------------------------------ *)
(** ** The page: module variables, the elements the script touches, the
    browser *)

Inductive commit : Type := PushState | ReplaceState.

(** A child [<li>] of [#searchresults]: its [innerHTML] and whether its class
    list holds [focus]. *)
Record Li : Type := {
  li_html : jsstring;
  li_focus : bool
}.

(** The event fields [globalKeyHandler] reads. *)
Record KeyEvent : Type := {
  altKey : bool;
  ctrlKey : bool;
  metaKey : bool;
  shiftKey : bool;
  keyCode : N
}.

Definition URL_SEARCH_PARAM : jsstring := js "search".
Definition URL_MARK_PARAM : jsstring := js "highlight".
Definition SEARCH_HOTKEY_KEYCODE : N := 83.
Definition ESCAPE_KEYCODE : N := 27.
Definition DOWN_KEYCODE : N := 40.
Definition UP_KEYCODE : N := 38.
Definition SELECT_KEYCODE : N := 13.

Definition PUSH : jsstring := js "push".
Definition REPLACE : jsstring := js "replace".
Definition PUSH_IF_NEW_SEARCH_ELSE_REPLACE : jsstring :=
  js "push_if_new_search_else_replace".

Section Page.

(** The loaded elasticlunr index and its [search] method. *)
Variable Index : Type.
Variable index_search : Index -> jsstring -> SearchOptions -> list SearchResult.

Record State : Type := mkState {
  (* the browser *)
  location_href : jsstring;              (* window.location.href *)
  history_calls : list (commit * jsstring);
    (* the pushState / replaceState calls that went through, in order, each
       with the URL passed *)
  has_focus : bool;                      (* searchbar === document.activeElement *)
  default_prevented : bool;              (* e.preventDefault() was called *)
  (* the elements *)
  searchbar_value : jsstring;
  searchbar_active : bool;               (* class "active" of #searchbar *)
  searchbar_outer_display : jsstring;
  searchresults_outer_display : jsstring;
  searchresults_header : jsstring;       (* innerText *)
  searchresults : list Li;               (* children of #searchresults *)
  marked : option (list jsstring);       (* terms given to marker.mark; None after unmark *)
  (* the variables of the closure *)
  searchindex : option Index;            (* null until loaded *)
  searchoptions : SearchOptions;
  current_searchterm : jsstring;
  (* trace *)
  lookups : list jsstring                (* terms passed to searchindex.search, in order *)
}.

Definition set_location (live : jsstring) (c : commit) (u : jsstring)
    (s : State) : State :=
  mkState live (history_calls s ++ [(c, u)]) (has_focus s)
    (default_prevented s)
    (searchbar_value s) (searchbar_active s) (searchbar_outer_display s)
    (searchresults_outer_display s) (searchresults_header s) (searchresults s)
    (marked s) (searchindex s) (searchoptions s) (current_searchterm s)
    (lookups s).

Definition set_has_focus (b : bool) (s : State) : State :=
  mkState (location_href s) (history_calls s) b (default_prevented s)
    (searchbar_value s) (searchbar_active s) (searchbar_outer_display s)
    (searchresults_outer_display s) (searchresults_header s) (searchresults s)
    (marked s) (searchindex s) (searchoptions s) (current_searchterm s)
    (lookups s).

Definition set_default_prevented (b : bool) (s : State) : State :=
  mkState (location_href s) (history_calls s) (has_focus s) b
    (searchbar_value s) (searchbar_active s) (searchbar_outer_display s)
    (searchresults_outer_display s) (searchresults_header s) (searchresults s)
    (marked s) (searchindex s) (searchoptions s) (current_searchterm s)
    (lookups s).

Definition set_searchbar_value (v : jsstring) (s : State) : State :=
  mkState (location_href s) (history_calls s) (has_focus s)
    (default_prevented s) v (searchbar_active s) (searchbar_outer_display s)
    (searchresults_outer_display s) (searchresults_header s) (searchresults s)
    (marked s) (searchindex s) (searchoptions s) (current_searchterm s)
    (lookups s).

Definition set_searchbar_active (b : bool) (s : State) : State :=
  mkState (location_href s) (history_calls s) (has_focus s)
    (default_prevented s) (searchbar_value s) b (searchbar_outer_display s)
    (searchresults_outer_display s) (searchresults_header s) (searchresults s)
    (marked s) (searchindex s) (searchoptions s) (current_searchterm s)
    (lookups s).

Definition set_searchbar_outer_display (d : jsstring) (s : State) : State :=
  mkState (location_href s) (history_calls s) (has_focus s)
    (default_prevented s) (searchbar_value s) (searchbar_active s) d
    (searchresults_outer_display s) (searchresults_header s) (searchresults s)
    (marked s) (searchindex s) (searchoptions s) (current_searchterm s)
    (lookups s).

Definition set_searchresults_outer_display (d : jsstring) (s : State) : State :=
  mkState (location_href s) (history_calls s) (has_focus s)
    (default_prevented s) (searchbar_value s) (searchbar_active s)
    (searchbar_outer_display s) d (searchresults_header s) (searchresults s)
    (marked s) (searchindex s) (searchoptions s) (current_searchterm s)
    (lookups s).

Definition set_searchresults_header (t : jsstring) (s : State) : State :=
  mkState (location_href s) (history_calls s) (has_focus s)
    (default_prevented s) (searchbar_value s) (searchbar_active s)
    (searchbar_outer_display s) (searchresults_outer_display s) t
    (searchresults s) (marked s) (searchindex s) (searchoptions s)
    (current_searchterm s) (lookups s).

Definition set_searchresults (l : list Li) (s : State) : State :=
  mkState (location_href s) (history_calls s) (has_focus s)
    (default_prevented s) (searchbar_value s) (searchbar_active s)
    (searchbar_outer_display s) (searchresults_outer_display s)
    (searchresults_header s) l (marked s) (searchindex s) (searchoptions s)
    (current_searchterm s) (lookups s).

Definition set_marked (m : option (list jsstring)) (s : State) : State :=
  mkState (location_href s) (history_calls s) (has_focus s)
    (default_prevented s) (searchbar_value s) (searchbar_active s)
    (searchbar_outer_display s) (searchresults_outer_display s)
    (searchresults_header s) (searchresults s) m (searchindex s)
    (searchoptions s) (current_searchterm s) (lookups s).

Definition set_current_searchterm (t : jsstring) (s : State) : State :=
  mkState (location_href s) (history_calls s) (has_focus s)
    (default_prevented s) (searchbar_value s) (searchbar_active s)
    (searchbar_outer_display s) (searchresults_outer_display s)
    (searchresults_header s) (searchresults s) (marked s) (searchindex s)
    (searchoptions s) t (lookups s).

Definition set_searchindex (i : option Index) (s : State) : State :=
  mkState (location_href s) (history_calls s) (has_focus s)
    (default_prevented s) (searchbar_value s) (searchbar_active s)
    (searchbar_outer_display s) (searchresults_outer_display s)
    (searchresults_header s) (searchresults s) (marked s) i
    (searchoptions s) (current_searchterm s) (lookups s).

Definition log_lookup (t : jsstring) (s : State) : State :=
  mkState (location_href s) (history_calls s) (has_focus s)
    (default_prevented s) (searchbar_value s) (searchbar_active s)
    (searchbar_outer_display s) (searchresults_outer_display s)
    (searchresults_header s) (searchresults s) (marked s) (searchindex s)
    (searchoptions s) (current_searchterm s) (lookups s ++ [t]).

(** A handler: the completion (normal or abrupt) and the page afterwards. *)
Definition handler : Type := State -> result unit * State.

(** The browser's URL decomposition, its answer to a history call, the
    stemmer of the index library and the page's [path_to_root].
    [history_url live u] is what [history.pushState({}, title, u)] and
    [history.replaceState({}, title, u)] do on a document whose URL is
    [live]: [None] when the browser refuses the call with SecurityError (as
    it does when [u] differs from the document's URL in scheme, user name,
    password, host or port), and otherwise the document's URL afterwards,
    which is the browser's serialisation of [u] and not always [u] itself (a
    space, for one, is written [%20]). *)
Variable anchor : jsstring -> Anchor.t.
Variable history_url : jsstring -> jsstring -> option jsstring.
Variable stemmer : jsstring -> jsstring.
Variable path_to_root : jsstring.

Definition hasFocus (s : State) : bool := has_focus s.

Definition preventDefault (s : State) : State := set_default_prevented true s.

(** [removeChildren(searchresults)]. *)
Definition removeChildren_searchresults (s : State) : State :=
  set_searchresults [] s.

Definition formatSearchMetric (count : nat) (searchterm : jsstring) : jsstring :=
  if count =? 1 then
    of_nat count ++ js " search result for '" ++ searchterm ++ js "':"
  else if count =? 0 then
    js "No search results for '" ++ searchterm ++ js "'."
  else
    of_nat count ++ js " search results for '" ++ searchterm ++ js "':".

Definition formatSearchResult (opts : SearchOptions) (res : SearchResult)
    (searchterms : list jsstring) : result jsstring :=
  (teaser <- makeTeaser stemmer opts (escapeHTML (doc_body res)) searchterms ;;
   let url := split1 (ch "#") (ref res) in
   let url := if length url =? 1 then url ++ [[]] else url in
   Ok (js "<a href=" ++ [34%N]
       ++ path_to_root
       ++ nth 0 url [] ++ js "?" ++ URL_MARK_PARAM ++ js "="
       ++ join (js ",") searchterms ++ js "#" ++ nth 1 url []
       ++ [34%N] ++ js ">" ++ doc_breadcrumbs res ++ js "</a>"
       ++ js "<span class=" ++ [34%N] ++ js "breadcrumbs" ++ [34%N] ++ js ">"
       ++ js "</span>"
       ++ js "<span class=" ++ [34%N] ++ js "teaser" ++ [34%N] ++ js ">"
       ++ teaser ++ js "</span>"))%res.

(** *** [setSearchUrlParameters] *)

(** Lines 944-950: the edit of the parsed URL. *)
Definition edit_search_url (url : Url.t) (searchterm action : jsstring)
    : Url.t :=
  if negb (str_eqb searchterm [])
     || str_eqb action PUSH_IF_NEW_SEARCH_ELSE_REPLACE
  then
    let params := Obj.set (Url.params url) URL_SEARCH_PARAM
                    (Obj.Str searchterm) in
    let params := Obj.delete params URL_MARK_PARAM in
    Url.with_hash (Url.with_params url params) []
  else
    Url.with_params url (Obj.delete (Url.params url) URL_SEARCH_PARAM).

(** [history.pushState({}, document.title, u)] and [history.replaceState]:
    a call the browser refuses raises SecurityError and changes nothing; a
    call that goes through is recorded and the document's URL becomes the
    one the browser makes of [u]. *)
Definition history_commit (c : commit) (u : jsstring) : handler :=
  fun s =>
    match history_url (location_href s) u with
    | Some live => (Ok tt, set_location live c u s)
    | None => (Throw SecurityError, s)
    end.

(** Lines 954-958: which history call is made, if any. *)
Definition commit_of (action : jsstring) (first_search : bool) : option commit :=
  if str_eqb action PUSH
     || (str_eqb action PUSH_IF_NEW_SEARCH_ELSE_REPLACE && first_search)
  then Some PushState
  else if str_eqb action REPLACE
          || (str_eqb action PUSH_IF_NEW_SEARCH_ELSE_REPLACE
              && negb first_search)
  then Some ReplaceState
  else None.

Definition setSearchUrlParameters (searchterm action : jsstring) : handler :=
  fun s =>
    let url := parseURL anchor (location_href s) in
    match Obj.hasOwnProperty (Url.params url) URL_SEARCH_PARAM with
    | Throw e => (Throw e, s)
    | Ok own =>
        let first_search := negb own in
        let url := edit_search_url url searchterm action in
        match commit_of action first_search with
        | Some c =>
            match renderURL url with
            | Ok u => history_commit c u s
            | Throw e => (Throw e, s)
            end
        | None => (Ok tt, s)
        end
    end.

(** *** [doSearch] *)

(** The loop [for (var i = 0; i < resultcount; i++)] that fills
    [#searchresults]; [n] counts the iterations that remain.  The children
    appended before an exception stay in the page. *)
Fixpoint results_loop (opts : SearchOptions) (results : list SearchResult)
    (searchterms : list jsstring) (n i : nat) (s : State)
    : result unit * State :=
  match n with
  | O => (Ok tt, s)
  | S n' =>
      match (r <- at_index results i ;;
             formatSearchResult opts r searchterms)%res with
      | Ok html =>
          results_loop opts results searchterms n' (S i)
            (set_searchresults
               (searchresults s ++ [{| li_html := html; li_focus := false |}]) s)
      | Throw e => (Throw e, s)
      end
  end.

Definition doSearch (searchterm : jsstring) : handler :=
  fun s =>
    (* Don't search the same twice *)
    if str_eqb (current_searchterm s) searchterm then (Ok tt, s)
    else
      let s := set_current_searchterm searchterm s in
      match searchindex s with
      | None => (Ok tt, s)
      | Some idx =>
          (* Do the actual search *)
          let results := index_search idx searchterm (searchoptions s) in
          let s := log_lookup searchterm s in
          let resultcount :=
            Nat.min (length results) (limit_results (searchoptions s)) in
          let s := set_searchresults_header
                     (formatSearchMetric resultcount searchterm) s in
          let searchterms := split1 (ch " ") searchterm in
          let s := removeChildren_searchresults s in
          match results_loop (searchoptions s) results searchterms
                  resultcount 0 s with
          | (Ok _, s) => (Ok tt, set_searchresults_outer_display (js "block") s)
          | (Throw e, s) => (Throw e, s)
          end
      end.

(** *** [searchbarKeyUpHandler] *)

Definition searchbarKeyUpHandler : handler :=
  fun s =>
    let searchterm := trim (searchbar_value s) in
    let '(r, s) :=
      if negb (str_eqb searchterm []) then
        doSearch searchterm (set_searchbar_active true s)
      else
        (Ok tt,
         removeChildren_searchresults
           (set_searchresults_outer_display (js "none")
              (set_searchbar_active false s))) in
    match r with
    | Throw e => (Throw e, s)
    | Ok _ =>
        match setSearchUrlParameters searchterm
                PUSH_IF_NEW_SEARCH_ELSE_REPLACE s with
        | (Ok _, s) => (Ok tt, set_marked None s)   (* marker.unmark() *)
        | (Throw e, s) => (Throw e, s)
        end
    end.

(** *** [doSearchOrMarkFromUrl] *)

(** [v != ""] for a string or [undefined]: only the empty string is loosely
    equal to the empty string. *)
Definition differs_from_empty (v : Obj.jsval) : bool :=
  match v with
  | Obj.Undefined => true
  | Obj.Str s => negb (str_eqb s [])
  end.

(** Lines 836-842. *)
Definition mark_from_url (url : Url.t) : handler :=
  fun s =>
    match Obj.hasOwnProperty (Url.params url) URL_MARK_PARAM with
    | Throw e => (Throw e, s)
    | Ok false => (Ok tt, s)
    | Ok true =>
        match Obj.read (Url.params url) URL_MARK_PARAM with
        | Obj.Undefined => (Throw TypeError, s)   (* undefined.split *)
        | Obj.Str v => (Ok tt, set_marked (Some (split1 (ch " ") v)) s)
        end
    end.

(** Lines 823-843.  (The variable [header] of line 838 is never used.) *)
Definition doSearchOrMarkFromUrl : handler :=
  fun s =>
    let url := parseURL anchor (location_href s) in
    match Obj.hasOwnProperty (Url.params url) URL_SEARCH_PARAM with
    | Throw e => (Throw e, s)
    | Ok own =>
        if own && differs_from_empty (Obj.read (Url.params url) URL_SEARCH_PARAM)
        then
          let s := set_searchbar_outer_display [] s in
          match decodeURIComponent
                  (replace_all (ch "+") (js "%20")
                     (Obj.to_string (Obj.read (Url.params url) URL_SEARCH_PARAM)))
          with
          | Throw e => (Throw e, s)
          | Ok v =>
              match searchbarKeyUpHandler (set_searchbar_value v s) with
              | (Ok _, s) => mark_from_url url s
              | (Throw e, s) => (Throw e, s)
              end
          end
        else
          mark_from_url url (set_searchbar_outer_display (js "none") s)
    end.

(** *** [globalKeyHandler] *)

(** [unfocusSearchbar]: a temporary input takes the focus and is removed, so
    the search bar is no longer the active element. *)
Definition unfocusSearchbar (s : State) : State := set_has_focus false s.

(** [searchbar.focus()]. *)
Definition searchbar_focus (s : State) : State := set_has_focus true s.

(** The two receivers the arrow-key branches start from.
    - [searchresults.children]: [searchresults] is the element
      [#searchresults] and [children] is its collection of child elements, an
      object that is not a function.
    - [search.searchresults]: inside the closure [search] names the function
      expression itself, which has no property [searchresults]. *)
Inductive member : Type :=
| NotCallable     (* an object that is not a function *)
| Absent.         (* undefined *)

Definition searchresults_children : member := NotCallable.
Definition search_searchresults : member := Absent.

(** [m(...)]: calling a value that is not a function raises TypeError.  The
    call has no normal result, hence [Empty_set]: what the source chains
    after it ([.first().classList.add("focus")], and lines 879-897 after
    [find]) is never evaluated. *)
Definition call_value (m : member) : result Empty_set :=
  match m with
  | NotCallable => Throw TypeError
  | Absent => Throw TypeError
  end.

(** [m.find(...)]: reading a property of [undefined] raises TypeError, and so
    does calling a method a collection does not have. *)
Definition call_method (m : member) : result Empty_set :=
  match m with
  | Absent => Throw TypeError
  | NotCallable => Throw TypeError
  end.

Definition no_modifier (e : KeyEvent) : bool :=
  negb (altKey e || ctrlKey e || metaKey e || shiftKey e).

Definition globalKeyHandler (e : KeyEvent) : handler :=
  fun s =>
    if negb (no_modifier e) then (Ok tt, s)
    else if N.eqb (keyCode e) ESCAPE_KEYCODE then
      let s := preventDefault s in
      let s := set_searchbar_active false s in
      match setSearchUrlParameters []
              (if negb (str_eqb (trim (searchbar_value s)) [])
               then PUSH else REPLACE) s with
      | (Throw ex, s) => (Throw ex, s)
      | (Ok _, s) =>
          let s := if hasFocus s then unfocusSearchbar s else s in
          let s := set_searchbar_outer_display (js "none") s in
          (Ok tt, set_marked None s)            (* marker.unmark() *)
      end
    else if negb (hasFocus s) && N.eqb (keyCode e) SEARCH_HOTKEY_KEYCODE then
      let s := preventDefault s in
      let s := set_searchbar_outer_display [] s in
      (Ok tt, searchbar_focus s)
    else if hasFocus s && N.eqb (keyCode e) DOWN_KEYCODE then
      let s := preventDefault s in
      let s := unfocusSearchbar s in
      (* searchresults.children('li').first().classList.add("focus") *)
      match call_value searchresults_children with
      | Ok lis => match lis with end
      | Throw ex => (Throw ex, s)
      end
    else if negb (hasFocus s)
            && (N.eqb (keyCode e) DOWN_KEYCODE
                || N.eqb (keyCode e) UP_KEYCODE
                || N.eqb (keyCode e) SELECT_KEYCODE) then
      (* var current_focus = search.searchresults.find("li.focus") *)
      match call_method search_searchresults with
      | Ok current_focus => match current_focus with end
      | Throw ex => (Throw ex, s)
      end
    else (Ok tt, s).

(** One key event delivered to the listener: the event is fresh, and an
    exception escaping the listener ends that listener only. *)
Definition dispatch (e : KeyEvent) (s : State) : State :=
  snd (globalKeyHandler e (set_default_prevented false s)).

Definition run_keys (keys : list KeyEvent) (s : State) : State :=
  fold_left (fun s e => dispatch e s) keys s.

(** The focus state of the keyboard machine read off the page: the search
    bar has the focus, or the first result carrying the class [focus] has it,
    or nothing has. *)
Inductive KeyboardFocusState : Type :=
| Unfocused
| SearchbarFocused
| ResultFocused (i : nat).

Fixpoint focused_index (l : list Li) (i : nat) : option nat :=
  match l with
  | [] => None
  | li :: l' => if li_focus li then Some i else focused_index l' (S i)
  end.

Definition focus_state (s : State) : KeyboardFocusState :=
  if has_focus s then SearchbarFocused
  else match focused_index (searchresults s) 0 with
       | Some i => ResultFocused i
       | None => Unfocused
       end.

End Page.

Definition key (code : N) : KeyEvent :=
  {| altKey := false; ctrlKey := false; metaKey := false; shiftKey := false;
     keyCode := code |}.

(** A page for examples: the index is a list of canned results that every
    query returns. *)
Definition canned_search (idx : list SearchResult) (_ : jsstring)
    (_ : SearchOptions) : list SearchResult := idx.

Definition page (href : jsstring) (idx : option (list SearchResult))
    (results : list Li) : State (list SearchResult) :=
  {| location_href := href; history_calls := []; has_focus := false;
     default_prevented := false; searchbar_value := [];
     searchbar_active := false; searchbar_outer_display := js "none";
     searchresults_outer_display := js "none"; searchresults_header := [];
     searchresults := results; marked := None; searchindex := idx;
     searchoptions := demo_options 30; current_searchterm := [];
     lookups := [] |}.

Definition sample_results : list SearchResult :=
  [ {| ref := js "ch1.html#intro"; doc_body := js "Rust is fast. Rust is safe.";
       doc_breadcrumbs := js "Intro" |};
    {| ref := js "ch2.html"; doc_body := js "Ownership in rust";
       doc_breadcrumbs := js "Ownership" |} ].

(** Two rendered results, none of them focused. *)
Definition two_results : list Li :=
  [ {| li_html := js "<a href=ch1.html>Intro</a>"; li_focus := false |};
    {| li_html := js "<a href=ch2.html>Ownership</a>"; li_focus := false |} ].

(** The key and the value a parameter segment stands for in [params_loop]:
    [s[0]] and [s[1]] of [s = seg.split('=')]. *)
Definition seg_key (seg : jsstring) : jsstring :=
  nth 0 (split1 (ch "=") seg) [].

Definition seg_value (seg : jsstring) : Obj.jsval :=
  match nth_error (split1 (ch "=") seg) 1 with
  | Some v => Obj.Str v
  | None => Obj.Undefined
  end.

(** The weight sum of the contiguous window of [size] words that starts at
    word [start]. *)
Definition window_sum (weighted : list entry) (start size : nat) : Z :=
  fold_right Z.add 0%Z (map e_value (firstn size (skipn start weighted))).

(** The three weights a word can get. *)
Definition word_weight (v : Z) : Prop := (v = 2 \/ v = 8 \/ v = 40)%Z.

(** [w] sits in [s] at offset [off]. *)
Definition at_offset (s : jsstring) (off : nat) (w : jsstring) : Prop :=
  exists pre post, s = pre ++ w ++ post /\ length pre = off.

(** Some stemmed search term is a prefix of the stemmed word: the test of
    the innermost loop of [makeTeaser], over all terms. *)
Definition matches (stemmer : jsstring -> jsstring) (word : jsstring)
    (stemmed : list jsstring) : bool :=
  existsb (startsWith (stemmer word)) stemmed.

(** What the weighting loops maintain: every recorded weight is 2, 8 or 40,
    and the flag [searchterm_found] is set exactly when some recorded word
    carries the weight 40. *)
Definition weights_ok (st : scan) : Prop :=
  Forall (fun e => word_weight (e_value e)) (weighted st) /\
  (searchterm_found st = true <->
   Exists (fun e => e_value e = searchterm_weight) (weighted st)).

(** An entry of [weighted] whose offset points at its own text in [body],
    and whose text is not empty. *)
Definition aligned (body : jsstring) (e : entry) : Prop :=
  at_offset body (e_index e) (e_word e) /\ e_word e <> [].

(** The text [renderURL] writes for one parameter, and for all of them. *)
Definition render_segment (kv : jsstring * Obj.jsval) : jsstring :=
  fst kv ++ js "=" ++ Obj.to_string (snd kv).

Definition render_query (params : Obj.obj) : jsstring :=
  match params with
  | [] => []
  | _ :: _ => js "?" ++ join (js "&") (map render_segment params)
  end.

Definition render_fragment (hash : jsstring) : jsstring :=
  match hash with
  | [] => []
  | _ :: _ => js "#" ++ hash
  end.

(** The string [renderURL] makes of a URL object, written out: each
    parameter as [key=value] with the string form of the value, so that a
    parameter without a value reads [key=undefined]. *)
Definition render_text (u : Url.t) : jsstring :=
  (Url.protocol u ++ js "://" ++ Url.host u)
  ++ match Url.port u with [] => [] | _ :: _ => js ":" ++ Url.port u end
  ++ Url.path u
  ++ render_query (Url.params u)
  ++ render_fragment (Url.hash u).

(** A parameter list as [parseURL] builds them from segments that all carry
    a value: distinct keys other than [__proto__], string values, and neither
    [&] nor [=] inside a key or a value. *)
Definition plain_text (s : jsstring) : Prop :=
  ~ In (ch "&") s /\ ~ In (ch "=") s.

Definition plain_params (params : Obj.obj) : Prop :=
  NoDup (map fst params) /\
  Forall (fun kv => fst kv <> js "__proto__" /\ plain_text (fst kv) /\
                    exists v, snd kv = Obj.Str v /\ plain_text v) params.

(* ------------------------------------------------------------------ *)
(** ** Notions used to state further properties of the teaser *)

(** The five characters [escapeHTML] replaces, less the ampersand it writes
    itself: the characters that can open or close markup or an attribute. *)
Definition markup_char (c : char) : bool :=
  char_eqb c (ch "<") || char_eqb c (ch ">") || char_eqb c 34%N
  || char_eqb c (ch "'").

(** What [makeTeaser] emits for one word: the word, between the emphasis
    markers when it carries the weight of a search term. *)
Definition emphasised (e : entry) : jsstring :=
  if (e_value e =? searchterm_weight)%Z
  then js "<em>" ++ e_word e ++ js "</em>"
  else e_word e.

(** The text of a run of words of [weighted] read off [body]: before each
    word the text that lies between [index] (the end of the word before) and
    the word's offset, then the word as [show] renders it. *)
Fixpoint excerpt (show : entry -> jsstring) (body : jsstring) (index : nat)
    (window : list entry) : jsstring :=
  match window with
  | [] => []
  | e :: rest =>
      (if index <? e_index e then substring body index (e_index e) else [])
      ++ show e
      ++ excerpt show body (e_index e + length (e_word e)) rest
  end.

(** The words of a list follow one another without overlap between the
    offsets [pos] and [fin]: each starts at or after the end of the one
    before. *)
Fixpoint in_order (pos : nat) (l : list entry) (fin : nat) : Prop :=
  match l with
  | [] => pos <= fin
  | e :: rest =>
      pos <= e_index e /\ in_order (e_index e + length (e_word e)) rest fin
  end.

(** The offset just after the last word of a window that starts at
    [index]. *)
Fixpoint window_end (index : nat) (window : list entry) : nat :=
  match window with
  | [] => index
  | e :: rest => window_end (e_index e + length (e_word e)) rest
  end.

(** A list item shows a result: its HTML is what [formatSearchResult]
    returns for it, and it does not carry the class [focus]. *)
Definition shows (stemmer : jsstring -> jsstring) (path_to_root : jsstring)
    (opts : SearchOptions) (searchterms : list jsstring)
    (li : Li) (r : SearchResult) : Prop :=
  formatSearchResult stemmer path_to_root opts r searchterms
  = Ok (li_html li) /\
  li_focus li = false.

(* ------------------------------------------------------------------ *)
(** ** Hidden lines of Rust code blocks (lines 18 and 144-171) *)

Definition hiding_character : char := ch "#".

(** [lines[n].trim()[0] == hiding_character]: the first code unit of the
    trimmed line; a blank line has none. *)
Definition starts_hidden (line : jsstring) : bool :=
  match trim line with
  | c :: _ => char_eqb c hiding_character
  | [] => false
  end.

Fixpoint take_spaces (s : jsstring) : jsstring :=
  match s with
  | c :: s' => if is_space c then c :: take_spaces s' else []
  | [] => []
  end.

(** The pattern of line 151 (a group of any number of white-space
    characters, then [#], then an optional space) tried at the start of [s]:
    the white space is taken greedily and must be followed by [#] (giving
    white space back cannot help, a white-space character is not [#]); then
    one space is taken when there is one.  The result is the replacement,
    the text of the group, followed by the text after the match. *)
Definition marker_at_start (s : jsstring) : option jsstring :=
  match drop_spaces s with
  | c :: t =>
      if char_eqb c (ch "#") then
        Some (take_spaces s
              ++ match t with
                 | d :: t' => if char_eqb d (ch " ") then t' else t
                 | [] => []
                 end)
      else None
  | [] => None
  end.

(** [line.replace] with that pattern and the text of its group as the
    replacement: the leftmost match is replaced, and a line without a match
    is returned as it is. *)
Fixpoint strip_marker (s : jsstring) : jsstring :=
  match marker_at_start s with
  | Some r => r
  | None =>
      match s with
      | c :: s' => c :: strip_marker s'
      | [] => []
      end
  end.

Definition newline : char := 10%N.

Definition hidden_open : jsstring :=
  js "<span class=" ++ [34%N] ++ js "hidden" ++ [34%N] ++ js ">".

Definition hidden_close : jsstring := js "</span>".

(** The loop of lines 148-165 over the lines that remain; the result is the
    rewritten lines and the final value of [lines_hidden]. *)
Fixpoint hide_loop (lines : list jsstring)
    (first_non_hidden_line lines_hidden : bool) : list jsstring * bool :=
  match lines with
  | [] => ([], lines_hidden)
  | line :: rest =>
      if starts_hidden line then
        let line' :=
          if first_non_hidden_line
          then hidden_open ++ [newline] ++ strip_marker line ++ hidden_close
          else hidden_open ++ strip_marker line ++ [newline] ++ hidden_close in
        let (out, h) := hide_loop rest first_non_hidden_line true in
        (line' :: out, h)
      else if first_non_hidden_line then
        let (out, h) := hide_loop rest true lines_hidden in
        (([newline] ++ line) :: out, h)
      else
        let (out, h) := hide_loop rest true lines_hidden in
        (line :: out, h)
  end.

(** Lines 144-171 on the markup of one code block: the markup written back
    to [code_block.innerHTML], and [lines_hidden] (the expand button is
    added when it is true). *)
Definition hide_lines (innerHTML : jsstring) : jsstring * bool :=
  let (lines, lines_hidden) :=
    hide_loop (split1 newline innerHTML) false false in
  (join [] lines, lines_hidden).

(** The number of line breaks in a text. *)
Definition line_breaks (s : jsstring) : nat :=
  length (filter (char_eqb newline) s).

(* ------------------------------------------------------------------ *)
(** ** The theme switch (lines 308-347) *)

Module Theme.

(** The exceptions of [classList.add] and [classList.remove]. *)
Inductive dom_exn : Type := SyntaxError | InvalidCharacterError.

(** [localStorage] as the script sees it: reading or writing may throw (a
    blocked storage, a full one), and the item [mdbook-theme] may be
    absent. *)
Record storage : Type := {
  readable : bool;
  writable : bool;
  item : option jsstring
}.

Record page : Type := {
  ayuHighlight_disabled : bool;
  tomorrowNight_disabled : bool;
  highlight_disabled : bool;
  editors : option (list jsstring);  (* the themes of [window.editors], when
                                        [window.ace && window.editors] *)
  local_storage : storage;
  body_className : jsstring;
  html_classList : list jsstring;
  meta_updates : nat                 (* callbacks given to [setTimeout] *)
}.

End Theme.

(** The white space that makes a class token invalid: tab, line feed, form
    feed, carriage return, space. *)
Definition token_space (c : char) : bool :=
  existsb (N.eqb c) [9; 10; 12; 13; 32]%N.

(** The check [classList.add] and [classList.remove] make on a token. *)
Definition token_check (token : jsstring) : option Theme.dom_exn :=
  match token with
  | [] => Some Theme.SyntaxError
  | _ :: _ =>
      if existsb token_space token then Some Theme.InvalidCharacterError
      else None
  end.

Definition classList_remove (token : jsstring) (l : list jsstring)
    : Theme.dom_exn + list jsstring :=
  match token_check token with
  | Some e => inl e
  | None => inr (filter (fun t => negb (str_eqb t token)) l)
  end.

Definition classList_add (token : jsstring) (l : list jsstring)
    : Theme.dom_exn + list jsstring :=
  match token_check token with
  | Some e => inl e
  | None => inr (if existsb (fun t => str_eqb t token) l then l
                 else l ++ [token])
  end.

(** Lines 342-344: [previousTheme]. *)
Definition previous_theme (st : Theme.storage) : jsstring :=
  match (if Theme.readable st then Theme.item st else None) with
  | Some v => v
  | None => js "light"
  end.

(** [set_theme(theme)]: how it completes, and the page afterwards (the
    writes made before an exception stay). *)
Definition set_theme (theme : jsstring) (p : Theme.page)
    : option Theme.dom_exn * Theme.page :=
  let '(ayu, night, plain, ace_theme) :=
    if str_eqb theme (js "coal") || str_eqb theme (js "navy")
    then (true, false, true, js "ace/theme/tomorrow_night")
    else if str_eqb theme (js "ayu")
    then (false, true, true, js "ace/theme/tomorrow_night")
    else (true, true, false, js "ace/theme/dawn") in
  let st := Theme.local_storage p in
  let previousTheme := previous_theme st in
  let st' :=
    if Theme.writable st
    then {| Theme.readable := Theme.readable st;
            Theme.writable := Theme.writable st;
            Theme.item := Some theme |}
    else st in
  let after (classes : list jsstring) : Theme.page :=
    {| Theme.ayuHighlight_disabled := ayu;
       Theme.tomorrowNight_disabled := night;
       Theme.highlight_disabled := plain;
       Theme.editors := option_map (map (fun _ => ace_theme)) (Theme.editors p);
       Theme.local_storage := st';
       Theme.body_className := theme;
       Theme.html_classList := classes;
       Theme.meta_updates := S (Theme.meta_updates p) |} in
  match classList_remove previousTheme (Theme.html_classList p) with
  | inl e => (Some e, after (Theme.html_classList p))
  | inr removed =>
      match classList_add theme removed with
      | inl e => (Some e, after removed)
      | inr added => (None, after added)
      end
  end.

(* ------------------------------------------------------------------ *)
(** ** The menu bar that folds while the page scrolls down (lines 526-548) *)

Module Menu.

(** Scroll positions are numbers; the rationals hold every value a
    position takes. *)
Definition num : Type := QArith_base.Q.
Definition zero : num := QArith_base.Qmake 0 1.

Definition lt (a b : num) : bool :=
  match QArith_base.Qcompare a b with Lt => true | _ => false end.

Definition eq (a b : num) : bool :=
  match QArith_base.Qcompare a b with Eq => true | _ => false end.

(** The classes [folded] and [bordered] of [#menu-bar] and the variable
    [previousScrollTop]. *)
Record t : Type := {
  folded : bool;
  bordered : bool;
  previousScrollTop : num
}.

Inductive move : Type := Up | Down.

End Menu.

(** The [scroll] listener, for the position [scrollTop] the page has when
    it runs. *)
Definition on_scroll (scrollTop : Menu.num) (m : Menu.t) : Menu.t :=
  let folded :=
    if Menu.folded m && Menu.lt scrollTop (Menu.previousScrollTop m)
    then false
    else if negb (Menu.folded m)
            && Menu.lt (Menu.previousScrollTop m) scrollTop
    then true
    else Menu.folded m in
  let bordered :=
    if negb (Menu.bordered m) && Menu.lt Menu.zero scrollTop then true
    else Menu.bordered m in
  let bordered :=
    if bordered && Menu.eq scrollTop Menu.zero then false else bordered in
  {| Menu.folded := folded;
     Menu.bordered := bordered;
     Menu.previousScrollTop := scrollTop |}.

(** A run of scroll events, given by the positions they see. *)
Definition scroll_run (tops : list Menu.num) (m : Menu.t) : Menu.t :=
  fold_left (fun m scrollTop => on_scroll scrollTop m) tops m.

(** The direction of the last change of position in a list of positions
    given latest first; none when the position never changed. *)
Fixpoint last_move (latest_first : list Menu.num) : option Menu.move :=
  match latest_first with
  | now :: earlier =>
      match earlier with
      | before :: _ =>
          match QArith_base.Qcompare before now with
          | Lt => Some Menu.Down
          | Gt => Some Menu.Up
          | Eq => last_move earlier
          end
      | [] => None
      end
  | [] => None
  end.

(* ================================================================== *)
(** * Properties *)

(** ** The embedding evaluated on small inputs *)

Example split1_demo :
  split1 (ch "&") (js "a=1&&b") = [js "a=1"; js ""; js "b"].
Proof. reflexivity. Qed.

Example split2_demo :
  split2 (ch ".") (ch " ") (js "One. Two.  Three. ") =
  [js "One"; js "Two"; js " Three"; js ""].
Proof. reflexivity. Qed.

Example parseURL_demo :
  let u := parseURL reference_anchor
             (js "https://example.com:8080/book/ch1.html?search=foo&a=1#sec") in
  Url.protocol u = js "https" /\ Url.host u = js "example.com" /\
  Url.port u = js "8080" /\ Url.path u = js "/book/ch1.html" /\
  Url.file u = js "ch1.html" /\ Url.hash u = js "sec" /\
  Url.params u = [(js "search", Obj.Str (js "foo")); (js "a", Obj.Str (js "1"))].
Proof. repeat split; reflexivity. Qed.

Example renderURL_demo :
  renderURL (parseURL reference_anchor
               (js "https://example.com:8080/book/ch1.html?b=2&10=x&9=y#sec")) =
  Ok (js "https://example.com:8080/book/ch1.html?9=y&10=x&b=2#sec").
Proof. reflexivity. Qed.

Example decode_plain :
  decodeURIComponent (js "caf%C3%A9%20au%20lait") =
  Ok (js "caf" ++ [233%N] ++ js " au lait").
Proof. reflexivity. Qed.

Example decode_astral :
  decodeURIComponent (js "%F0%9F%98%80") = Ok [55357%N; 56832%N].
Proof. reflexivity. Qed.

Example decode_lone_percent :
  decodeURIComponent (js "100%") = Throw URIError.
Proof. reflexivity. Qed.

Example decode_truncated_sequence :
  decodeURIComponent (js "%E0%A4%A") = Throw URIError.
Proof. reflexivity. Qed.

Example makeTeaser_dog :
  makeTeaser toy_stemmer (demo_options 4)
    (js "The quick brown fox. The dog sleeps.") [js "dog"] =
  Ok (js "fox. The <em>dog</em> sleeps.").
Proof. reflexivity. Qed.

Example makeTeaser_no_terms :
  makeTeaser toy_stemmer (demo_options 4)
    (js "The quick brown fox. The dog sleeps.") [] =
  Ok (js "The quick brown fox").
Proof. reflexivity. Qed.

(** ** Strings *)

Lemma char_eqb_eq (a b : char) : char_eqb a b = true <-> a = b.
Proof. apply N.eqb_eq. Qed.

Lemma str_eqb_eq (a b : jsstring) : str_eqb a b = true <-> a = b.
Proof.
  revert b; induction a as [|x a IH]; intros [|y b]; simpl;
    try (split; [discriminate | congruence]); try tauto.
  rewrite andb_true_iff, char_eqb_eq, IH.
  split; [intros [-> ->]; reflexivity | intros H; injection H; auto].
Qed.

Lemma str_eqb_refl (a : jsstring) : str_eqb a a = true.
Proof. apply str_eqb_eq; reflexivity. Qed.

Lemma str_eqb_neq (a b : jsstring) : str_eqb a b = false <-> a <> b.
Proof.
  rewrite <- str_eqb_eq. destruct (str_eqb a b); split; congruence.
Qed.

(** ** The query executor *)

Section DoSearch.

Variable Index : Type.
Variable index_search : Index -> jsstring -> SearchOptions -> list SearchResult.
Variable stemmer : jsstring -> jsstring.
Variable path_to_root : jsstring.

Local Abbreviation search_for := (doSearch index_search stemmer path_to_root).

(** Filling the result list touches neither the cached term, nor the index
    handle, nor the trace of lookups. *)
Lemma results_loop_frame opts results terms n :
  forall i (s : State Index),
    let s' := snd (results_loop stemmer path_to_root opts results terms n i s) in
    current_searchterm s' = current_searchterm s /\
    searchindex s' = searchindex s /\
    lookups s' = lookups s.
Proof.
  induction n as [|n IH]; intros i s; simpl; [auto|].
  destruct (at_index results i) as [r|e]; simpl; [|auto].
  destruct (formatSearchResult stemmer path_to_root opts r terms); simpl; [|auto].
  match goal with |- context [results_loop _ _ _ _ _ _ _ ?s1] =>
    destruct (IH (S i) s1) as (H1 & H2 & H3) end.
  simpl in *. auto.
Qed.

(** Whatever happens in [doSearch t], the cached term is [t] afterwards and
    the index handle is the same. *)
Lemma doSearch_records_term (t : jsstring) (s : State Index) :
  current_searchterm (snd (search_for t s)) = t /\
  searchindex (snd (search_for t s)) = searchindex s.
Proof.
  unfold doSearch.
  destruct (str_eqb (current_searchterm s) t) eqn:E; simpl.
  - apply str_eqb_eq in E; auto.
  - destruct (searchindex s) as [idx|] eqn:Ei; simpl; [|auto].
    match goal with |- context [results_loop _ _ ?o ?r ?ts ?n ?i ?s1] =>
      pose proof (results_loop_frame o r ts n i s1) as F;
      destruct (results_loop stemmer path_to_root o r ts n i s1) as [[u|e] s2]
    end; simpl in *; destruct F as (F1 & F2 & F3); simpl in *;
      try split; congruence.
Qed.

(** A call whose term is the cached one returns at once and changes
    nothing. *)
Lemma doSearch_same_term (t : jsstring) (s : State Index) :
  current_searchterm s = t -> search_for t s = (Ok tt, s).
Proof.
  intros H. unfold doSearch.
  rewrite H, str_eqb_refl. reflexivity.
Qed.

(** The lookups one call performs: exactly one, for [t], when the index is
    loaded and [t] is not the cached term; none otherwise. *)
Lemma doSearch_lookups (t : jsstring) (s : State Index) :
  lookups (snd (search_for t s)) =
  match searchindex s with
  | Some _ => if str_eqb (current_searchterm s) t then lookups s
              else lookups s ++ [t]
  | None => lookups s
  end.
Proof.
  unfold doSearch.
  destruct (str_eqb (current_searchterm s) t) eqn:E; simpl.
  - destruct (searchindex s); reflexivity.
  - destruct (searchindex s) as [idx|] eqn:Ei; simpl; [|reflexivity].
    match goal with |- context [results_loop _ _ ?o ?r ?ts ?n ?i ?s1] =>
      pose proof (results_loop_frame o r ts n i s1) as F;
      destruct (results_loop stemmer path_to_root o r ts n i s1) as [[u|e] s2]
    end; simpl in *; destruct F as (F1 & F2 & F3); simpl in *;
      try split; congruence.
Qed.

(** C9.  Two calls [doSearch(t)] in a row: the second one returns at the
    test of the cached term and leaves the page exactly as the first call
    left it, whatever the page was; and when the pair starts a run of
    searches for [t] on a loaded index (the index handle is set, and the
    cached term, that of the previous call if there was one, is another
    term), [searchindex.search] runs exactly once over the two calls: the
    trace of lookups grows by the single entry [t]. *)
Theorem doSearch_twice_one_lookup (t : jsstring) (s : State Index) :
  let s1 := snd (search_for t s) in
  let s2 := snd (search_for t s1) in
  search_for t s1 = (Ok tt, s1) /\
  s2 = s1 /\
  forall idx : Index,
    searchindex s = Some idx ->
    current_searchterm s <> t ->
    lookups s1 = lookups s ++ [t] /\
    lookups s2 = lookups s ++ [t].
Proof.
  intros s1 s2.
  assert (H2 : search_for t s1 = (Ok tt, s1)).
  { apply doSearch_same_term. apply doSearch_records_term. }
  assert (E : s2 = s1) by (unfold s2; rewrite H2; reflexivity).
  split; [exact H2|]. split; [exact E|].
  intros idx Hidx Hterm.
  assert (H1 : lookups s1 = lookups s ++ [t]).
  { unfold s1. rewrite doSearch_lookups, Hidx.
    apply str_eqb_neq in Hterm. rewrite Hterm. reflexivity. }
  split; [exact H1 | rewrite E; exact H1].
Qed.

(** C10.  [doSearch] stores the term before it looks at the index handle:
    called while [searchindex] is null it completes normally, leaves [t] as
    the cached term, runs no lookup and renders nothing; and when the index
    is loaded afterwards, [doSearch(t)] returns at once, again without a
    lookup and without touching the result list. *)
Theorem doSearch_before_load_loses_query (t : jsstring) (s : State Index) :
  searchindex s = None ->
  let s1 := snd (search_for t s) in
  fst (search_for t s) = Ok tt /\
  current_searchterm s1 = t /\
  lookups s1 = lookups s /\
  searchresults s1 = searchresults s /\
  forall idx : Index,
    let s2 := set_searchindex (Some idx) s1 in
    search_for t s2 = (Ok tt, s2) /\
    lookups s2 = lookups s /\
    searchresults s2 = searchresults s.
Proof.
  intros Hnull s1.
  assert (Hl : lookups s1 = lookups s).
  { unfold s1. rewrite doSearch_lookups, Hnull. reflexivity. }
  assert (Hc : current_searchterm s1 = t) by apply doSearch_records_term.
  assert (Hr : fst (search_for t s) = Ok tt /\
               searchresults s1 = searchresults s).
  { unfold s1, doSearch.
    destruct (str_eqb (current_searchterm s) t); simpl; auto.
    rewrite Hnull; simpl; auto. }
  destruct Hr as [Hok Hres].
  repeat split; auto.
  apply doSearch_same_term. exact Hc.
Qed.

End DoSearch.

(** The first search for [rust] on a loaded index, made twice: one lookup. *)
Lemma doSearch_twice_one_lookup_witness :
  let s := page (js "http://example.com/book/") (Some sample_results) [] in
  let s1 := snd (doSearch canned_search toy_stemmer (js "../") (js "rust") s) in
  let s2 := snd (doSearch canned_search toy_stemmer (js "../") (js "rust") s1) in
  lookups s1 = [js "rust"] /\ lookups s2 = [js "rust"].
Proof.
  intros s s1 s2.
  destruct (@doSearch_twice_one_lookup _ canned_search toy_stemmer (js "../")
              (js "rust") s) as (_ & _ & H).
  apply (H sample_results).
  - reflexivity.
  - discriminate.
Defined.

(** A search for [rust] before the index is there, and again once it is. *)
Lemma doSearch_before_load_loses_query_witness :
  let s := page (js "http://example.com/book/") None [] in
  let s1 := snd (doSearch canned_search toy_stemmer (js "../") (js "rust") s) in
  fst (doSearch canned_search toy_stemmer (js "../") (js "rust") s) = Ok tt /\
  current_searchterm s1 = js "rust" /\
  lookups s1 = [] /\
  searchresults s1 = [] /\
  forall idx : list SearchResult,
    let s2 := set_searchindex (Some idx) s1 in
    doSearch canned_search toy_stemmer (js "../") (js "rust") s2 = (Ok tt, s2) /\
    lookups s2 = [] /\
    searchresults s2 = [].
Proof.
  apply (@doSearch_before_load_loses_query _ canned_search toy_stemmer
           (js "../") (js "rust")
           (page (js "http://example.com/book/") None [])).
  reflexivity.
Defined.

(** ** Dictionaries *)

Module ObjFacts.
Import Obj.

Lemma get_update_same o k v :
  has_own o k = true -> get (update o k v) k = Some v.
Proof.
  unfold has_own. induction o as [|[k' v'] o IH]; simpl; [discriminate|].
  destruct (str_eqb k' k) eqn:E; simpl; rewrite E; auto.
Qed.

Lemma get_update_other o k v k' :
  k <> k' -> get (update o k v) k' = get o k'.
Proof.
  intros N. induction o as [|[k0 v0] o IH]; simpl; [reflexivity|].
  destruct (str_eqb k0 k) eqn:E; simpl.
  - apply str_eqb_eq in E; subst k0.
    apply str_eqb_neq in N. rewrite N. reflexivity.
  - rewrite IH. reflexivity.
Qed.

Lemma get_insert_index o n k v k' :
  get o k = None ->
  get (insert_index o n k v) k' =
  if str_eqb k k' then Some v else get o k'.
Proof.
  induction o as [|[k0 v0] o IH]; simpl; intros Hk; [reflexivity|].
  destruct (str_eqb k0 k) eqn:E0; [discriminate|].
  assert (Hs : str_eqb k k' = true -> str_eqb k0 k' = false).
  { intros H. apply str_eqb_eq in H; subst k'. exact E0. }
  destruct (array_index k0) as [m|]; [destruct (N.ltb m n)|]; simpl;
    try reflexivity.
  rewrite (IH Hk).
  destruct (str_eqb k k') eqn:E; [rewrite (Hs eq_refl)|]; reflexivity.
Qed.

Lemma get_app_new o k v k' :
  get o k = None ->
  get (o ++ [(k, v)]) k' = if str_eqb k k' then Some v else get o k'.
Proof.
  induction o as [|[k0 v0] o IH]; simpl; intros Hk; [reflexivity|].
  destruct (str_eqb k0 k) eqn:E0; [discriminate|].
  rewrite (IH Hk).
  destruct (str_eqb k k') eqn:E; [|reflexivity].
  apply str_eqb_eq in E; subst k'. rewrite E0. reflexivity.
Qed.

(** Reading after [o[k] = v]. *)
Lemma get_set o k v k' :
  k <> js "__proto__" ->
  get (set o k v) k' = if str_eqb k k' then Some v else get o k'.
Proof.
  intros Hp. unfold set.
  apply str_eqb_neq in Hp. rewrite Hp.
  unfold has_own. destruct (get o k) as [x|] eqn:G.
  - destruct (str_eqb k k') eqn:E.
    + apply str_eqb_eq in E; subst k'.
      apply get_update_same. unfold has_own. rewrite G. reflexivity.
    + apply get_update_other. apply str_eqb_neq. exact E.
  - destruct (array_index k); [apply get_insert_index | apply get_app_new];
      exact G.
Qed.

(** Reading after [delete o[k]]. *)
Lemma get_delete o k k' :
  get (delete o k) k' = if str_eqb k k' then None else get o k'.
Proof.
  unfold delete. induction o as [|[k0 v0] o IH]; simpl.
  - destruct (str_eqb k k'); reflexivity.
  - destruct (str_eqb k0 k) eqn:E0; simpl.
    + apply str_eqb_eq in E0; subst k0. rewrite IH.
      destruct (str_eqb k k'); reflexivity.
    + rewrite IH. destruct (str_eqb k k') eqn:E; [|reflexivity].
      apply str_eqb_eq in E; subst k'. rewrite E0. reflexivity.
Qed.

Lemma has_own_set o k v k' :
  k <> js "__proto__" ->
  has_own (set o k v) k' = str_eqb k k' || has_own o k'.
Proof.
  intros Hp. unfold has_own. rewrite (get_set o v k' Hp).
  destruct (str_eqb k k'); reflexivity.
Qed.

Lemma has_own_delete o k k' :
  has_own (delete o k) k' = negb (str_eqb k k') && has_own o k'.
Proof.
  unfold has_own. rewrite get_delete. destruct (str_eqb k k'); reflexivity.
Qed.

End ObjFacts.

(** ** The URL/history synchroniser *)

Lemma render_loop_total params props url joiner :
  Obj.has_own params (js "hasOwnProperty") = false ->
  exists u, render_loop params props url joiner = Ok u.
Proof.
  intros H. revert url joiner.
  induction props as [|prop rest IH]; intros url joiner; simpl.
  - eauto.
  - unfold Obj.hasOwnProperty. rewrite H. simpl.
    destruct (Obj.has_own params prop); apply IH.
Qed.

Lemma renderURL_total (u : Url.t) :
  Obj.has_own (Url.params u) (js "hasOwnProperty") = false ->
  exists r, renderURL u = Ok r.
Proof.
  intros H. unfold renderURL.
  match goal with |- context [render_loop ?p ?ps ?url ?j] =>
    destruct (@render_loop_total p ps url j H) as [r Hr]; rewrite Hr end.
  simpl. eauto.
Qed.

Lemma edit_search_url_keeps_shadow (url : Url.t) (term action : jsstring) :
  Obj.has_own (Url.params (edit_search_url url term action))
    (js "hasOwnProperty") =
  Obj.has_own (Url.params url) (js "hasOwnProperty").
Proof.
  unfold edit_search_url.
  destruct (negb (str_eqb term []) ||
            str_eqb action PUSH_IF_NEW_SEARCH_ELSE_REPLACE); simpl.
  - rewrite ObjFacts.has_own_delete, ObjFacts.has_own_set by discriminate.
    reflexivity.
  - rewrite ObjFacts.has_own_delete. reflexivity.
Qed.

Lemma commit_of_push (action : jsstring) (first_search : bool) :
  commit_of action first_search = Some PushState <->
  action = PUSH \/
  (action = PUSH_IF_NEW_SEARCH_ELSE_REPLACE /\ first_search = true).
Proof.
  unfold commit_of.
  destruct (str_eqb action PUSH) eqn:E1.
  { apply str_eqb_eq in E1. simpl. tauto. }
  destruct (str_eqb action PUSH_IF_NEW_SEARCH_ELSE_REPLACE) eqn:E2.
  - apply str_eqb_eq in E2. apply str_eqb_neq in E1. subst action.
    destruct first_search; simpl.
    + tauto.
    + split; [discriminate|]. intros [H|[_ H]]; [exfalso; auto | discriminate].
  - apply str_eqb_neq in E1, E2. simpl.
    destruct (str_eqb action REPLACE); simpl;
      (split; [discriminate | intros [H|[H _]]; contradiction]).
Qed.

Lemma commit_of_replace (action : jsstring) (first_search : bool) :
  commit_of action first_search = Some ReplaceState <->
  action = REPLACE \/
  (action = PUSH_IF_NEW_SEARCH_ELSE_REPLACE /\ first_search = false).
Proof.
  unfold commit_of.
  destruct (str_eqb action PUSH) eqn:E1.
  { apply str_eqb_eq in E1. subst action. simpl.
    split; [discriminate | intros [H|[H _]]; discriminate H]. }
  destruct (str_eqb action PUSH_IF_NEW_SEARCH_ELSE_REPLACE) eqn:E2.
  - apply str_eqb_eq in E2. subst action.
    destruct first_search; simpl.
    + split; [discriminate | intros [H|[_ H]]; discriminate H].
    + tauto.
  - apply str_eqb_neq in E2. simpl.
    destruct (str_eqb action REPLACE) eqn:E3; simpl.
    + apply str_eqb_eq in E3. tauto.
    + apply str_eqb_neq in E3.
      split; [discriminate | intros [H|[H _]]; contradiction].
Qed.

Section SetUrl.

Variable Index : Type.
Variable anchor : jsstring -> Anchor.t.
Variable history_url : jsstring -> jsstring -> option jsstring.

(** How a call ends: with a TypeError and an untouched page when the live URL
    carries a parameter named [hasOwnProperty] (the own property shadows the
    method called on line 943), and otherwise the way the history call that
    [commit_of] selects ends, or normally when it selects none. *)
Lemma setSearchUrlParameters_run (term action : jsstring) (s : State Index) :
  let url := parseURL anchor (location_href s) in
  if Obj.has_own (Url.params url) (js "hasOwnProperty") then
    setSearchUrlParameters anchor history_url term action s
    = (Throw TypeError, s)
  else
    exists u,
      renderURL (edit_search_url url term action) = Ok u /\
      setSearchUrlParameters anchor history_url term action s =
      match commit_of action
              (negb (Obj.has_own (Url.params url) URL_SEARCH_PARAM)) with
      | Some c => history_commit history_url c u s
      | None => (Ok tt, s)
      end.
Proof.
  intros url. unfold setSearchUrlParameters, Obj.hasOwnProperty. fold url.
  destruct (Obj.has_own (Url.params url) (js "hasOwnProperty")) eqn:H;
    [reflexivity|].
  destruct (@renderURL_total (edit_search_url url term action)) as [u Hu].
  { rewrite edit_search_url_keeps_shadow. exact H. }
  exists u. split; [exact Hu|]. rewrite Hu.
  destruct (commit_of action _); reflexivity.
Qed.

(** Lines 944-950 on the parsed URL. *)
Lemma edit_search_url_spec (url : Url.t) (term action : jsstring) :
  let url' := edit_search_url url term action in
  (term <> [] \/ action = PUSH_IF_NEW_SEARCH_ELSE_REPLACE ->
     Obj.get (Url.params url') URL_SEARCH_PARAM = Some (Obj.Str term) /\
     Obj.has_own (Url.params url') URL_MARK_PARAM = false /\
     Url.hash url' = []) /\
  (~ (term <> [] \/ action = PUSH_IF_NEW_SEARCH_ELSE_REPLACE) ->
     Obj.has_own (Url.params url') URL_SEARCH_PARAM = false).
Proof.
  unfold edit_search_url.
  destruct (negb (str_eqb term []) ||
            str_eqb action PUSH_IF_NEW_SEARCH_ELSE_REPLACE) eqn:C; simpl.
  - split.
    + intros _. repeat split.
      * rewrite ObjFacts.get_delete, ObjFacts.get_set by discriminate.
        reflexivity.
      * rewrite ObjFacts.has_own_delete, str_eqb_refl. reflexivity.
    + intros N. exfalso. apply N.
      apply orb_true_iff in C. destruct C as [C|C].
      * left. apply negb_true_iff, str_eqb_neq in C. exact C.
      * right. apply str_eqb_eq in C. exact C.
  - apply orb_false_iff in C. destruct C as [C1 C2].
    apply negb_false_iff, str_eqb_eq in C1. apply str_eqb_neq in C2.
    split.
    + intros [H|H]; contradiction.
    + intros _. rewrite ObjFacts.has_own_delete, str_eqb_refl. reflexivity.
Qed.

(** X13.  The commit rule.  A call of [setSearchUrlParameters] ends with
    TypeError, before any history call and with the page untouched, when the
    live URL has a parameter named [hasOwnProperty].  Otherwise it renders
    the edited URL object and calls [pushState] with that string when the
    action is [push], or is [push_if_new_search_else_replace] while the live
    URL has no [search] parameter; it calls [replaceState] with it when the
    action is [replace], or is [push_if_new_search_else_replace] while a
    [search] parameter is present (the two cases exclude each other); and
    with any other action it makes no history call and completes with the
    page untouched.  A history call the browser refuses ends the handler
    with SecurityError and the page untouched; one that goes through is
    recorded, and the live URL becomes the one the browser makes of the
    string. *)
Lemma setSearchUrlParameters_commit_rule (term action : jsstring)
    (s : State Index) :
  let url := parseURL anchor (location_href s) in
  let r := setSearchUrlParameters anchor history_url term action s in
  let push_case :=
    action = PUSH \/
    (action = PUSH_IF_NEW_SEARCH_ELSE_REPLACE /\
     Obj.has_own (Url.params url) URL_SEARCH_PARAM = false) in
  let replace_case :=
    action = REPLACE \/
    (action = PUSH_IF_NEW_SEARCH_ELSE_REPLACE /\
     Obj.has_own (Url.params url) URL_SEARCH_PARAM = true) in
  let call (c : commit) (u : jsstring) :=
    match history_url (location_href s) u with
    | Some live => r = (Ok tt, set_location live c u s)
    | None => r = (Throw SecurityError, s)
    end in
  ~ (push_case /\ replace_case) /\
  if Obj.has_own (Url.params url) (js "hasOwnProperty")
  then r = (Throw TypeError, s)
  else
    exists u,
      renderURL (edit_search_url url term action) = Ok u /\
      (push_case -> call PushState u) /\
      (replace_case -> call ReplaceState u) /\
      (~ push_case -> ~ replace_case -> r = (Ok tt, s)).
Proof.
  intros url r push_case replace_case call.
  pose proof (commit_of_push action
                (negb (Obj.has_own (Url.params url) URL_SEARCH_PARAM))) as P.
  pose proof (commit_of_replace action
                (negb (Obj.has_own (Url.params url) URL_SEARCH_PARAM))) as Q.
  rewrite negb_true_iff in P. rewrite negb_false_iff in Q.
  fold push_case in P. fold replace_case in Q.
  split.
  { intros [Hp Hr]. apply P in Hp. apply Q in Hr. congruence. }
  pose proof (setSearchUrlParameters_run term action s) as R.
  cbv zeta in R. fold url in R. fold r in R.
  destruct (Obj.has_own (Url.params url) (js "hasOwnProperty"));
    [exact R|].
  destruct R as (u & Hu & R). exists u. split; [exact Hu|].
  assert (Hcall : forall c,
             commit_of action
               (negb (Obj.has_own (Url.params url) URL_SEARCH_PARAM))
             = Some c -> call c u).
  { intros c E. rewrite E in R. unfold call. rewrite R.
    unfold history_commit. destruct (history_url _ _); reflexivity. }
  split; [intros H; apply Hcall, P, H|].
  split; [intros H; apply Hcall, Q, H|].
  intros Np Nr.
  destruct (commit_of action
              (negb (Obj.has_own (Url.params url) URL_SEARCH_PARAM)))
    as [[|]|] eqn:C.
  - exfalso. apply Np, P. reflexivity.
  - exfalso. apply Nr, Q. reflexivity.
  - exact R.
Qed.

(** The URL a history call is made with, and the URL object it is rendered
    from: whenever a call of [setSearchUrlParameters] makes a history call
    that goes through, the string passed is the rendering of the parsed live
    URL after the edit of lines 944-950, and in that URL object: if the term
    is not empty or the action is [push_if_new_search_else_replace], the
    [search] parameter is the term, there is no [highlight] parameter and
    the fragment is empty; otherwise there is no [search] parameter. *)
Lemma setSearchUrlParameters_committed_url (term action : jsstring)
    (s : State Index) (c : commit) (u : jsstring) :
  history_calls (snd (setSearchUrlParameters anchor history_url term action s))
  = history_calls s ++ [(c, u)] ->
  let url := edit_search_url (parseURL anchor (location_href s)) term action in
  renderURL url = Ok u /\
  (exists live,
     history_url (location_href s) u = Some live /\
     setSearchUrlParameters anchor history_url term action s =
     (Ok tt, set_location live c u s)) /\
  (term <> [] \/ action = PUSH_IF_NEW_SEARCH_ELSE_REPLACE ->
     Obj.get (Url.params url) URL_SEARCH_PARAM = Some (Obj.Str term) /\
     Obj.has_own (Url.params url) URL_MARK_PARAM = false /\
     Url.hash url = []) /\
  (~ (term <> [] \/ action = PUSH_IF_NEW_SEARCH_ELSE_REPLACE) ->
     Obj.has_own (Url.params url) URL_SEARCH_PARAM = false).
Proof.
  intros H url.
  assert (Hgrow : history_calls s <> history_calls s ++ [(c, u)]).
  { intros E. apply (f_equal (@length _)) in E.
    rewrite length_app in E. simpl in E. lia. }
  assert (G : renderURL url = Ok u /\
              exists live,
                history_url (location_href s) u = Some live /\
                setSearchUrlParameters anchor history_url term action s =
                (Ok tt, set_location live c u s)).
  { pose proof (setSearchUrlParameters_run term action s) as R.
    cbv zeta in R.
    destruct (Obj.has_own (Url.params (parseURL anchor (location_href s)))
                (js "hasOwnProperty")).
    { rewrite R in H. simpl in H. contradiction. }
    destruct R as (v & Hv & R). rewrite R in H |- *.
    destruct (commit_of action _) as [c'|]; [|simpl in H; contradiction].
    unfold history_commit in *.
    destruct (history_url (location_href s) v) as [live|] eqn:E;
      simpl in H; [|contradiction].
    apply app_inv_head in H. injection H as -> ->.
    split; [exact Hv|]. exists live. split; [exact E | reflexivity]. }
  destruct G as [G1 G2].
  split; [exact G1|]. split; [exact G2|]. apply edit_search_url_spec.
Qed.

End SetUrl.

(** The commit rule on the specification's first scenario. *)
Lemma setSearchUrlParameters_commit_rule_witness :
  let s : State (list SearchResult) :=
    page (js "http://example.com/book/index.html") None [] in
  let u := js "http://example.com/book/index.html?search=foo" in
  setSearchUrlParameters reference_anchor reference_history (js "foo")
    PUSH_IF_NEW_SEARCH_ELSE_REPLACE s =
  (Ok tt, set_location u PushState u s).
Proof.
  intros s u.
  destruct (@setSearchUrlParameters_commit_rule _ reference_anchor
              reference_history (js "foo") PUSH_IF_NEW_SEARCH_ELSE_REPLACE s)
    as [_ H].
  assert (E : Obj.has_own
                (Url.params (parseURL reference_anchor (location_href s)))
                (js "hasOwnProperty") = false) by reflexivity.
  rewrite E in H. destruct H as (v & Hv & Hp & _).
  assert (Ev : Ok v = Ok u) by (rewrite <- Hv; reflexivity).
  injection Ev as ->.
  specialize (Hp (or_intror (conj eq_refl eq_refl))).
  assert (Eh : reference_history (location_href s) u = Some u)
    by reflexivity.
  rewrite Eh in Hp. exact Hp.
Defined.

(** The scenario of the specification: the first search on a URL without a
    [search] parameter is pushed, the refinement that follows on the
    resulting URL replaces it. *)
Example setSearchUrlParameters_push_then_replace :
  let s : State (list SearchResult) :=
    page (js "http://example.com/book/index.html") None [] in
  let s1 := snd (setSearchUrlParameters reference_anchor reference_history
                   (js "foo") PUSH_IF_NEW_SEARCH_ELSE_REPLACE s) in
  let s2 := snd (setSearchUrlParameters reference_anchor reference_history
                   (js "foobar") PUSH_IF_NEW_SEARCH_ELSE_REPLACE s1) in
  history_calls s2 =
  [(PushState, js "http://example.com/book/index.html?search=foo");
   (ReplaceState, js "http://example.com/book/index.html?search=foobar")].
Proof. reflexivity. Qed.

(** Clearing the search drops the parameter. *)
Example setSearchUrlParameters_clear :
  let s : State (list SearchResult) :=
    page (js "http://example.com/book/index.html?search=foo&a=1") None [] in
  history_calls
    (snd (setSearchUrlParameters reference_anchor reference_history []
            REPLACE s)) =
  [(ReplaceState, js "http://example.com/book/index.html?a=1")].
Proof. reflexivity. Qed.

(** C3, the code at a failing input.  On a live URL that carries a parameter
    named [hasOwnProperty] (and no [search] parameter) the call
    [url.params.hasOwnProperty(URL_SEARCH_PARAM)] of line 943 reaches the
    parameter's string instead of the inherited method: the call raises
    TypeError before any history call is made, whatever the action and
    whatever the browser would answer to a history call, so neither [push]
    nor a first [push_if_new_search_else_replace] is committed via
    [pushState], and [replace] is not committed via [replaceState]. *)
Theorem setSearchUrlParameters_shadowed_no_commit
    (history_url : jsstring -> jsstring -> option jsstring) :
  let s : State (list SearchResult) :=
    page (js "http://example.com/book/index.html?hasOwnProperty=1") None [] in
  Obj.has_own (Url.params (parseURL reference_anchor (location_href s)))
    URL_SEARCH_PARAM = false /\
  setSearchUrlParameters reference_anchor history_url (js "rust") PUSH s
  = (Throw TypeError, s) /\
  setSearchUrlParameters reference_anchor history_url (js "rust")
    PUSH_IF_NEW_SEARCH_ELSE_REPLACE s
  = (Throw TypeError, s) /\
  setSearchUrlParameters reference_anchor history_url [] REPLACE s
  = (Throw TypeError, s) /\
  history_calls s = [].
Proof. repeat split; reflexivity. Qed.

(** C4, the code at a failing input.  The term is written into the URL as
    it was typed, without encoding.  For the term [x&highlight=y#z] on a
    page without parameters, the URL object of lines 944-950 is as the
    comment above the function says (the [search] parameter is the term, no
    [highlight] parameter, an empty fragment), but the string rendered from
    it and passed to [pushState] is not: in the committed URL the [search]
    parameter is [x], there is a [highlight] parameter, and the fragment is
    [z]. *)
Theorem setSearchUrlParameters_unencoded_term :
  let s : State (list SearchResult) :=
    page (js "http://example.com/book/index.html") None [] in
  let term := js "x&highlight=y#z" in
  let u := js "http://example.com/book/index.html?search=x&highlight=y#z" in
  let url := edit_search_url (parseURL reference_anchor (location_href s))
               term PUSH_IF_NEW_SEARCH_ELSE_REPLACE in
  let committed := parseURL reference_anchor u in
  Obj.get (Url.params url) URL_SEARCH_PARAM = Some (Obj.Str term) /\
  Obj.has_own (Url.params url) URL_MARK_PARAM = false /\
  Url.hash url = [] /\
  renderURL url = Ok u /\
  setSearchUrlParameters reference_anchor reference_history term
    PUSH_IF_NEW_SEARCH_ELSE_REPLACE s
  = (Ok tt, set_location u PushState u s) /\
  Obj.get (Url.params committed) URL_SEARCH_PARAM = Some (Obj.Str (js "x")) /\
  Obj.get (Url.params committed) URL_MARK_PARAM = Some (Obj.Str (js "y")) /\
  Url.hash committed = js "z".
Proof. repeat split; reflexivity. Qed.

(** Typed into the search box and committed by the keyup handler's call,
    [&str] leaves the [search] parameter of the committed URL empty. *)
Example setSearchUrlParameters_ampersand_first :
  let s : State (list SearchResult) :=
    page (js "http://example.com/book/index.html") None [] in
  let u := js "http://example.com/book/index.html?search=&str" in
  setSearchUrlParameters reference_anchor reference_history (js "&str")
    PUSH_IF_NEW_SEARCH_ELSE_REPLACE s
  = (Ok tt, set_location u PushState u s) /\
  Obj.get (Url.params (parseURL reference_anchor u)) URL_SEARCH_PARAM =
  Some (Obj.Str []).
Proof. split; reflexivity. Qed.

(** The two ways a history call differs from writing the string into the
    location.  On a page opened with credentials the rendered URL has lost
    them ([parseURL] keeps [hostname] only) and the browser refuses the
    call; and a space of the term reaches the live URL as [%20]. *)
Example setSearchUrlParameters_refused :
  let s : State (list SearchResult) :=
    page (js "http://user:pw@example.com/book/index.html") None [] in
  renderURL (edit_search_url (parseURL reference_anchor (location_href s))
               (js "rust") PUSH)
  = Ok (js "http://example.com/book/index.html?search=rust") /\
  setSearchUrlParameters reference_anchor reference_history (js "rust") PUSH s
  = (Throw SecurityError, s).
Proof. split; reflexivity. Qed.

Example setSearchUrlParameters_space :
  let s : State (list SearchResult) :=
    page (js "http://example.com/book/index.html") None [] in
  let r := setSearchUrlParameters reference_anchor reference_history
             (js "rust lang") PUSH s in
  history_calls (snd r) =
  [(PushState, js "http://example.com/book/index.html?search=rust lang")] /\
  location_href (snd r) =
  js "http://example.com/book/index.html?search=rust%20lang".
Proof. split; reflexivity. Qed.

(** ** Reading the search term from the URL *)

Lemma decodeURIComponent_raises_URIError (x : jsstring) (e : exn) :
  decodeURIComponent x = Throw e -> e = URIError.
Proof.
  unfold decodeURIComponent.
  destruct (Decode.unescape x) as [l|]; [destruct (Decode.utf8 l)|];
    congruence.
Qed.

Section FromUrl.

Variable Index : Type.
Variable index_search : Index -> jsstring -> SearchOptions -> list SearchResult.
Variable anchor : jsstring -> Anchor.t.
Variable history_url : jsstring -> jsstring -> option jsstring.
Variable stemmer : jsstring -> jsstring.
Variable path_to_root : jsstring.

Local Abbreviation key_up :=
  (searchbarKeyUpHandler index_search anchor history_url stemmer path_to_root).
Local Abbreviation from_url :=
  (doSearchOrMarkFromUrl index_search anchor history_url stemmer path_to_root).

(** None of the handlers reached from [doSearchOrMarkFromUrl] after the
    assignment to [searchbar.value] writes the search box again. *)
Lemma results_loop_keeps_value opts results terms n :
  forall i (s : State Index),
    searchbar_value
      (snd (results_loop stemmer path_to_root opts results terms n i s)) =
    searchbar_value s.
Proof.
  induction n as [|n IH]; intros i s; simpl; [reflexivity|].
  destruct (at_index results i) as [r|e]; simpl; [|reflexivity].
  destruct (formatSearchResult stemmer path_to_root opts r terms); simpl;
    [|reflexivity].
  rewrite IH. reflexivity.
Qed.

Lemma doSearch_keeps_value (t : jsstring) (s : State Index) :
  searchbar_value (snd (doSearch index_search stemmer path_to_root t s)) =
  searchbar_value s.
Proof.
  unfold doSearch.
  destruct (str_eqb (current_searchterm s) t); simpl; [reflexivity|].
  destruct (searchindex s) as [idx|]; simpl; [|reflexivity].
  match goal with |- context [results_loop _ _ ?o ?r ?ts ?n ?i ?s1] =>
    pose proof (results_loop_keeps_value o r ts n i s1) as F;
    destruct (results_loop stemmer path_to_root o r ts n i s1) as [[u|e] s2]
  end; simpl in *; exact F.
Qed.

Lemma setSearchUrlParameters_keeps_value (t a : jsstring) (s : State Index) :
  searchbar_value (snd (setSearchUrlParameters anchor history_url t a s)) =
  searchbar_value s.
Proof.
  unfold setSearchUrlParameters.
  destruct (Obj.hasOwnProperty _ _); simpl; [|reflexivity].
  destruct (commit_of a _); simpl; [|reflexivity].
  destruct (renderURL _); [|reflexivity].
  unfold history_commit. destruct (history_url _ _); reflexivity.
Qed.

Lemma searchbarKeyUpHandler_keeps_value (s : State Index) :
  searchbar_value (snd (key_up s)) = searchbar_value s.
Proof.
  unfold searchbarKeyUpHandler.
  destruct (negb (str_eqb (trim (searchbar_value s)) [])).
  - pose proof (doSearch_keeps_value (trim (searchbar_value s))
                  (set_searchbar_active true s)) as D.
    destruct (doSearch _ _ _ _ _) as [[u|e] s1]; simpl in *; [|exact D].
    pose proof (setSearchUrlParameters_keeps_value (trim (searchbar_value s))
                  PUSH_IF_NEW_SEARCH_ELSE_REPLACE s1) as U.
    destruct (setSearchUrlParameters _ _ _ _ _) as [[u'|e] s2]; simpl in *;
      congruence.
  - match goal with |- context [setSearchUrlParameters _ _ ?t ?a ?s1] =>
      pose proof (setSearchUrlParameters_keeps_value t a s1) as U;
      destruct (setSearchUrlParameters anchor history_url t a s1) as [[u'|e] s2]
    end; simpl in *; exact U.
Qed.

Lemma mark_from_url_keeps_value (url : Url.t) (s : State Index) :
  searchbar_value (snd (mark_from_url url s)) = searchbar_value s.
Proof.
  unfold mark_from_url.
  destruct (Obj.hasOwnProperty _ _) as [[|]|]; simpl; try reflexivity.
  destruct (Obj.read _ _); reflexivity.
Qed.

(** C5, as amended.  When the live URL has a [search] parameter that is not
    the empty string, its value (with every [+] written [%20]) goes through
    [decodeURIComponent]: if that succeeds the search box holds the decoded
    value when the handler is done; if the value is malformed the URIError
    leaves [doSearchOrMarkFromUrl], with the search bar revealed and nothing
    else changed: the search box keeps its old content and no query runs. *)
Theorem doSearchOrMarkFromUrl_decoding (s : State Index) :
  let url := parseURL anchor (location_href s) in
  let raw := Obj.read (Url.params url) URL_SEARCH_PARAM in
  Obj.hasOwnProperty (Url.params url) URL_SEARCH_PARAM = Ok true ->
  differs_from_empty raw = true ->
  match decodeURIComponent
          (replace_all (ch "+") (js "%20") (Obj.to_string raw)) with
  | Ok v => searchbar_value (snd (from_url s)) = v
  | Throw e =>
      e = URIError /\
      from_url s = (Throw URIError, set_searchbar_outer_display [] s)
  end.
Proof.
  intros url raw Hown Hne.
  unfold doSearchOrMarkFromUrl. fold url. rewrite Hown. fold raw.
  rewrite Hne. simpl andb. cbv iota.
  destruct (decodeURIComponent _) as [v|e] eqn:D.
  - match goal with |- context [searchbarKeyUpHandler _ _ _ _ _ ?s1] =>
      pose proof (searchbarKeyUpHandler_keeps_value s1) as K;
      destruct (searchbarKeyUpHandler index_search anchor history_url stemmer
                  path_to_root s1) as [[u|e] s2]
    end; simpl in K.
    + rewrite mark_from_url_keeps_value. exact K.
    + exact K.
  - apply decodeURIComponent_raises_URIError in D. subst e. auto.
Qed.

End FromUrl.

(** C5, counterexample.  A live URL whose [search] parameter is [100%] (what
    the page itself writes into the URL when that text is typed into the
    search box): the handler ends with URIError and the search box does not
    hold the raw value. *)
Lemma doSearchOrMarkFromUrl_malformed_raises :
  let s := page (js "http://example.com/book/?search=100%")
             (Some sample_results) [] in
  let r := doSearchOrMarkFromUrl canned_search reference_anchor
             reference_history toy_stemmer (js "../") s in
  fst r = Throw URIError /\
  searchbar_value (snd r) <> js "100%" /\
  lookups (snd r) = [].
Proof.
  vm_compute. repeat split; discriminate.
Qed.

(** A well-formed value: [safe+rust] fills the search box with [safe rust]. *)
Lemma doSearchOrMarkFromUrl_decoding_witness :
  let s := page (js "http://example.com/book/?search=safe+rust")
             (Some sample_results) [] in
  searchbar_value
    (snd (doSearchOrMarkFromUrl canned_search reference_anchor
            reference_history toy_stemmer (js "../") s)) = js "safe rust".
Proof.
  intros s.
  exact (@doSearchOrMarkFromUrl_decoding _ canned_search reference_anchor
           reference_history
           toy_stemmer (js "../") s eq_refl eq_refl).
Defined.

(** ** The keyboard *)

Section Keyboard.

Variable Index : Type.
Variable anchor : jsstring -> Anchor.t.
Variable history_url : jsstring -> jsstring -> option jsstring.

Local Abbreviation on_key := (@globalKeyHandler Index anchor history_url).
Local Abbreviation keys_from := (@run_keys Index anchor history_url).

Lemma setSearchUrlParameters_keeps_page (t a : jsstring) (s : State Index) :
  let s' := snd (setSearchUrlParameters anchor history_url t a s) in
  searchresults s' = searchresults s /\ has_focus s' = has_focus s.
Proof.
  unfold setSearchUrlParameters.
  destruct (Obj.hasOwnProperty _ _); simpl; [|auto].
  destruct (commit_of a _); simpl; [|auto].
  destruct (renderURL _); simpl; [|auto].
  unfold history_commit. destruct (history_url _ _); simpl; auto.
Qed.

(** No branch of the key handler writes the class list of a result. *)
Lemma globalKeyHandler_keeps_results (e : KeyEvent) (s : State Index) :
  searchresults (snd (on_key e s)) = searchresults s.
Proof.
  unfold globalKeyHandler.
  destruct (negb (no_modifier e)); [reflexivity|].
  destruct (N.eqb (keyCode e) ESCAPE_KEYCODE).
  { match goal with |- context [setSearchUrlParameters _ _ ?t ?a ?s1] =>
      destruct (setSearchUrlParameters_keeps_page t a s1) as [K _];
      destruct (setSearchUrlParameters anchor history_url t a s1) as [[u|ex] s2]
    end; simpl in *; [|exact K].
    destruct (hasFocus s2); simpl; exact K. }
  destruct (negb (hasFocus s) && N.eqb (keyCode e) SEARCH_HOTKEY_KEYCODE);
    [reflexivity|].
  destruct (hasFocus s && N.eqb (keyCode e) DOWN_KEYCODE); [reflexivity|].
  destruct (negb (hasFocus s) && _); reflexivity.
Qed.

Lemma run_keys_keeps_results (keys : list KeyEvent) :
  forall s : State Index, searchresults (keys_from keys s) = searchresults s.
Proof.
  unfold run_keys.
  induction keys as [|e keys IH]; intros s; simpl; [reflexivity|].
  rewrite IH. unfold dispatch. rewrite globalKeyHandler_keeps_results.
  reflexivity.
Qed.

(** Hence no sequence of keys ever reaches a state [ResultFocused i] from a
    page on which no result is focused. *)
Lemma run_keys_never_focuses_result (keys : list KeyEvent) (s : State Index) :
  focused_index (searchresults s) 0 = None ->
  forall i, focus_state (keys_from keys s) <> ResultFocused i.
Proof.
  intros H i. unfold focus_state.
  rewrite run_keys_keeps_results, H.
  destruct (has_focus _); discriminate.
Qed.

(** Arrow-down while the search bar has the focus: the bar loses the focus
    and the handler ends with TypeError at [searchresults.children('li')]. *)
Lemma globalKeyHandler_down_in_searchbar (e : KeyEvent) (s : State Index) :
  no_modifier e = true ->
  keyCode e = DOWN_KEYCODE ->
  has_focus s = true ->
  on_key e s = (Throw TypeError, unfocusSearchbar (preventDefault s)).
Proof.
  intros Hm Hk Hf. unfold globalKeyHandler, hasFocus.
  rewrite Hm, Hk, Hf. reflexivity.
Qed.

(** Arrow keys and Enter while the search bar does not have the focus: the
    handler ends with TypeError at [search.searchresults.find(...)] and the
    page is as before. *)
Lemma globalKeyHandler_arrows_outside_searchbar (e : KeyEvent)
    (s : State Index) :
  no_modifier e = true ->
  keyCode e = DOWN_KEYCODE \/ keyCode e = UP_KEYCODE
  \/ keyCode e = SELECT_KEYCODE ->
  has_focus s = false ->
  on_key e s = (Throw TypeError, s).
Proof.
  intros Hm Hk Hf. unfold globalKeyHandler, hasFocus.
  rewrite Hm, Hf. destruct Hk as [Hk|[Hk|Hk]]; rewrite Hk; reflexivity.
Qed.

End Keyboard.

(** C6, the code at the claim's inputs.  From an unfocused page with two
    results the hotkey focuses the search bar; arrow-down then ends with
    TypeError after the bar has lost the focus, so the page is unfocused and
    no result is focused; the keys hotkey, down, down, up end unfocused, not
    on result 0; and with no result at all arrow-down from the search bar is
    not a no-op either: the bar loses the focus.  None of these keys leads
    to a history call, so the browser's answer to one plays no part. *)
Theorem keyboard_down_never_focuses_result
    (history_url : jsstring -> jsstring -> option jsstring) :
  let s := page (js "http://example.com/book/") (Some sample_results)
             two_results in
  let s0 := page (js "http://example.com/book/") (Some sample_results) [] in
  let hot := key SEARCH_HOTKEY_KEYCODE in
  let down := key DOWN_KEYCODE in
  let up := key UP_KEYCODE in
  focus_state s = Unfocused /\
  focus_state (run_keys reference_anchor history_url [hot] s)
  = SearchbarFocused /\
  fst (globalKeyHandler reference_anchor history_url down
         (run_keys reference_anchor history_url [hot] s)) = Throw TypeError /\
  focus_state (run_keys reference_anchor history_url [hot; down] s)
  = Unfocused /\
  focus_state (run_keys reference_anchor history_url [hot; down; down; up] s)
  = Unfocused /\
  focus_state (run_keys reference_anchor history_url [hot] s0)
  = SearchbarFocused /\
  focus_state (run_keys reference_anchor history_url [hot; down] s0)
  = Unfocused.
Proof.
  vm_compute. repeat split.
Qed.

(** ** The URL codec *)

Lemma params_loop_cons (seg : jsstring) (rest : list jsstring) (ret : Obj.obj) :
  params_loop (seg :: rest) ret =
  match seg with
  | [] => params_loop rest ret
  | _ :: _ => params_loop rest (Obj.set ret (seg_key seg) (seg_value seg))
  end.
Proof. destruct seg; reflexivity. Qed.

(** Empty segments are skipped. *)
Lemma params_loop_skips_empty (segs : list jsstring) :
  forall ret,
    params_loop segs ret =
    params_loop (filter (fun seg => negb (str_eqb seg [])) segs) ret.
Proof.
  induction segs as [|seg rest IH]; intros ret; [reflexivity|].
  destruct seg as [|c seg]; simpl; apply IH.
Qed.

(** The keys of the result: those already there, and the key of every
    segment that is not empty, [__proto__] excepted. *)
Lemma params_loop_has_own (segs : list jsstring) :
  forall ret k,
    Obj.has_own (params_loop segs ret) k = true <->
    Obj.has_own ret k = true \/
    (k <> js "__proto__" /\
     exists seg, In seg segs /\ seg <> [] /\ seg_key seg = k).
Proof.
  induction segs as [|seg rest IH]; intros ret k.
  - simpl. split; [auto | intros [H|(_ & x & [] & _)]; exact H].
  - rewrite params_loop_cons. destruct seg as [|c seg'].
    + rewrite IH. split.
      * intros [H|(Hp & x & Hin & Hne & Hk)]; [auto|].
        right. split; [exact Hp|]. exists x. simpl. auto.
      * intros [H|(Hp & x & [Hx|Hin] & Hne & Hk)]; [auto | | ].
        -- subst x. contradiction.
        -- right. split; [exact Hp|]. exists x. auto.
    + set (seg := c :: seg') in *.
      assert (Hseg : seg <> []) by discriminate.
      rewrite IH.
      destruct (str_eqb (seg_key seg) (js "__proto__")) eqn:P.
      * apply str_eqb_eq in P.
        replace (Obj.set ret (seg_key seg) (seg_value seg)) with ret
          by (rewrite P; reflexivity).
        split.
        -- intros [H|(Hp & x & Hin & Hne & Hk)]; [auto|].
           right. split; [exact Hp|]. exists x. simpl. auto.
        -- intros [H|(Hp & x & [Hx|Hin] & Hne & Hk)]; [auto | | ].
           ++ subst x. congruence.
           ++ right. split; [exact Hp|]. exists x. auto.
      * apply str_eqb_neq in P.
        rewrite (ObjFacts.has_own_set ret (seg_value seg) k P).
        rewrite orb_true_iff, str_eqb_eq.
        split.
        -- intros [[H|H]|(Hp & x & Hin & Hne & Hk)].
           ++ right. split; [congruence|]. exists seg. simpl. auto.
           ++ auto.
           ++ right. split; [exact Hp|]. exists x. simpl. auto.
        -- intros [H|(Hp & x & [Hx|Hin] & Hne & Hk)].
           ++ auto.
           ++ subst x. auto.
           ++ right. split; [exact Hp|]. exists x. auto.
Qed.

(** The value of a key: that of the last segment carrying it. *)
Lemma params_loop_last_wins (after : list jsstring) (seg : jsstring) :
  seg <> [] ->
  seg_key seg <> js "__proto__" ->
  (forall s, In s after -> s <> [] -> seg_key s <> seg_key seg) ->
  forall before ret,
    Obj.get (params_loop (before ++ seg :: after) ret) (seg_key seg) =
    Some (seg_value seg).
Proof.
  intros Hne Hp Hafter.
  assert (Hkeep : forall ret,
             Obj.get ret (seg_key seg) = Some (seg_value seg) ->
             Obj.get (params_loop after ret) (seg_key seg) =
             Some (seg_value seg)).
  { induction after as [|a after IH]; intros ret Hret; [exact Hret|].
    rewrite params_loop_cons. destruct a as [|c a'].
    - apply IH; [intros x Hx; apply Hafter; right; exact Hx | exact Hret].
    - set (a := c :: a') in *.
      apply IH; [intros x Hx; apply Hafter; right; exact Hx|].
      assert (Ha : seg_key a <> seg_key seg)
        by (apply Hafter; [left; reflexivity | discriminate]).
      destruct (str_eqb (seg_key a) (js "__proto__")) eqn:P.
      + apply str_eqb_eq in P.
        replace (Obj.set ret (seg_key a) (seg_value a)) with ret
          by (rewrite P; reflexivity).
        exact Hret.
      + apply str_eqb_neq in P.
        rewrite (ObjFacts.get_set ret (seg_value a) (seg_key seg) P).
        apply str_eqb_neq in Ha. rewrite Ha. exact Hret. }
  induction before as [|b before IH]; intros ret.
  - simpl app. rewrite params_loop_cons.
    destruct seg as [|c seg']; [contradiction|].
    apply Hkeep.
    rewrite (ObjFacts.get_set ret _ _ Hp), str_eqb_refl. reflexivity.
  - simpl app. rewrite params_loop_cons. destruct b; apply IH.
Qed.

(** C7, as amended.  [parseURL] is a total function of its argument (none of
    its steps can raise), and its [params] are read off the segments of the
    query between the [&] separators as follows: empty segments contribute
    nothing; every other segment, well formed or not, contributes an entry
    under the text before its first [=] (only the key [__proto__] leaves no
    entry); and the entry of a key holds what the last segment with that key
    has between its first and second [=], or [undefined] when that segment
    has no [=]. *)
Theorem parseURL_params_segments (anchor : jsstring -> Anchor.t)
    (url : jsstring) :
  let segs := split1 (ch "&") (strip_question (Anchor.search (anchor url))) in
  let params := Url.params (parseURL anchor url) in
  params = params_loop (filter (fun seg => negb (str_eqb seg [])) segs) [] /\
  (forall k,
     Obj.has_own params k = true <->
     k <> js "__proto__" /\
     exists seg, In seg segs /\ seg <> [] /\ seg_key seg = k) /\
  (forall before seg after,
     segs = before ++ seg :: after ->
     seg <> [] ->
     seg_key seg <> js "__proto__" ->
     (forall s, In s after -> s <> [] -> seg_key s <> seg_key seg) ->
     Obj.get params (seg_key seg) = Some (seg_value seg)).
Proof.
  intros segs params.
  assert (E : params = params_loop segs []) by reflexivity.
  split; [|split].
  - rewrite E. apply params_loop_skips_empty.
  - intros k. rewrite E, params_loop_has_own.
    split; [intros [H|H]; [discriminate H | exact H] | auto].
  - intros before seg after Hs Hne Hp Hafter.
    rewrite E, Hs. apply params_loop_last_wins; assumption.
Qed.

(** C7, counterexample.  The segment [a] of the query [?a&b=1] is not of the
    form key=value, and it is not dropped: [params] has the key [a], with the
    value [undefined] (the last part is the loop of lines 608-618 on the
    query alone). *)
Lemma parseURL_keeps_malformed_segment :
  let params :=
    Url.params (parseURL reference_anchor (js "http://example.com/book/?a&b=1"))
  in
  Obj.has_own params (js "a") = true /\
  params = [(js "a", Obj.Undefined); (js "b", Obj.Str (js "1"))] /\
  parse_params (js "?a&b=1") = params.
Proof. repeat split; reflexivity. Qed.

(** The query [?a=1&&b&a=2=3]: the later [a] wins, [b] has no value. *)
Lemma parseURL_params_segments_witness :
  let params :=
    Url.params
      (parseURL reference_anchor (js "http://example.com/book/?a=1&&b&a=2=3"))
  in
  Obj.get params (js "a") = Some (Obj.Str (js "2")) /\
  Obj.get params (js "b") = Some Obj.Undefined.
Proof.
  intros params.
  destruct (parseURL_params_segments reference_anchor
              (js "http://example.com/book/?a=1&&b&a=2=3")) as (_ & _ & H).
  split.
  - apply (H [js "a=1"; []; js "b"] (js "a=2=3") []);
      [reflexivity | discriminate | discriminate | intros s []].
  - apply (H [js "a=1"; []] (js "b") [js "a=2=3"]);
      [reflexivity | discriminate | discriminate |].
    intros s [<-|[]] _. discriminate.
Defined.

(** C2, the code at a failing input.  The query [?a] parses to the key [a]
    with the value [undefined]; [renderURL] writes that value as the text
    [undefined]; parsing the rendered URL gives the key [a] the string
    [undefined], so the two parses differ in [params]. *)
Theorem parse_render_parse_valueless_parameter :
  let u := js "http://example.com/book/?a" in
  let state := parseURL reference_anchor u in
  Url.params state = [(js "a", Obj.Undefined)] /\
  renderURL state = Ok (js "http://example.com/book/?a=undefined") /\
  Url.params
    (parseURL reference_anchor (js "http://example.com/book/?a=undefined")) =
  [(js "a", Obj.Str (js "undefined"))] /\
  forall u', renderURL state = Ok u' ->
    Url.params (parseURL reference_anchor u') <> Url.params state.
Proof.
  intros u state.
  assert (R : renderURL state = Ok (js "http://example.com/book/?a=undefined"))
    by (vm_compute; reflexivity).
  split; [vm_compute; reflexivity|].
  split; [exact R|].
  split; [vm_compute; reflexivity|].
  intros u' H. rewrite R in H. injection H as <-.
  vm_compute. discriminate.
Qed.

(** A parameter named [hasOwnProperty] makes [renderURL] raise. *)
Example renderURL_shadowed :
  renderURL (parseURL reference_anchor
               (js "http://example.com/book/?hasOwnProperty=1")) =
  Throw TypeError.
Proof. reflexivity. Qed.

(** ** The teaser generator: windows *)

Lemma skipn_nth_error {A} (l : list A) (i : nat) (x : A) :
  nth_error l i = Some x -> skipn i l = x :: skipn (S i) l.
Proof.
  revert i; induction l as [|a l IH]; intros [|i] H; simpl in *;
    try discriminate.
  - injection H as ->. reflexivity.
  - apply IH. exact H.
Qed.

Lemma at_index_lt {A} (l : list A) (i : nat) :
  i < length l -> exists x, at_index l i = Ok x /\ nth_error l i = Some x.
Proof.
  intros H. unfold at_index.
  destruct (nth_error l i) as [x|] eqn:E; [eauto|].
  apply nth_error_None in E. lia.
Qed.

Lemma window_sum_head (w : list entry) (i n : nat) (x : entry) :
  nth_error w i = Some x ->
  window_sum w i (S n) = (e_value x + window_sum w (S i) n)%Z.
Proof.
  intros H. unfold window_sum. rewrite (skipn_nth_error _ _ H). reflexivity.
Qed.

Lemma fold_sum_app (a b : list Z) :
  fold_right Z.add 0%Z (a ++ b) =
  (fold_right Z.add 0%Z a + fold_right Z.add 0%Z b)%Z.
Proof. induction a as [|x a IH]; simpl; [reflexivity | rewrite IH; lia]. Qed.

Lemma firstn_snoc {A} (l : list A) (n : nat) (x : A) :
  nth_error l n = Some x -> firstn (S n) l = firstn n l ++ [x].
Proof.
  revert n; induction l as [|a l IH]; intros [|n] H; simpl in *;
    try discriminate.
  - injection H as ->. reflexivity.
  - f_equal. apply IH. exact H.
Qed.

Lemma nth_error_skipn_add {A} (l : list A) (i n : nat) :
  nth_error (skipn i l) n = nth_error l (i + n).
Proof.
  revert l; induction i as [|i IH]; intros l; [reflexivity|].
  destruct l as [|a l]; simpl; [destruct n; reflexivity | apply IH].
Qed.

Lemma window_sum_last (w : list entry) (i n : nat) (x : entry) :
  nth_error w (i + n) = Some x ->
  window_sum w i (S n) = (window_sum w i n + e_value x)%Z.
Proof.
  intros H. unfold window_sum.
  rewrite (@firstn_snoc _ (skipn i w) n x)
    by (rewrite nth_error_skipn_add; exact H).
  rewrite map_app, fold_sum_app. simpl. lia.
Qed.

(** The initial loop adds up the first window. *)
Lemma first_window_sum (w : list entry) (n : nat) :
  forall i acc,
    i + n <= length w ->
    first_window w n i acc = Ok (acc + window_sum w i n)%Z.
Proof.
  induction n as [|n IH]; intros i acc H; simpl.
  - unfold window_sum. simpl. f_equal. lia.
  - destruct (@at_index_lt _ w i ltac:(lia)) as (x & Hx & Hn).
    rewrite Hx. simpl. rewrite IH by lia.
    rewrite (@window_sum_head w i n x Hn). f_equal. lia.
Qed.

(** The running sum visits every later window in order. *)
Lemma slide_sums (w : list entry) (size n : nat) :
  forall i cur ww,
    i + size + n <= length w ->
    cur = window_sum w i size ->
    slide w size n i cur ww =
    Ok (ww ++ map (fun j => window_sum w j size) (seq (S i) n)).
Proof.
  induction n as [|n IH]; intros i cur ww H Hc; simpl.
  - rewrite app_nil_r. reflexivity.
  - destruct (@at_index_lt _ w i ltac:(lia)) as (x & Hx & Hn).
    destruct (@at_index_lt _ w (i + size) ltac:(lia)) as (y & Hy & Hm).
    rewrite Hx, Hy. simpl.
    assert (E : (cur - e_value x + e_value y)%Z = window_sum w (S i) size).
    { pose proof (@window_sum_head w i size x Hn) as A.
      pose proof (@window_sum_last w i size y Hm) as B. lia. }
    rewrite E. rewrite IH by (try lia; reflexivity).
    rewrite <- app_assoc. reflexivity.
Qed.

Lemma window_weights_sums (w : list entry) (size : nat) :
  size <= length w ->
  window_weights w size =
  Ok (map (fun j => window_sum w j size) (seq 0 (length w - size + 1))).
Proof.
  intros H. unfold window_weights.
  rewrite first_window_sum by lia. simpl.
  rewrite slide_sums by (try lia; reflexivity).
  f_equal. replace (length w - size + 1) with (S (length w - size)) by lia.
  reflexivity.
Qed.

(** The backward scan: either no window beats the running maximum and the
    index is unchanged, or the result is the window that beats it and every
    other window, strictly so those to its right. *)
Lemma backwards_spec (ww : list Z) (n : nat) :
  forall max_sum idx,
    n <= length ww ->
    let r := backwards ww n max_sum idx in
    (r = idx /\ forall j, j < n -> (nth j ww 0 <= max_sum)%Z) \/
    (r < n /\ (max_sum < nth r ww 0)%Z /\
     (forall j, j < n -> (nth j ww 0 <= nth r ww 0)%Z) /\
     (forall j, r < j < n -> (nth j ww 0 < nth r ww 0)%Z)).
Proof.
  induction n as [|i IH]; intros max_sum idx Hn; simpl.
  - left. split; [reflexivity | intros j Hj; lia].
  - destruct (nth_error ww i) as [w|] eqn:E;
      [|apply nth_error_None in E; lia].
    assert (Hw : nth i ww 0%Z = w) by (apply nth_error_nth; exact E).
    assert (Hcase : forall j, j < S i -> j < i \/ j = i) by (intros; lia).
    destruct (max_sum <? w)%Z eqn:C.
    + apply Z.ltb_lt in C. right.
      destruct (IH w i ltac:(lia)) as [[-> H]|(H1 & H2 & H3 & H4)].
      * repeat split; [lia | lia | | intros j Hj; lia].
        intros j Hj. destruct (Hcase j Hj) as [ | -> ]; [rewrite Hw; auto | lia].
      * repeat split; [lia | lia | | ].
        -- intros j Hj. destruct (Hcase j Hj) as [ | -> ]; [auto | lia].
        -- intros j Hj. assert (j < i \/ j = i) as [ | -> ] by lia;
             [apply H4; lia | lia].
    + apply Z.ltb_ge in C.
      destruct (IH max_sum idx ltac:(lia)) as [[-> H]|(H1 & H2 & H3 & H4)].
      * left. split; [reflexivity|].
        intros j Hj. destruct (Hcase j Hj) as [ | -> ]; [auto | lia].
      * right. repeat split; [lia | lia | | ].
        -- intros j Hj. destruct (Hcase j Hj) as [ | -> ]; [auto | lia].
        -- intros j Hj. assert (j < i \/ j = i) as [ | -> ] by lia;
             [apply H4; lia | lia].
Qed.

(** ** The teaser generator: weights *)

Section Weights.

Variable stemmer : jsstring -> jsstring.

Local Abbreviation hit := (matches stemmer).

Lemma terms_loop_result (word : jsstring) (stemmed : list jsstring) :
  forall v f,
    terms_loop stemmer word stemmed v f =
    if hit word stemmed
    then (searchterm_weight, true)
    else (v, f).
Proof.
  unfold matches.
  assert (Hhit : forall ts,
             terms_loop stemmer word ts searchterm_weight true =
             (searchterm_weight, true)).
  { induction ts as [|t ts IH]; simpl; [reflexivity|].
    destruct (startsWith (stemmer word) t); exact IH. }
  induction stemmed as [|t ts IH]; intros v f; simpl; [reflexivity|].
  destruct (startsWith (stemmer word) t); simpl; [apply Hhit | apply IH].
Qed.

Lemma words_loop_weights (stemmed words : list jsstring) :
  forall st,
    weights_ok st ->
    (value st = 2 \/ value st = 8)%Z ->
    weights_ok (words_loop stemmer stemmed words st) /\
    (value (words_loop stemmer stemmed words st) = 2 \/
     value (words_loop stemmer stemmed words st) = 8)%Z.
Proof.
  induction words as [|word rest IH]; intros st Hok Hv; simpl; [auto|].
  apply IH.
  - destruct (0 <? length word); simpl; [|exact Hok].
    rewrite terms_loop_result.
    destruct Hok as [Hall Hiff].
    destruct (hit word stemmed); split; simpl.
    + apply Forall_app. split; [exact Hall|].
      constructor; [|constructor]. right; right; reflexivity.
    + split; [intros _|reflexivity].
      apply Exists_app. right. constructor. reflexivity.
    + apply Forall_app. split; [exact Hall|].
      constructor; [|constructor]. simpl.
      unfold word_weight. lia.
    + rewrite Hiff. rewrite Exists_app. split; [auto|].
      intros [H|H]; [exact H|].
      inversion H as [? ? H0|? ? H0]; subst; simpl in *.
      * unfold searchterm_weight in H0. lia.
      * inversion H0.
  - destruct (0 <? length word); simpl; [|exact Hv].
    destruct (terms_loop stemmer word stemmed (value st) (searchterm_found st)).
    simpl. auto.
Qed.

Lemma sentences_loop_weights (stemmed sentences : list jsstring) :
  forall st,
    weights_ok st ->
    weights_ok (sentences_loop stemmer stemmed sentences st).
Proof.
  induction sentences as [|sentence rest IH]; intros st Hok; simpl;
    [exact Hok|].
  apply IH.
  match goal with |- context [words_loop _ _ ?ws ?s0] =>
    destruct (@words_loop_weights stemmed ws s0) as [H _]
  end; [exact Hok | simpl; auto | exact H].
Qed.

Lemma weigh_weights (body : jsstring) (searchterms : list jsstring) :
  weights_ok (weigh stemmer body searchterms).
Proof.
  apply sentences_loop_weights. split; simpl.
  - constructor.
  - split; [discriminate | intros H; inversion H].
Qed.

End Weights.

Lemma In_firstn_skipn {A} (l : list A) (i n : nat) (x : A) :
  In x (firstn n (skipn i l)) -> In x l.
Proof.
  intros H.
  rewrite <- (firstn_skipn i l). apply in_or_app. right.
  rewrite <- (firstn_skipn n (skipn i l)). apply in_or_app. left. exact H.
Qed.

(** A window of at least one word of positive weights has a positive sum. *)
Lemma window_sum_positive (w : list entry) (i size : nat) :
  Forall (fun e => word_weight (e_value e)) w ->
  0 < size -> i + size <= length w ->
  (0 < window_sum w i size)%Z.
Proof.
  intros Hall Hs Hi.
  destruct size as [|n]; [lia|].
  destruct (@at_index_lt _ w i ltac:(lia)) as (x & _ & Hn).
  rewrite (@window_sum_head w i n x Hn).
  assert (Hx : word_weight (e_value x)).
  { rewrite Forall_forall in Hall. apply Hall.
    eapply nth_error_In. exact Hn. }
  assert (Hrest : (0 <= window_sum w (S i) n)%Z).
  { unfold window_sum.
    assert (G : forall l, Forall (fun e => word_weight (e_value e)) l ->
                (0 <= fold_right Z.add 0 (map e_value l))%Z).
    { induction l as [|a l IH]; intros F; simpl; [lia|].
      inversion F as [|? ? Fa Fl]; subst.
      specialize (IH Fl). unfold word_weight in Fa. lia. }
    apply G. rewrite Forall_forall in *.
    intros e He. apply Hall. eapply In_firstn_skipn. exact He. }
  unfold word_weight in Hx. lia.
Qed.

Lemma nth_error_map_seq {A} (f : nat -> A) (n : nat) :
  forall a j, j < n -> nth_error (map f (seq a n)) j = Some (f (a + j)).
Proof.
  induction n as [|n IH]; intros a j H; [lia|].
  destruct j as [|j]; simpl.
  - f_equal. f_equal. lia.
  - rewrite IH by lia. f_equal. f_equal. lia.
Qed.

(** The emitting loop reads inside [weighted] only and so completes. *)
Lemma emit_loop_total (body : jsstring) (w : list entry) (n : nat) :
  forall i index teaser_split,
    i + n <= length w ->
    exists r, emit_loop body w n i index teaser_split = Ok r.
Proof.
  induction n as [|n IH]; intros i index ts H; simpl; [eauto|].
  destruct (@at_index_lt _ w i ltac:(lia)) as (x & Hx & _).
  rewrite Hx. simpl. apply IH. lia.
Qed.

(** C1.  With a positive [teaser_word_count] and at least one word in the
    body, [makeTeaser] computes one weight per contiguous window of
    [window_size] words, each the sum of the weights of its words, and emits
    the window that starts at [select_window ...], without raising.  When a
    query term was matched (the flag [searchterm_found], which is set exactly
    when some word carries the weight 40), no window has a larger sum than
    the selected one and every window of the same sum starts at or before it;
    when no term was matched the selected window starts at word 0. *)
Theorem makeTeaser_selects_last_maximal_window
    (stemmer : jsstring -> jsstring) (searchoptions : SearchOptions)
    (body : jsstring) (searchterms : list jsstring) :
  0 < teaser_word_count searchoptions ->
  let st := weigh stemmer body searchterms in
  let words := weighted st in
  let size := Nat.min (length words) (teaser_word_count searchoptions) in
  words <> [] ->
  exists window_weight,
    window_weights words size = Ok window_weight /\
    (forall j, j < length window_weight <-> j + size <= length words) /\
    (forall j, j + size <= length words ->
               nth_error window_weight j = Some (window_sum words j size)) /\
    let chosen := select_window (searchterm_found st) window_weight in
    chosen + size <= length words /\
    (exists first teaser_split,
       at_index words chosen = Ok first /\
       emit_loop body words size chosen (e_index first) [] = Ok teaser_split /\
       makeTeaser stemmer searchoptions body searchterms =
       Ok (join [] teaser_split)) /\
    (searchterm_found st = true <->
     Exists (fun e => e_value e = searchterm_weight) words) /\
    (searchterm_found st = true ->
     forall j, j + size <= length words ->
       (window_sum words j size <= window_sum words chosen size)%Z /\
       (window_sum words j size = window_sum words chosen size ->
        j <= chosen)) /\
    (searchterm_found st = false -> chosen = 0).
Proof.
  intros Hcount st words size Hwords.
  destruct (weigh_weights stemmer body searchterms) as [Hall Hflag].
  fold st in Hall, Hflag. fold words in Hall, Hflag.
  assert (Hlen : 0 < length words) by (destruct words; simpl; [congruence|lia]).
  assert (Hsize : 0 < size /\ size <= length words) by (unfold size; lia).
  set (n := length words - size + 1).
  set (ww := map (fun j => window_sum words j size) (seq 0 n)).
  assert (Hww : window_weights words size = Ok ww)
    by (apply window_weights_sums; lia).
  assert (Hwwlen : length ww = n)
    by (unfold ww; rewrite length_map, length_seq; reflexivity).
  assert (Hnth : forall j, j + size <= length words ->
                   nth_error ww j = Some (window_sum words j size)).
  { intros j Hj. unfold ww. rewrite nth_error_map_seq by (unfold n; lia).
    reflexivity. }
  assert (Hnth0 : forall j, j < n -> nth j ww 0%Z = window_sum words j size).
  { intros j Hj. apply nth_error_nth. apply Hnth. unfold n in Hj. lia. }
  exists ww. split; [exact Hww|].
  split; [intros j; rewrite Hwwlen; unfold n; lia|].
  split; [exact Hnth|].
  intros chosen.
  assert (Hchosen :
            (searchterm_found st = true ->
             chosen < n /\
             (forall j, j < n -> (nth j ww 0 <= nth chosen ww 0)%Z) /\
             (forall j, chosen < j < n -> (nth j ww 0 < nth chosen ww 0)%Z)) /\
            (searchterm_found st = false -> chosen = 0)).
  { unfold chosen, select_window.
    destruct (searchterm_found st); split; try discriminate; try reflexivity.
    intros _. rewrite Hwwlen.
    destruct (@backwards_spec ww n 0%Z 0 ltac:(lia))
      as [[_ Hbad]|(H1 & _ & H3 & H4)].
    - exfalso. specialize (Hbad 0 ltac:(unfold n; lia)).
      rewrite Hnth0 in Hbad by (unfold n; lia).
      pose proof (@window_sum_positive words 0 size Hall) as P. lia.
    - auto. }
  destruct Hchosen as [Hfound Hnone].
  assert (Hin : chosen + size <= length words).
  { destruct (searchterm_found st) eqn:F.
    - destruct (Hfound eq_refl) as [H _]. unfold n in H. lia.
    - rewrite (Hnone eq_refl). lia. }
  split; [exact Hin|].
  split.
  { destruct (@at_index_lt _ words chosen ltac:(lia)) as (first & Hfirst & _).
    destruct (@emit_loop_total body words size chosen (e_index first) [] Hin)
      as (ts & Hts).
    exists first, ts. split; [exact Hfirst|]. split; [exact Hts|].
    unfold makeTeaser. fold st. fold words.
    destruct (length words =? 0) eqn:E; [apply Nat.eqb_eq in E; lia|].
    fold size. rewrite Hww. simpl. fold chosen. rewrite Hfirst. simpl.
    rewrite Hts. reflexivity. }
  split; [exact Hflag|].
  split; [|exact Hnone].
  intros F j Hj. destruct (Hfound F) as (H1 & H3 & H4).
  assert (Hjn : j < n) by (unfold n; lia).
  pose proof (H3 j Hjn) as Hle.
  rewrite !Hnth0 in Hle by assumption.
  split; [exact Hle|].
  intros Heq.
  destruct (Nat.le_gt_cases j chosen) as [|Hgt]; [assumption|].
  specialize (H4 j ltac:(lia)). rewrite !Hnth0 in H4 by assumption. lia.
Qed.

(** Seven words, windows of four with the sums 14, 14, 52, 52: the last of
    the two maximal windows is selected. *)
Lemma makeTeaser_selects_last_maximal_window_witness :
  let body := js "The quick brown fox. The dog sleeps." in
  let words := weighted (weigh toy_stemmer body [js "dog"]) in
  exists window_weight,
    window_weights words 4 = Ok window_weight /\
    select_window true window_weight = 3 /\
    forall j, j + 4 <= 7 ->
      (window_sum words j 4 <= window_sum words 3 4)%Z /\
      (window_sum words j 4 = window_sum words 3 4 -> j <= 3).
Proof.
  intros body words.
  destruct (@makeTeaser_selects_last_maximal_window toy_stemmer
              (demo_options 4) body [js "dog"])
    as (ww & Hww & _ & _ & _ & _ & _ & Hmax & _).
  - simpl. lia.
  - discriminate.
  - exists ww. split; [exact Hww|].
    assert (E : Ok ww = Ok [14; 14; 52; 52]%Z) by (rewrite <- Hww; reflexivity).
    injection E as ->.
    split; [reflexivity|].
    exact (Hmax eq_refl).
Defined.

(** ** The teaser generator: offsets *)

Lemma join_cons (sep w : jsstring) (l : list jsstring) :
  l <> [] -> join sep (w :: l) = w ++ sep ++ join sep l.
Proof. destruct l; [congruence | reflexivity]. Qed.

Lemma join_cons_head (sep : jsstring) (c : char) (l : list jsstring) :
  l <> [] -> join sep (cons_head c l) = c :: join sep l.
Proof.
  destruct l as [|w [|w' l]]; [congruence | reflexivity | reflexivity].
Qed.

Lemma cons_head_nonempty (c : char) (l : list jsstring) : cons_head c l <> [].
Proof. destruct l; discriminate. Qed.

Lemma split1_nonempty (sep : char) (s : jsstring) : split1 sep s <> [].
Proof.
  destruct s as [|c s]; simpl; [discriminate|].
  destruct (char_eqb c sep); [discriminate | apply cons_head_nonempty].
Qed.

(** Joining the pieces with the separator gives the string back. *)
Lemma join_split1 (sep : char) (s : jsstring) :
  join [sep] (split1 sep s) = s.
Proof.
  induction s as [|c s IH]; simpl; [reflexivity|].
  destruct (char_eqb c sep) eqn:E.
  - apply char_eqb_eq in E. subst c.
    rewrite join_cons by apply split1_nonempty. rewrite IH. reflexivity.
  - rewrite join_cons_head by apply split1_nonempty. rewrite IH. reflexivity.
Qed.

Lemma split2_nonempty (c1 c2 : char) (s : jsstring) : split2 c1 c2 s <> [].
Proof.
  destruct s as [|a [|b s]]; simpl; try discriminate.
  destruct (char_eqb a c1 && char_eqb b c2);
    [discriminate | apply cons_head_nonempty].
Qed.

Lemma split2_cons2 (c1 c2 a b : char) (t : jsstring) :
  split2 c1 c2 (a :: b :: t) =
  if char_eqb a c1 && char_eqb b c2 then [] :: split2 c1 c2 t
  else cons_head a (split2 c1 c2 (b :: t)).
Proof. reflexivity. Qed.

Lemma join_split2 (c1 c2 : char) (s : jsstring) :
  join [c1; c2] (split2 c1 c2 s) = s.
Proof.
  assert (H : forall n s, length s <= n -> join [c1; c2] (split2 c1 c2 s) = s).
  { induction n as [|n IH]; intros [|a [|b t]] Hl;
      try reflexivity; simpl in Hl; try lia.
    rewrite split2_cons2.
    destruct (char_eqb a c1 && char_eqb b c2) eqn:E.
    - apply andb_true_iff in E. destruct E as [Ea Eb].
      apply char_eqb_eq in Ea, Eb. subst a b.
      rewrite join_cons by apply split2_nonempty.
      rewrite IH by lia. reflexivity.
    - rewrite join_cons_head by apply split2_nonempty.
      rewrite IH by (simpl; lia). reflexivity. }
  apply (H (length s)). lia.
Qed.

Lemma substring_at_offset (s : jsstring) (off : nat) (w : jsstring) :
  at_offset s off w -> substring s off (off + length w) = w.
Proof.
  intros (pre & post & -> & <-). unfold substring.
  rewrite !length_app.
  replace (Nat.min (length pre) (length pre + (length w + length post)))
    with (length pre) by lia.
  replace (Nat.min (length pre + length w)
             (length pre + (length w + length post)))
    with (length pre + length w) by lia.
  replace (Nat.min (length pre) (length pre + length w))
    with (length pre) by lia.
  replace (Nat.max (length pre) (length pre + length w) - length pre)
    with (length w) by lia.
  rewrite skipn_app, skipn_all, Nat.sub_diag. simpl.
  rewrite firstn_app, firstn_all, Nat.sub_diag. simpl.
  apply app_nil_r.
Qed.

Section Offsets.

Variable stemmer : jsstring -> jsstring.
Variable stemmed : list jsstring.
Variable body : jsstring.

Lemma words_loop_offsets (words : list jsstring) :
  forall st pre post,
    body = pre ++ join (js " ") words ++ post ->
    index st = length pre ->
    exists new,
      weighted (words_loop stemmer stemmed words st) = weighted st ++ new /\
      Forall (aligned body) new /\
      index (words_loop stemmer stemmed words st) =
      index st + list_sum (map (fun w => length w + 1) words).
Proof.
  induction words as [|word rest IH]; intros st pre post Hbody Hidx.
  - exists []. simpl. rewrite app_nil_r. auto.
  - simpl words_loop.
    set (st1 := if 0 <? length word then _ else st).
    set (st2 := Scan (weighted st1) (index st1 + length word + 1) (value st1)
                  (searchterm_found st1)).
    (* the entry pushed for [word], if any *)
    assert (H1 : exists first,
               weighted st1 = weighted st ++ first /\ Forall (aligned body) first /\
               index st1 = index st).
    { unfold st1. destruct (0 <? length word) eqn:L.
      - destruct (terms_loop stemmer word stemmed (value st)
                    (searchterm_found st)) as [v f].
        exists [Entry word v (index st)]. simpl.
        split; [reflexivity|]. split; [|reflexivity].
        constructor; [|constructor]. split; simpl.
        + destruct rest as [|w' rest'].
          * exists pre, post. simpl in Hbody. auto.
          * exists pre, (js " " ++ join (js " ") (w' :: rest') ++ post).
            split; [|auto]. rewrite Hbody.
            rewrite join_cons by discriminate.
            rewrite <- !app_assoc. reflexivity.
        + apply Nat.ltb_lt in L. destruct word; simpl in L; [lia|discriminate].
      - exists []. rewrite app_nil_r. auto. }
    destruct H1 as (first & Hw1 & Hf1 & Hi1).
    destruct rest as [|w' rest'].
    + exists first. simpl. rewrite Hw1, Hi1. repeat split; auto. lia.
    + destruct (IH st2 (pre ++ word ++ js " ") post) as (new & Hw & Hf & Hi).
      * rewrite Hbody. rewrite join_cons by discriminate.
        rewrite <- !app_assoc. reflexivity.
      * simpl. rewrite Hi1, Hidx, !length_app. simpl. lia.
      * exists (first ++ new). rewrite Hw, Hi. simpl weighted. simpl index.
        rewrite Hw1, Hi1, app_assoc.
        repeat split; [apply Forall_app; auto|].
        simpl. lia.
Qed.

Lemma consumed_by_words (words : list jsstring) :
  words <> [] ->
  list_sum (map (fun w => length w + 1) words) =
  length (join (js " ") words) + 1.
Proof.
  induction words as [|w rest IH]; [congruence|]. intros _.
  destruct rest as [|w' rest']; [simpl; lia|].
  rewrite join_cons by discriminate.
  change (list_sum (map (fun w => length w + 1) (w :: w' :: rest')))
    with (length w + 1
          + list_sum (map (fun w => length w + 1) (w' :: rest'))).
  rewrite IH by discriminate.
  rewrite !length_app. simpl. lia.
Qed.

Lemma sentences_loop_offsets (sentences : list jsstring) :
  forall st pre post,
    body = pre ++ join (js ". ") sentences ++ post ->
    index st = length pre ->
    exists new,
      weighted (sentences_loop stemmer stemmed sentences st) =
      weighted st ++ new /\
      Forall (aligned body) new.
Proof.
  induction sentences as [|sentence rest IH]; intros st pre post Hbody Hidx.
  - exists []. simpl. rewrite app_nil_r. auto.
  - simpl sentences_loop.
    set (st0 := Scan (weighted st) (index st) 8%Z (searchterm_found st)).
    set (tail := match rest with
                 | [] => post
                 | _ => js ". " ++ join (js ". ") rest ++ post
                 end).
    assert (Hb : body = pre ++ join (js " ") (split1 (ch " ") sentence) ++ tail).
    { change (js " ") with [ch " "]. rewrite join_split1. rewrite Hbody.
      unfold tail. destruct rest as [|s' rest']; [reflexivity|].
      rewrite join_cons by discriminate. rewrite <- !app_assoc. reflexivity. }
    destruct (@words_loop_offsets (split1 (ch " ") sentence) st0 pre tail
                Hb Hidx) as (new1 & Hw1 & Hf1 & Hi1).
    rewrite consumed_by_words in Hi1 by apply split1_nonempty.
    change (js " ") with [ch " "] in Hi1. rewrite join_split1 in Hi1.
    set (st1 := words_loop stemmer stemmed (split1 (ch " ") sentence) st0) in *.
    destruct rest as [|s' rest'].
    + exists new1. simpl. auto.
    + destruct (IH (Scan (weighted st1) (index st1 + 1) (value st1)
                      (searchterm_found st1))
                  (pre ++ sentence ++ js ". ") post) as (new & Hw & Hf).
      * rewrite Hbody. rewrite join_cons by discriminate.
        rewrite <- !app_assoc. reflexivity.
      * simpl. rewrite Hi1. simpl index. rewrite Hidx, !length_app.
        simpl. lia.
      * exists (new1 ++ new). rewrite Hw. simpl weighted.
        rewrite Hw1. simpl weighted. rewrite app_assoc.
        split; [reflexivity | apply Forall_app; auto].
Qed.

(** A sentence whose tokens are all empty adds no word. *)
Lemma words_loop_empty_tokens (words : list jsstring) :
  Forall (fun w => w = []) words ->
  forall st, weighted (words_loop stemmer stemmed words st) = weighted st.
Proof.
  induction 1 as [|w rest Hw _ IH]; intros st; [reflexivity|].
  subst w. simpl. rewrite IH. reflexivity.
Qed.

End Offsets.

(** C8.  Every triple [[word, weight, index]] that [makeTeaser] records has a
    non-empty word and an index at which the body (the escaped body that
    [formatSearchResult] passes in, like any other) holds exactly that word:
    [body.substring(index, index + word.length)] is the word, across
    sentence boundaries too.  A sentence whose tokens are all empty adds no
    triple. *)
Theorem weighted_words_align (stemmer : jsstring -> jsstring)
    (body : jsstring) (searchterms : list jsstring) :
  (forall e,
     In e (weighted (weigh stemmer body searchterms)) ->
     substring body (e_index e) (e_index e + length (e_word e)) = e_word e /\
     e_word e <> []) /\
  (forall stemmed sentence st,
     Forall (fun w => w = []) (split1 (ch " ") sentence) ->
     weighted (words_loop stemmer stemmed (split1 (ch " ") sentence) st) =
     weighted st).
Proof.
  split.
  - intros e He. unfold weigh in He.
    destruct (@sentences_loop_offsets stemmer (map stemmer searchterms) body
                (split2 (ch ".") (ch " ") body) (Scan [] 0 0%Z false) [] [])
      as (new & Hw & Hall).
    + change (js ". ") with [ch "."; ch " "].
      rewrite join_split2, app_nil_r. reflexivity.
    + reflexivity.
    + rewrite Hw in He. simpl in He.
      rewrite Forall_forall in Hall. destruct (Hall e He) as [Ha Hn].
      split; [apply substring_at_offset; exact Ha | exact Hn].
  - intros stemmed sentence st H. apply words_loop_empty_tokens. exact H.
Qed.

(** The last word of an escaped body, and a trailing sentence made of one
    space. *)
Lemma weighted_words_align_witness :
  let body := escapeHTML (js "Tom & Jerry. A <b>cat</b>.  ") in
  let e := Entry (js "&lt;b&gt;cat&lt;/b&gt;") 2%Z 19 in
  substring body 19 (19 + 22) = js "&lt;b&gt;cat&lt;/b&gt;" /\
  weighted (words_loop toy_stemmer [js "cat"] (split1 (ch " ") (js " "))
              (Scan [e] 43 8%Z false)) = [e].
Proof.
  intros body e.
  destruct (weighted_words_align toy_stemmer body [js "jerry"]) as [H1 H2].
  split.
  - apply (H1 e). vm_compute. tauto.
  - apply H2. repeat constructor.
Defined.

(** ** The URL codec: rendering and parsing again *)

Lemma get_of_In (o : Obj.obj) (k : jsstring) (v : Obj.jsval) :
  NoDup (map fst o) -> In (k, v) o -> Obj.get o k = Some v.
Proof.
  induction o as [|[k0 v0] o IH]; simpl; intros Hnd Hin; [contradiction|].
  inversion Hnd as [|? ? Hnot Hnd']; subst.
  destruct Hin as [E|Hin].
  - injection E as -> ->. rewrite str_eqb_refl. reflexivity.
  - destruct (str_eqb k0 k) eqn:E.
    + apply str_eqb_eq in E. subst k0. exfalso. apply Hnot.
      apply (in_map fst) in Hin. exact Hin.
    + apply IH; assumption.
Qed.

Lemma get_None_not_In (o : Obj.obj) (k : jsstring) :
  Obj.get o k = None <-> ~ In k (map fst o).
Proof.
  induction o as [|[k0 v0] o IH]; simpl; [tauto|].
  destruct (str_eqb k0 k) eqn:E.
  - apply str_eqb_eq in E. split; [discriminate | intros H; exfalso; auto].
  - apply str_eqb_neq in E. rewrite IH. tauto.
Qed.

(** The text the parameter loop of [renderURL] appends. *)
Lemma render_loop_query (params : Obj.obj) :
  Obj.has_own params (js "hasOwnProperty") = false ->
  forall rest url joiner,
    (forall kv, In kv rest -> Obj.get params (fst kv) = Some (snd kv)) ->
    render_loop params (map fst rest) url joiner =
    Ok (url ++ match rest with
               | [] => []
               | _ :: _ => joiner ++ join (js "&") (map render_segment rest)
               end).
Proof.
  intros Hs. induction rest as [|[k v] rest IH]; intros url joiner Hget.
  - simpl. rewrite app_nil_r. reflexivity.
  - simpl map. simpl render_loop.
    unfold Obj.hasOwnProperty. rewrite Hs.
    assert (G : Obj.get params k = Some v) by (apply (Hget (k, v)); left; auto).
    unfold Obj.has_own, Obj.read. rewrite G. simpl rbind. cbv iota.
    rewrite IH by (intros kv H; apply Hget; right; exact H).
    f_equal. unfold render_segment at 2. simpl fst. simpl snd.
    destruct rest as [|kv' rest'].
    + simpl. rewrite app_nil_r, <- ?app_assoc. reflexivity.
    + rewrite (@join_cons (js "&") (k ++ js "=" ++ Obj.to_string v)
                 (map render_segment (kv' :: rest'))) by discriminate.
      rewrite <- ?app_assoc. reflexivity.
Qed.

(** The string [renderURL] returns. *)
Lemma renderURL_text (u : Url.t) :
  Obj.has_own (Url.params u) (js "hasOwnProperty") = false ->
  NoDup (map fst (Url.params u)) ->
  renderURL u =
  Ok ((Url.protocol u ++ js "://" ++ Url.host u)
      ++ match Url.port u with [] => [] | _ :: _ => js ":" ++ Url.port u end
      ++ Url.path u
      ++ render_query (Url.params u)
      ++ render_fragment (Url.hash u)).
Proof.
  intros Hs Hnd. unfold renderURL.
  rewrite (@render_loop_query (Url.params u) Hs (Url.params u))
    by (intros [k v] H; apply get_of_In; assumption).
  simpl rbind. f_equal.
  unfold render_query, render_fragment.
  generalize (join (js "&") (map render_segment (Url.params u))).
  intros q.
  destruct (Url.port u) as [|c port]; destruct (Url.hash u) as [|d hash];
    destruct (Url.params u) as [|kv params];
    simpl; rewrite <- ?app_assoc, ?app_nil_r; simpl;
    rewrite <- ?app_assoc; reflexivity.
Qed.

Lemma split1_no_sep (sep : char) (s : jsstring) :
  ~ In sep s -> split1 sep s = [s].
Proof.
  induction s as [|c s IH]; simpl; intros H; [reflexivity|].
  destruct (char_eqb c sep) eqn:E.
  - apply char_eqb_eq in E. exfalso. apply H. left. exact E.
  - rewrite IH by (intros X; apply H; right; exact X). reflexivity.
Qed.

Lemma split1_app_sep (sep : char) (w rest : jsstring) :
  ~ In sep w -> split1 sep (w ++ sep :: rest) = w :: split1 sep rest.
Proof.
  induction w as [|c w IH]; simpl; intros H.
  - unfold char_eqb. rewrite N.eqb_refl. reflexivity.
  - destruct (char_eqb c sep) eqn:E.
    + apply char_eqb_eq in E. exfalso. apply H. left. exact E.
    + rewrite IH by (intros X; apply H; right; exact X). reflexivity.
Qed.

(** Splitting what was joined gives the pieces back when no piece holds the
    separator. *)
Lemma split1_join (sep : char) (l : list jsstring) :
  l <> [] ->
  Forall (fun w => ~ In sep w) l ->
  split1 sep (join [sep] l) = l.
Proof.
  induction l as [|w l IH]; [congruence|]. intros _ H.
  inversion H as [|? ? Hw Hl]; subst.
  destruct l as [|w' l'].
  - simpl. apply split1_no_sep. exact Hw.
  - rewrite join_cons by discriminate.
    change (w ++ [sep] ++ join [sep] (w' :: l'))
      with (w ++ sep :: join [sep] (w' :: l')).
    rewrite split1_app_sep by exact Hw.
    rewrite IH by (try discriminate; exact Hl). reflexivity.
Qed.

(** No piece holds the separator, and every piece is made of code units of
    the string. *)
Lemma split1_pieces (sep : char) (s : jsstring) :
  Forall (fun w => ~ In sep w /\ incl w s) (split1 sep s).
Proof.
  induction s as [|c s IH]; simpl.
  - constructor; [|constructor]. split; [tauto | apply incl_refl].
  - assert (IH' : Forall (fun w => ~ In sep w /\ incl w (c :: s))
                    (split1 sep s)).
    { eapply Forall_impl; [|exact IH]. intros w [H1 H2].
      split; [exact H1 | apply incl_tl; exact H2]. }
    destruct (char_eqb c sep) eqn:E.
    + constructor; [|exact IH']. split; [tauto | apply incl_nil_l].
    + apply N.eqb_neq in E.
      destruct (split1 sep s) as [|w ws]; simpl.
      * constructor; [|constructor]. split.
        -- intros [H|[]]. congruence.
        -- intros x [<-|[]]. left. reflexivity.
      * inversion IH' as [|? ? [H1 H2] Hws]; subst.
        constructor; [|exact Hws]. split.
        -- intros [H|H]; [congruence | exact (H1 H)].
        -- intros x [<-|Hx]; [left; reflexivity | apply H2; exact Hx].
Qed.

Lemma split1_second (sep : char) (s : jsstring) :
  In sep s -> exists a b rest, split1 sep s = a :: b :: rest.
Proof.
  induction s as [|c s IH]; simpl; intros H; [contradiction|].
  destruct (char_eqb c sep) eqn:E.
  - pose proof (split1_nonempty sep s) as N.
    destruct (split1 sep s) as [|b rest]; [congruence|]. eauto.
  - apply N.eqb_neq in E. destruct H as [H|H]; [congruence|].
    destruct (IH H) as (a & b & rest & ->). simpl. eauto.
Qed.

Lemma render_segment_parses (k v : jsstring) :
  plain_text k -> plain_text v ->
  let seg := render_segment (k, Obj.Str v) in
  seg <> [] /\ ~ In (ch "&") seg /\
  seg_key seg = k /\ seg_value seg = Obj.Str v.
Proof.
  intros [Hk1 Hk2] [Hv1 Hv2] seg.
  assert (E : seg = k ++ ch "=" :: v) by reflexivity.
  assert (S : split1 (ch "=") seg = [k; v]).
  { rewrite E, split1_app_sep by exact Hk2.
    rewrite split1_no_sep by exact Hv2. reflexivity. }
  repeat split.
  - rewrite E. destruct k; discriminate.
  - rewrite E. intros H. apply in_app_or in H.
    destruct H as [H|[H|H]]; [auto | discriminate H | auto].
  - unfold seg_key. rewrite S. reflexivity.
  - unfold seg_value. rewrite S. reflexivity.
Qed.

Lemma update_keys (o : Obj.obj) (k : jsstring) (v : Obj.jsval) :
  map fst (Obj.update o k v) = map fst o.
Proof.
  induction o as [|[k0 v0] o IH]; simpl; [reflexivity|].
  destruct (str_eqb k0 k); simpl; [reflexivity | rewrite IH; reflexivity].
Qed.

Lemma update_Forall (P : jsstring * Obj.jsval -> Prop) (o : Obj.obj)
    (k : jsstring) (v : Obj.jsval) :
  Forall P o -> P (k, v) -> Forall P (Obj.update o k v).
Proof.
  intros H Hkv. induction H as [|[k0 v0] o H0 H IH]; simpl; [constructor|].
  destruct (str_eqb k0 k) eqn:E.
  - apply str_eqb_eq in E. subst k0. constructor; assumption.
  - constructor; assumption.
Qed.

Lemma insert_index_perm (o : Obj.obj) (n : N) (k : jsstring) (v : Obj.jsval) :
  Permutation (Obj.insert_index o n k v) ((k, v) :: o).
Proof.
  induction o as [|[k0 v0] o IH]; simpl; [reflexivity|].
  destruct (Obj.array_index k0) as [m|]; [destruct (N.ltb m n)|];
    try reflexivity.
  rewrite IH. apply perm_swap.
Qed.

(** An assignment [o[k] = v] of plain text keeps the parameter list plain. *)
Lemma set_plain (o : Obj.obj) (k v : jsstring) :
  plain_params o -> plain_text k -> plain_text v ->
  plain_params (Obj.set o k (Obj.Str v)).
Proof.
  intros [Hnd Hall] Hk Hv. unfold Obj.set.
  destruct (str_eqb k (js "__proto__")) eqn:P; [split; assumption|].
  apply str_eqb_neq in P.
  assert (Hkv : (fun kv : jsstring * Obj.jsval =>
                   fst kv <> js "__proto__" /\ plain_text (fst kv) /\
                   exists v, snd kv = Obj.Str v /\ plain_text v)
                  (k, Obj.Str v)).
  { simpl. repeat split; try assumption; try apply Hk. exists v. auto. }
  unfold Obj.has_own. destruct (Obj.get o k) as [x|] eqn:G.
  - split; [rewrite update_keys; exact Hnd | apply update_Forall; assumption].
  - apply get_None_not_In in G.
    assert (Hp : Permutation ((k, Obj.Str v) :: o)
                   (match Obj.array_index k with
                    | Some n => Obj.insert_index o n k (Obj.Str v)
                    | None => o ++ [(k, Obj.Str v)]
                    end)).
    { destruct (Obj.array_index k);
        [symmetry; apply insert_index_perm | apply Permutation_cons_append]. }
    split.
    + eapply Permutation_NoDup; [apply Permutation_map; exact Hp|].
      simpl. constructor; assumption.
    + eapply Permutation_Forall; [exact Hp|]. constructor; assumption.
Qed.

(** Parsing segments that all carry a value gives a plain parameter list. *)
Lemma params_loop_plain (segs : list jsstring) :
  Forall (fun seg => ~ In (ch "&") seg /\ (seg <> [] -> In (ch "=") seg)) segs ->
  forall ret, plain_params ret -> plain_params (params_loop segs ret).
Proof.
  induction 1 as [|seg segs [Hamp Heq] _ IH]; intros ret Hret; [exact Hret|].
  rewrite params_loop_cons. destruct seg as [|c seg']; [apply IH; exact Hret|].
  set (seg := c :: seg') in *.
  apply IH.
  destruct (@split1_second (ch "=") seg (Heq ltac:(discriminate)))
    as (a & b & rest & S).
  pose proof (split1_pieces (ch "=") seg) as Hp. rewrite S in Hp.
  inversion Hp as [|? ? [Ha1 Ha2] Hp']; subst.
  inversion Hp' as [|? ? [Hb1 Hb2] _]; subst.
  assert (Ek : seg_key seg = a) by (unfold seg_key; rewrite S; reflexivity).
  assert (Ev : seg_value seg = Obj.Str b)
    by (unfold seg_value; rewrite S; reflexivity).
  rewrite Ek, Ev. apply set_plain; [exact Hret | |]; split;
    try assumption; intros X; apply Hamp; [apply Ha2 | apply Hb2]; exact X.
Qed.

Lemma get_In (o : Obj.obj) (k : jsstring) (v : Obj.jsval) :
  Obj.get o k = Some v -> In (k, v) o.
Proof.
  induction o as [|[k0 v0] o IH]; simpl; [discriminate|].
  destruct (str_eqb k0 k) eqn:E.
  - apply str_eqb_eq in E. intros H. injection H as ->. subst. left. reflexivity.
  - intros H. right. apply IH. exact H.
Qed.

(** Parsing the rendered query gives every key its value back. *)
Lemma parse_render_params (params : Obj.obj) :
  plain_params params ->
  forall k, Obj.get (parse_params (render_query params)) k = Obj.get params k.
Proof.
  intros [Hnd Hall] k.
  destruct params as [|kv0 rest]; [reflexivity|].
  set (params := kv0 :: rest) in *.
  set (segs := map render_segment params).
  assert (Hseg : forall kv, In kv params ->
            exists v, kv = (fst kv, Obj.Str v) /\
                      render_segment kv <> [] /\
                      ~ In (ch "&") (render_segment kv) /\
                      seg_key (render_segment kv) = fst kv /\
                      seg_value (render_segment kv) = Obj.Str v).
  { intros [k1 v1] Hin. rewrite Forall_forall in Hall.
    destruct (Hall _ Hin) as (_ & Hk & v & Ev & Hv). simpl in *. subst v1.
    exists v. split; [reflexivity|].
    apply (render_segment_parses Hk Hv). }
  assert (Hparse : parse_params (render_query params) = params_loop segs []).
  { unfold parse_params, render_query, params.
    change (strip_question (js "?" ++ join (js "&")
                                     (map render_segment (kv0 :: rest))))
      with (join [ch "&"] segs).
    rewrite split1_join; [reflexivity | discriminate |].
    unfold segs. apply Forall_forall. intros s Hs.
    apply in_map_iff in Hs. destruct Hs as (kv & <- & Hin).
    destruct (Hseg kv Hin) as (_ & _ & _ & H & _). exact H. }
  rewrite Hparse.
  destruct (Obj.get params k) as [v|] eqn:G.
  - apply get_In in G.
    destruct (in_split _ _ G) as (l1 & l2 & E).
    destruct (Hseg _ G) as (v' & Ekv & Hne & _ & Hkey & Hval).
    simpl in Ekv. injection Ekv as ->. simpl in Hkey.
    assert (Hk2 : ~ In k (map fst l2)).
    { rewrite E, map_app in Hnd. simpl in Hnd.
      apply NoDup_remove_2 in Hnd. intros X. apply Hnd.
      apply in_or_app. right. exact X. }
    unfold segs. rewrite E, map_app. simpl map.
    pose proof (@params_loop_last_wins (map render_segment l2)
                  (render_segment (k, Obj.Str v')) Hne) as W.
    rewrite Hkey, Hval in W. apply W.
    + rewrite Forall_forall in Hall. apply (Hall _ G).
    + intros s Hs _. apply in_map_iff in Hs. destruct Hs as (kv & <- & Hin).
      assert (Hin' : In kv params)
        by (rewrite E; apply in_or_app; right; right; exact Hin).
      destruct (Hseg kv Hin') as (_ & _ & _ & _ & Hkey' & _).
      rewrite Hkey'. intros X. apply Hk2. rewrite <- X.
      apply in_map. exact Hin.
  - destruct (Obj.get (params_loop segs []) k) as [x|] eqn:G'; [|reflexivity].
    exfalso.
    assert (Hown : Obj.has_own (params_loop segs []) k = true)
      by (unfold Obj.has_own; rewrite G'; reflexivity).
    apply params_loop_has_own in Hown.
    destruct Hown as [H|(_ & s & Hs & _ & Hkey)]; [discriminate H|].
    apply in_map_iff in Hs. destruct Hs as (kv & <- & Hin).
    destruct (Hseg kv Hin) as (_ & _ & _ & _ & Hkey' & _).
    apply get_None_not_In in G. apply G. rewrite <- Hkey, Hkey'.
    apply in_map. exact Hin.
Qed.

Lemma replace_first_fragment (h : jsstring) :
  replace_first (ch "#") [] (render_fragment h) = h.
Proof. destruct h; reflexivity. Qed.

(** X14.  Parsing, rendering and parsing again, for the URLs the codec
    handles: when every parameter of [u] carries a value and none is named
    [hasOwnProperty], [renderURL] returns a string made of the parsed parts;
    and if the browser decomposes that string into the parts it was rendered
    from, its parse has the same protocol, host, port, path, file and hash,
    and gives every parameter key the same value. *)
Lemma parse_render_parse_with_values (anchor : jsstring -> Anchor.t)
    (u : jsstring) :
  let a := anchor u in
  let state := parseURL anchor u in
  Forall (fun seg => seg <> [] -> In (ch "=") seg)
    (split1 (ch "&") (strip_question (Anchor.search a))) ->
  Obj.has_own (Url.params state) (js "hasOwnProperty") = false ->
  exists u',
    renderURL state = Ok u' /\
    (Anchor.protocol (anchor u') = Anchor.protocol a ->
     Anchor.hostname (anchor u') = Anchor.hostname a ->
     Anchor.port (anchor u') = Anchor.port a ->
     Anchor.pathname (anchor u') = Anchor.pathname a ->
     Anchor.search (anchor u') = render_query (Url.params state) ->
     Anchor.hash (anchor u') = render_fragment (Url.hash state) ->
     let state' := parseURL anchor u' in
     Url.protocol state' = Url.protocol state /\
     Url.host state' = Url.host state /\
     Url.port state' = Url.port state /\
     Url.path state' = Url.path state /\
     Url.file state' = Url.file state /\
     Url.hash state' = Url.hash state /\
     forall k, Obj.get (Url.params state') k = Obj.get (Url.params state) k).
Proof.
  intros a state Hval Hs.
  assert (Hplain : plain_params (Url.params state)).
  { apply params_loop_plain; [|split; constructor].
    pose proof (split1_pieces (ch "&") (strip_question (Anchor.search a)))
      as Hp.
    rewrite Forall_forall in *. intros seg Hin.
    split; [apply (Hp seg Hin) | apply (Hval seg Hin)]. }
  destruct (renderURL_total state Hs) as [u' Hu]. exists u'.
  split; [exact Hu|].
  intros Hproto Hhost Hport Hpath Hsearch Hhash state'.
  unfold state', parseURL. simpl.
  rewrite Hproto, Hhost, Hport, Hpath, Hsearch, Hhash.
  repeat split.
  - apply replace_first_fragment.
  - apply parse_render_params. exact Hplain.
Qed.

Example parse_render_parse_with_values_example :
  let u := js "https://example.com:8080/book/ch1.html?b=2&10=x&b=3#sec" in
  let state := parseURL reference_anchor u in
  renderURL state = Ok (js "https://example.com:8080/book/ch1.html?10=x&b=3#sec")
  /\ Url.params
       (parseURL reference_anchor
          (js "https://example.com:8080/book/ch1.html?10=x&b=3#sec"))
     = Url.params state.
Proof. split; reflexivity. Qed.

(** A URL with a repeated key and an array-index key, on the reference
    decomposition. *)
Lemma parse_render_parse_with_values_witness :
  let u := js "https://example.com:8080/book/ch1.html?b=2&10=x&b=3#sec" in
  exists u',
    renderURL (parseURL reference_anchor u) = Ok u' /\
    Url.hash (parseURL reference_anchor u') = js "sec" /\
    forall k,
      Obj.get (Url.params (parseURL reference_anchor u')) k =
      Obj.get (Url.params (parseURL reference_anchor u)) k.
Proof.
  intros u.
  destruct (@parse_render_parse_with_values reference_anchor u)
    as (u' & Hu & H).
  - repeat constructor; intros _; simpl; auto 10.
  - reflexivity.
  - assert (E : Ok u' =
                Ok (js "https://example.com:8080/book/ch1.html?10=x&b=3#sec"))
      by (rewrite <- Hu; reflexivity).
    injection E as ->.
    exists (js "https://example.com:8080/book/ch1.html?10=x&b=3#sec").
    split; [exact Hu|].
    destruct H as (_ & _ & _ & _ & _ & Hh & Hp); try reflexivity.
    split; [exact Hh | exact Hp].
Defined.

(* ================================================================== *)
(** * Further properties *)

(** ** [escapeHTML] *)

(** No replacement text of [escapeHTML], and no character it keeps, is an
    angle bracket or a quote. *)
Lemma escape_char_no_markup (c : char) :
  forallb (fun c => negb (markup_char c)) (escape_char c) = true.
Proof.
  unfold escape_char, markup_char.
  destruct (char_eqb c (ch "&")); [reflexivity|].
  destruct (char_eqb c (ch "<")) eqn:E1; [reflexivity|].
  destruct (char_eqb c (ch ">")) eqn:E2; [reflexivity|].
  destruct (char_eqb c 34%N) eqn:E3; [reflexivity|].
  destruct (char_eqb c (ch "'")) eqn:E4; [reflexivity|].
  simpl. rewrite E1, E2, E3, E4. reflexivity.
Qed.

(** X1.  The escaped text holds no angle bracket and no quote of either
    kind, whatever the input. *)
Theorem escapeHTML_no_markup (s : jsstring) :
  forallb (fun c => negb (markup_char c)) (escapeHTML s) = true.
Proof.
  unfold escapeHTML. induction s as [|c s IH]; [reflexivity|].
  simpl flat_map.
  rewrite forallb_app, IH, escape_char_no_markup. reflexivity.
Qed.

(** ** [makeTeaser]: completion, emphasis, and the text it returns *)

(** The window [select_window] returns lies inside [weighted], whatever the
    flag and the window size, and it starts at a word when there is one. *)
Lemma select_window_in_range (found : bool) (w : list entry) (size : nat) :
  size <= length w ->
  let chosen :=
    select_window found
      (map (fun j => window_sum w j size) (seq 0 (length w - size + 1))) in
  chosen + size <= length w /\ (0 < length w -> chosen < length w).
Proof.
  intros H chosen. unfold chosen, select_window.
  destruct found; [|simpl; lia].
  rewrite length_map, length_seq.
  set (n := length w - size + 1).
  set (ww := map (fun j => window_sum w j size) (seq 0 n)).
  destruct (@backwards_spec ww n 0%Z 0) as [[-> _]|(Hr & Hpos & _)].
  - unfold ww. rewrite length_map, length_seq. lia.
  - simpl. lia.
  - assert (E : nth (backwards ww n 0%Z 0) ww 0%Z =
                window_sum w (backwards ww n 0%Z 0) size).
    { apply nth_error_nth. unfold ww. rewrite nth_error_map_seq by exact Hr.
      reflexivity. }
    rewrite E in Hpos.
    destruct size as [|size'].
    + unfold window_sum in Hpos. simpl in Hpos. lia.
    + assert (Hn : n = length w - S size' + 1) by reflexivity.
      clearbody ww n. lia.
Qed.

(** [makeTeaser] never raises: for every body, every list of search terms
    and every [teaser_word_count] (zero included) all its array reads stay
    inside [weighted] and it returns a string. *)
Lemma makeTeaser_returns (stemmer : jsstring -> jsstring)
    (searchoptions : SearchOptions) (body : jsstring)
    (searchterms : list jsstring) :
  exists teaser, makeTeaser stemmer searchoptions body searchterms = Ok teaser.
Proof.
  unfold makeTeaser.
  set (st := weigh stemmer body searchterms).
  set (w := weighted st).
  destruct (length w =? 0) eqn:E; [eauto|].
  apply Nat.eqb_neq in E.
  set (size := Nat.min (length w) (teaser_word_count searchoptions)).
  assert (Hsize : size <= length w) by (unfold size; lia).
  rewrite (window_weights_sums w Hsize). simpl rbind.
  destruct (select_window_in_range (searchterm_found st) w Hsize)
    as [Hin Hlt].
  set (chosen := select_window _ _) in *.
  destruct (@at_index_lt _ w chosen ltac:(lia)) as (first & Hfirst & _).
  rewrite Hfirst. simpl rbind.
  destruct (@emit_loop_total body w size chosen (e_index first) [] Hin)
    as (ts & Hts).
  rewrite Hts. simpl. eauto.
Qed.

Section Emphasis.

Variable stemmer : jsstring -> jsstring.
Variable stemmed : list jsstring.

(** What the weighting loops maintain about the search-term weight: a
    recorded word carries it exactly when some stemmed term is a prefix of
    its stem. *)
Local Abbreviation marked_right :=
  (Forall (fun e => e_value e = searchterm_weight <->
                    matches stemmer (e_word e) stemmed = true)).

Lemma words_loop_emphasis (words : list jsstring) :
  forall st,
    marked_right (weighted st) ->
    (value st = 2 \/ value st = 8)%Z ->
    marked_right (weighted (words_loop stemmer stemmed words st)) /\
    (value (words_loop stemmer stemmed words st) = 2 \/
     value (words_loop stemmer stemmed words st) = 8)%Z.
Proof.
  induction words as [|word rest IH]; intros st Hok Hv; simpl; [auto|].
  apply IH.
  - destruct (0 <? length word); simpl; [|exact Hok].
    rewrite terms_loop_result.
    destruct (matches stemmer word stemmed) eqn:M; simpl.
    + apply Forall_app. split; [exact Hok|].
      constructor; [|constructor]. simpl. rewrite M. tauto.
    + apply Forall_app. split; [exact Hok|].
      constructor; [|constructor]. simpl. rewrite M.
      unfold searchterm_weight.
      split; [intros; lia | discriminate].
  - destruct (0 <? length word); simpl; [|exact Hv].
    destruct (terms_loop stemmer word stemmed (value st) (searchterm_found st)).
    simpl. auto.
Qed.

Lemma sentences_loop_emphasis (sentences : list jsstring) :
  forall st,
    marked_right (weighted st) ->
    marked_right (weighted (sentences_loop stemmer stemmed sentences st)).
Proof.
  induction sentences as [|sentence rest IH]; intros st Hok; simpl;
    [exact Hok|].
  apply IH.
  match goal with |- context [words_loop _ _ ?ws ?s0] =>
    destruct (@words_loop_emphasis ws s0) as [H _]
  end; [exact Hok | simpl; auto | exact H].
Qed.

End Emphasis.

(** X3.  A word recorded by [makeTeaser] carries the search-term weight 40,
    and so is the one that gets the emphasis markers, exactly when the stem
    of some search term is a prefix of the word's stem; being the first word
    of a sentence never gives that weight. *)
Theorem weigh_emphasis (stemmer : jsstring -> jsstring) (body : jsstring)
    (searchterms : list jsstring) (e : entry) :
  In e (weighted (weigh stemmer body searchterms)) ->
  (e_value e = searchterm_weight <->
   matches stemmer (e_word e) (map stemmer searchterms) = true) /\
  (emphasised e = e_word e <->
   matches stemmer (e_word e) (map stemmer searchterms) = false).
Proof.
  intros He.
  pose proof (@sentences_loop_emphasis stemmer (map stemmer searchterms)
                (split2 (ch ".") (ch " ") body) (Scan [] 0 0%Z false)
                (Forall_nil _)) as H.
  rewrite Forall_forall in H. specialize (H e He).
  split; [exact H|].
  unfold emphasised.
  destruct (e_value e =? searchterm_weight)%Z eqn:E.
  - apply Z.eqb_eq in E. apply H in E. rewrite E.
    split; [|discriminate].
    intros X. apply (f_equal (@length _)) in X.
    rewrite !length_app in X. simpl in X. lia.
  - apply Z.eqb_neq in E.
    destruct (matches stemmer (e_word e) (map stemmer searchterms)) eqn:M.
    + exfalso. apply E. apply H. reflexivity.
    + tauto.
Qed.

(** With the toy stemmer, [Dogs] matches the term [dog], [The] does not. *)
Lemma weigh_emphasis_witness :
  let words := weighted (weigh toy_stemmer (js "The Dogs sleep") [js "dog"]) in
  In (Entry (js "Dogs") 40%Z 4) words /\
  matches toy_stemmer (js "Dogs") [js "dog"] = true.
Proof.
  intros words.
  assert (Hin : In (Entry (js "Dogs") 40%Z 4) words)
    by (vm_compute; tauto).
  split; [exact Hin|].
  apply (weigh_emphasis toy_stemmer (js "The Dogs sleep") [js "dog"] _ Hin).
  reflexivity.
Defined.

(** *** The text of the teaser *)

Lemma join_empty_concat (l : list jsstring) : join [] l = concat l.
Proof.
  induction l as [|w l IH]; [reflexivity|].
  destruct l as [|w' l']; [simpl; rewrite app_nil_r; reflexivity|].
  rewrite join_cons by discriminate. rewrite IH. reflexivity.
Qed.

Lemma firstn_then_firstn {A} (l : list A) (a b : nat) :
  firstn a l ++ firstn b (skipn a l) = firstn (a + b) l.
Proof.
  revert l; induction a as [|a IH]; intros [|x l]; simpl;
    try reflexivity.
  - destruct b; reflexivity.
  - rewrite IH. reflexivity.
Qed.

(** Two adjacent slices make one. *)
Lemma substring_concat (s : jsstring) (a b c : nat) :
  a <= b -> b <= c ->
  substring s a b ++ substring s b c = substring s a c.
Proof.
  intros Hab Hbc. unfold substring.
  set (n := length s).
  replace (Nat.min (Nat.min a n) (Nat.min b n)) with (Nat.min a n) by lia.
  replace (Nat.min (Nat.min b n) (Nat.min c n)) with (Nat.min b n) by lia.
  replace (Nat.min (Nat.min a n) (Nat.min c n)) with (Nat.min a n) by lia.
  replace (Nat.max (Nat.min a n) (Nat.min b n)) with (Nat.min b n) by lia.
  replace (Nat.max (Nat.min b n) (Nat.min c n)) with (Nat.min c n) by lia.
  replace (Nat.max (Nat.min a n) (Nat.min c n)) with (Nat.min c n) by lia.
  replace (skipn (Nat.min b n) s)
    with (skipn (Nat.min b n - Nat.min a n) (skipn (Nat.min a n) s))
    by (rewrite skipn_skipn; f_equal; lia).
  rewrite firstn_then_firstn.
  f_equal. lia.
Qed.

Lemma substring_empty (s : jsstring) (a : nat) : substring s a a = [].
Proof.
  unfold substring.
  replace (Nat.max _ _ - Nat.min _ _) with 0 by lia. reflexivity.
Qed.

Lemma in_order_end (l : list entry) :
  forall pos fin,
    in_order pos l fin ->
    pos <= window_end pos l /\ window_end pos l <= fin.
Proof.
  induction l as [|e l IH]; intros pos fin H; simpl in *; [lia|].
  destruct H as [H1 H2]. apply IH in H2. lia.
Qed.

Lemma in_order_later (l : list entry) (pos fin fin' : nat) :
  in_order pos l fin -> fin <= fin' -> in_order pos l fin'.
Proof.
  revert pos; induction l as [|e l IH]; intros pos H Hf; simpl in *; [lia|].
  destruct H as [H1 H2]. split; [exact H1 | apply IH; assumption].
Qed.

Lemma in_order_app (l1 l2 : list entry) (mid fin : nat) :
  forall pos,
    in_order pos l1 mid -> in_order mid l2 fin -> in_order pos (l1 ++ l2) fin.
Proof.
  induction l1 as [|e l1 IH]; intros pos H1 H2; simpl in *.
  - destruct l2 as [|e2 l2]; simpl in *; [lia|].
    destruct H2 as [H2 H3]. split; [lia | exact H3].
  - destruct H1 as [H H1]. split; [exact H | apply IH; assumption].
Qed.

Lemma in_order_skipn (i : nat) :
  forall l pos fin,
    in_order pos l fin -> exists pos', in_order pos' (skipn i l) fin.
Proof.
  induction i as [|i IH]; intros l pos fin H; [exists pos; exact H|].
  destruct l as [|e l]; [exists pos; exact H|].
  simpl in *. destruct H as [_ H]. exact (IH _ _ _ H).
Qed.

Lemma in_order_firstn (n : nat) :
  forall l pos fin,
    in_order pos l fin -> exists fin', in_order pos (firstn n l) fin'.
Proof.
  induction n as [|n IH]; intros l pos fin H; [exists pos; simpl; lia|].
  destruct l as [|e l]; [exists fin; exact H|].
  simpl in *. destruct H as [H1 H2].
  destruct (IH _ _ _ H2) as [fin' H']. exists fin'. split; assumption.
Qed.

(** A window of words in order is in order from the offset of its first
    word. *)
Lemma window_in_order (w : list entry) (pos fin i n : nat) (first : entry) :
  in_order pos w fin ->
  nth_error w i = Some first ->
  exists fin', in_order (e_index first) (firstn n (skipn i w)) fin'.
Proof.
  intros H Hn.
  destruct (in_order_skipn i _ _ _ H) as [pos' H'].
  rewrite (skipn_nth_error _ _ Hn) in *.
  assert (H2 : in_order (e_index first) (first :: skipn (S i) w) fin).
  { simpl in *. split; [lia | apply H']. }
  exact (in_order_firstn n _ _ _ H2).
Qed.

Section Order.

Variable stemmer : jsstring -> jsstring.
Variable stemmed : list jsstring.

Lemma words_loop_in_order (words : list jsstring) :
  forall st,
    in_order 0 (weighted st) (index st) ->
    in_order 0 (weighted (words_loop stemmer stemmed words st))
      (index (words_loop stemmer stemmed words st)).
Proof.
  induction words as [|word rest IH]; intros st H; simpl; [exact H|].
  apply IH.
  destruct (0 <? length word); simpl.
  - destruct (terms_loop stemmer word stemmed (value st)
                (searchterm_found st)) as [v f].
    simpl. apply (@in_order_app _ _ (index st)); [exact H|].
    simpl. lia.
  - apply (in_order_later _ _ H). lia.
Qed.

Lemma sentences_loop_in_order (sentences : list jsstring) :
  forall st,
    in_order 0 (weighted st) (index st) ->
    in_order 0 (weighted (sentences_loop stemmer stemmed sentences st))
      (index (sentences_loop stemmer stemmed sentences st)).
Proof.
  induction sentences as [|sentence rest IH]; intros st H; simpl;
    [exact H|].
  apply IH. simpl.
  match goal with |- in_order 0 (weighted ?s1) (index ?s1 + 1) =>
    apply (@in_order_later _ _ (index s1)); [|lia]
  end.
  apply words_loop_in_order. exact H.
Qed.

End Order.

(** The recorded words are in order, and each is in the body at its
    offset. *)
Lemma weigh_laid_out (stemmer : jsstring -> jsstring) (body : jsstring)
    (searchterms : list jsstring) :
  let st := weigh stemmer body searchterms in
  in_order 0 (weighted st) (index st) /\
  Forall (fun e => at_offset body (e_index e) (e_word e)) (weighted st).
Proof.
  intros st. split.
  - apply sentences_loop_in_order. simpl. lia.
  - unfold st, weigh.
    destruct (@sentences_loop_offsets stemmer (map stemmer searchterms) body
                (split2 (ch ".") (ch " ") body) (Scan [] 0 0%Z false) [] [])
      as (new & Hw & Hall).
    + change (js ". ") with [ch "."; ch " "].
      rewrite join_split2, app_nil_r. reflexivity.
    + reflexivity.
    + rewrite Hw. simpl.
      eapply Forall_impl; [|exact Hall]. intros e [Ha _]. exact Ha.
Qed.

(** What the emitting loop pushes, joined: the excerpt of the window, with
    the matched words between the markers. *)
Lemma emit_loop_excerpt (body : jsstring) (w : list entry) (n : nat) :
  forall i index teaser_split,
    i + n <= length w ->
    Forall (fun e => at_offset body (e_index e) (e_word e)) w ->
    exists r,
      emit_loop body w n i index teaser_split = Ok r /\
      concat r =
      concat teaser_split
      ++ excerpt emphasised body index (firstn n (skipn i w)).
Proof.
  induction n as [|n IH]; intros i index ts Hi Hall; simpl.
  - exists ts. rewrite app_nil_r. auto.
  - destruct (@at_index_lt _ w i ltac:(lia)) as (x & Hx & Hn).
    rewrite Hx. simpl rbind.
    rewrite (skipn_nth_error _ _ Hn). simpl firstn. simpl excerpt.
    assert (Hat : at_offset body (e_index x) (e_word x)).
    { rewrite Forall_forall in Hall. apply Hall.
      eapply nth_error_In. exact Hn. }
    rewrite (substring_at_offset Hat).
    unfold emphasised.
    destruct (index <? e_index x), (e_value x =? searchterm_weight)%Z;
      match goal with |- exists r, emit_loop _ _ _ _ _ ?ts' = _ /\ _ =>
        destruct (IH (S i) (e_index x + length (e_word x)) ts'
                    ltac:(lia) Hall) as (r & Hr & Hc)
      end;
      exists r; (split; [exact Hr|]); rewrite Hc;
      rewrite ?concat_app; simpl; rewrite ?app_nil_r, <- ?app_assoc;
      reflexivity.
Qed.

(** Without the markers, the excerpt of a window of words that are in order
    and in the body is one slice of the body. *)
Lemma excerpt_plain (body : jsstring) (window : list entry) :
  forall index fin,
    Forall (fun e => at_offset body (e_index e) (e_word e)) window ->
    in_order index window fin ->
    excerpt e_word body index window =
    substring body index (window_end index window).
Proof.
  induction window as [|e rest IH]; intros index fin Hall Hord; simpl.
  - rewrite substring_empty. reflexivity.
  - destruct Hord as [H1 H2].
    inversion Hall as [|? ? Hat Hrest]; subst.
    destruct (in_order_end _ _ _ H2) as [H3 _].
    match goal with |- ?gap ++ _ = _ =>
      assert (G : gap = substring body index (e_index e))
    end.
    { destruct (index <? e_index e) eqn:L; [reflexivity|].
      apply Nat.ltb_ge in L. replace (e_index e) with index by lia.
      rewrite substring_empty. reflexivity. }
    rewrite G, (IH _ _ Hrest H2).
    transitivity
      (substring body index (e_index e)
       ++ substring body (e_index e) (e_index e + length (e_word e))
       ++ substring body (e_index e + length (e_word e))
            (window_end (e_index e + length (e_word e)) rest)).
    + rewrite (substring_at_offset Hat). reflexivity.
    + rewrite (@substring_concat body (e_index e)
                 (e_index e + length (e_word e)) _ ltac:(lia) H3).
      apply substring_concat; lia.
Qed.

(** What [makeTeaser] returns: the body when it has no word, and otherwise
    the excerpt of the selected window. *)
Lemma makeTeaser_result (stemmer : jsstring -> jsstring)
    (searchoptions : SearchOptions) (body : jsstring)
    (searchterms : list jsstring) :
  let st := weigh stemmer body searchterms in
  let words := weighted st in
  let size := Nat.min (length words) (teaser_word_count searchoptions) in
  let chosen :=
    select_window (searchterm_found st)
      (map (fun j => window_sum words j size)
         (seq 0 (length words - size + 1))) in
  let window := firstn size (skipn chosen words) in
  (nth_error words chosen = None <-> words = []) /\
  makeTeaser stemmer searchoptions body searchterms =
  Ok match nth_error words chosen with
     | Some first => excerpt emphasised body (e_index first) window
     | None => body
     end.
Proof.
  intros st words size chosen window.
  assert (Hsize : size <= length words) by (unfold size; lia).
  destruct (select_window_in_range (searchterm_found st) words Hsize)
    as [Hin Hlt].
  fold chosen in Hin, Hlt.
  destruct (weigh_laid_out stemmer body searchterms) as [_ Hall].
  fold st words in Hall.
  split.
  - rewrite nth_error_None. split; intros H.
    + destruct words; [reflexivity | simpl in *; lia].
    + rewrite H. simpl. lia.
  - unfold makeTeaser. fold st. fold words.
    destruct (length words =? 0) eqn:E.
    + apply Nat.eqb_eq in E.
      replace (nth_error words chosen) with (@None entry); [reflexivity|].
      symmetry. apply nth_error_None. lia.
    + apply Nat.eqb_neq in E. fold size.
      rewrite (window_weights_sums words Hsize). simpl rbind. fold chosen.
      destruct (@at_index_lt _ words chosen ltac:(lia)) as (first & Hf & Hn).
      rewrite Hf, Hn. simpl rbind.
      destruct (@emit_loop_excerpt body words size chosen (e_index first) []
                  Hin Hall) as (ts & Hts & Hc).
      rewrite Hts. simpl rbind.
      rewrite join_empty_concat, Hc. reflexivity.
Qed.

(** X2.  What [makeTeaser] returns, for every body, every list of search
    terms and every [teaser_word_count], zero included.  It never raises.
    When the body has no word it returns the body.  Otherwise it returns the
    excerpt of the selected window, which holds
    [min(weighted.length, teaser_word_count)] words: before each word the
    text of the body since the end of the word before, then the word,
    between the markers [<em>] and [</em>] when its weight is 40.  With the
    markers left out, that excerpt is one slice of the body, from the first
    word of the window to the end of its last word. *)
Theorem makeTeaser_excerpt (stemmer : jsstring -> jsstring)
    (searchoptions : SearchOptions) (body : jsstring)
    (searchterms : list jsstring) :
  let st := weigh stemmer body searchterms in
  let words := weighted st in
  let size := Nat.min (length words) (teaser_word_count searchoptions) in
  let chosen :=
    select_window (searchterm_found st)
      (map (fun j => window_sum words j size)
         (seq 0 (length words - size + 1))) in
  let window := firstn size (skipn chosen words) in
  (nth_error words chosen = None <-> words = []) /\
  length window = size /\
  makeTeaser stemmer searchoptions body searchterms =
  Ok match nth_error words chosen with
     | Some first => excerpt emphasised body (e_index first) window
     | None => body
     end /\
  forall first,
    nth_error words chosen = Some first ->
    excerpt e_word body (e_index first) window =
    substring body (e_index first) (window_end (e_index first) window).
Proof.
  intros st words size chosen window.
  destruct (makeTeaser_result stemmer searchoptions body searchterms)
    as [Hnone Hres].
  split; [exact Hnone|].
  split.
  { assert (Hsize : size <= length words) by (unfold size; lia).
    destruct (select_window_in_range (searchterm_found st) words Hsize)
      as [Hin _].
    fold chosen in Hin. unfold window.
    rewrite length_firstn, length_skipn. lia. }
  split; [exact Hres|].
  intros first Hn.
  destruct (weigh_laid_out stemmer body searchterms) as [Hord Hall].
  fold st in Hord. fold st words in Hall.
  destruct (@window_in_order words 0 (index st) chosen size first Hord Hn)
    as [fin' Hw].
  apply (@excerpt_plain body window (e_index first) fin'); [|exact Hw].
  rewrite Forall_forall in *. intros e He. apply Hall.
  apply (In_firstn_skipn _ _ _ _ He).
Qed.

(** *** The teaser of an escaped body *)

Lemma filter_clean (s : jsstring) :
  forallb (fun c => negb (markup_char c)) s = true ->
  filter markup_char s = [].
Proof.
  induction s as [|c s IH]; simpl; [reflexivity|].
  intros H. apply andb_true_iff in H. destruct H as [Hc Hs].
  apply negb_true_iff in Hc. rewrite Hc. apply IH. exact Hs.
Qed.

Lemma escapeHTML_clean (s : jsstring) : filter markup_char (escapeHTML s) = [].
Proof.
  apply filter_clean. unfold escapeHTML.
  induction s as [|c s IH]; [reflexivity|].
  simpl flat_map.
  rewrite forallb_app, IH, escape_char_no_markup. reflexivity.
Qed.

Lemma filter_firstn_clean (s : jsstring) (n : nat) :
  filter markup_char s = [] -> filter markup_char (firstn n s) = [].
Proof.
  revert n; induction s as [|c s IH]; intros [|n]; simpl; try reflexivity.
  destruct (markup_char c); [discriminate|]. apply IH.
Qed.

Lemma filter_skipn_clean (s : jsstring) (n : nat) :
  filter markup_char s = [] -> filter markup_char (skipn n s) = [].
Proof.
  revert n; induction s as [|c s IH]; intros [|n]; simpl; try tauto.
  destruct (markup_char c); [discriminate|]. apply IH.
Qed.

Lemma substring_clean (s : jsstring) (a b : nat) :
  filter markup_char s = [] -> filter markup_char (substring s a b) = [].
Proof.
  intros H. unfold substring.
  apply filter_firstn_clean, filter_skipn_clean, H.
Qed.

(** In the excerpt of words of a body without markup characters, the only
    ones are those of the markers: four for each matched word. *)
Lemma excerpt_markup (body : jsstring) (window : list entry) :
  filter markup_char body = [] ->
  Forall (fun e => at_offset body (e_index e) (e_word e)) window ->
  forall index,
    length (filter markup_char (excerpt emphasised body index window)) =
    4 * length (filter (fun e => (e_value e =? searchterm_weight)%Z) window).
Proof.
  intros Hb. induction 1 as [|e rest Hat _ IH]; intros index;
    [reflexivity|].
  assert (Hw : filter markup_char (e_word e) = []).
  { rewrite <- (substring_at_offset Hat). apply substring_clean, Hb. }
  simpl excerpt. rewrite !filter_app, !length_app, IH.
  match goal with |- length (filter _ ?gap) + _ = _ =>
    assert (G : filter markup_char gap = [])
  end.
  { destruct (index <? e_index e);
      [apply substring_clean, Hb | reflexivity]. }
  rewrite G. unfold emphasised. simpl filter.
  destruct (e_value e =? searchterm_weight)%Z.
  - simpl. rewrite filter_app, Hw. simpl. lia.
  - rewrite Hw. simpl. lia.
Qed.

(** X4.  [formatSearchResult] hands [makeTeaser] the escaped body.  The
    teaser it gets back then holds no angle bracket and no quote but those of
    the markers [<em>] and [</em>]: four such characters for each word of
    the selected window that carries the search-term weight, and none when
    the body has no word. *)
Theorem makeTeaser_escaped_markup (stemmer : jsstring -> jsstring)
    (searchoptions : SearchOptions) (text : jsstring)
    (searchterms : list jsstring) :
  let body := escapeHTML text in
  let st := weigh stemmer body searchterms in
  let words := weighted st in
  let size := Nat.min (length words) (teaser_word_count searchoptions) in
  let chosen :=
    select_window (searchterm_found st)
      (map (fun j => window_sum words j size)
         (seq 0 (length words - size + 1))) in
  let window := firstn size (skipn chosen words) in
  exists teaser,
    makeTeaser stemmer searchoptions body searchterms = Ok teaser /\
    length (filter markup_char teaser) =
    4 * length (filter (fun e => (e_value e =? searchterm_weight)%Z) window).
Proof.
  intros body st words size chosen window.
  destruct (makeTeaser_result stemmer searchoptions body searchterms)
    as [Hnone Hres].
  fold st words size chosen window in Hnone, Hres.
  eexists. split; [exact Hres|].
  destruct (nth_error words chosen) as [first|] eqn:Hn.
  - apply excerpt_markup; [apply escapeHTML_clean|].
    destruct (weigh_laid_out stemmer body searchterms) as [_ Hall].
    fold st words in Hall.
    rewrite Forall_forall in *. intros e He. apply Hall.
    apply (In_firstn_skipn _ _ _ _ He).
  - assert (Hw : words = []) by (apply Hnone; reflexivity).
    unfold window. rewrite Hw. destruct size, chosen; simpl;
      unfold body; rewrite escapeHTML_clean; reflexivity.
Qed.

(** ** [doSearch]: the rendered list *)

Section Results.

Variable Index : Type.
Variable index_search : Index -> jsstring -> SearchOptions -> list SearchResult.
Variable stemmer : jsstring -> jsstring.
Variable path_to_root : jsstring.

Local Abbreviation run_search := (doSearch index_search stemmer path_to_root).
Local Abbreviation format_result := (formatSearchResult stemmer path_to_root).

Lemma formatSearchResult_total (opts : SearchOptions) (r : SearchResult)
    (searchterms : list jsstring) :
  exists html, format_result opts r searchterms = Ok html.
Proof.
  unfold formatSearchResult.
  destruct (makeTeaser_returns stemmer opts (escapeHTML (doc_body r))
              searchterms) as [teaser Ht].
  rewrite Ht. simpl. eauto.
Qed.

(** The filling loop completes when it stays inside [results], and appends
    one item for each result it visits, in order, changing nothing else. *)
Lemma results_loop_renders opts results searchterms n :
  forall i (s : State Index),
    i + n <= length results ->
    exists items,
      results_loop stemmer path_to_root opts results searchterms n i s =
      (Ok tt, set_searchresults (searchresults s ++ items) s) /\
      Forall2 (shows stemmer path_to_root opts searchterms) items
        (firstn n (skipn i results)).
Proof.
  induction n as [|n IH]; intros i s Hi.
  - exists []. simpl. rewrite app_nil_r. destruct s. split; constructor.
  - simpl results_loop.
    destruct (@at_index_lt _ results i ltac:(lia)) as (r & Hr & Hn).
    rewrite Hr. simpl rbind.
    destruct (formatSearchResult_total opts r searchterms) as [html Hh].
    rewrite Hh.
    match goal with |- context [results_loop _ _ _ _ _ _ _ ?s1] =>
      destruct (IH (S i) s1 ltac:(lia)) as (items & Hl & Hall)
    end.
    exists ({| li_html := html; li_focus := false |} :: items).
    rewrite Hl. simpl. rewrite <- app_assoc. split; [reflexivity|].
    rewrite (skipn_nth_error _ _ Hn). simpl.
    constructor; [split; [exact Hh | reflexivity] | exact Hall].
Qed.

(** How a call of [doSearch] ends, in full: it never raises; it changes
    nothing when the term is the cached one, only the cached term while the
    index is not loaded, and otherwise renders the first results. *)
Lemma doSearch_outcome (t : jsstring) (s : State Index) :
  exists items,
    run_search t s =
    (Ok tt,
     if str_eqb (current_searchterm s) t then s
     else match searchindex s with
          | None => set_current_searchterm t s
          | Some idx =>
              let results := index_search idx t (searchoptions s) in
              let count :=
                Nat.min (length results) (limit_results (searchoptions s)) in
              set_searchresults_outer_display (js "block")
                (set_searchresults items
                   (set_searchresults_header (formatSearchMetric count t)
                      (log_lookup t (set_current_searchterm t s))))
          end) /\
    forall idx,
      searchindex s = Some idx ->
      str_eqb (current_searchterm s) t = false ->
      let results := index_search idx t (searchoptions s) in
      Forall2
        (shows stemmer path_to_root (searchoptions s) (split1 (ch " ") t))
        items
        (firstn (Nat.min (length results) (limit_results (searchoptions s)))
           results).
Proof.
  unfold doSearch.
  destruct (str_eqb (current_searchterm s) t) eqn:Hterm.
  { exists []. split; [reflexivity | discriminate]. }
  cbn [searchindex set_current_searchterm].
  destruct (searchindex s) as [idx|] eqn:Hidx.
  2:{ exists []. split; [reflexivity | discriminate]. }
  cbn [searchoptions log_lookup set_current_searchterm
       set_searchresults_header removeChildren_searchresults
       set_searchresults].
  match goal with |- context [results_loop _ _ ?o ?r ?ts ?n ?i ?s1] =>
    destruct (@results_loop_renders o r ts n i s1) as (items & Hl & Hall)
  end.
  { simpl. lia. }
  exists items. rewrite Hl. simpl in *. split; [reflexivity|].
  intros idx' E _. injection E as <-. exact Hall.
Qed.

End Results.

(** X5.  A search for a term other than the cached one, on a loaded index,
    never raises.  It replaces the children of [#searchresults] by one item
    for each of the first [min(results.length, limit_results)] results, in
    order, each holding what [formatSearchResult] returns for it and none
    carrying the class [focus]; it sets the header to the metric for that
    count, shows the results panel, records the term and the lookup, and
    changes nothing else on the page. *)
Theorem doSearch_renders_results (Index : Type)
    (index_search : Index -> jsstring -> SearchOptions -> list SearchResult)
    (stemmer : jsstring -> jsstring) (path_to_root : jsstring)
    (t : jsstring) (s : State Index) (idx : Index) :
  searchindex s = Some idx ->
  current_searchterm s <> t ->
  let results := index_search idx t (searchoptions s) in
  let count := Nat.min (length results) (limit_results (searchoptions s)) in
  exists items,
    doSearch index_search stemmer path_to_root t s =
    (Ok tt,
     set_searchresults_outer_display (js "block")
       (set_searchresults items
          (set_searchresults_header (formatSearchMetric count t)
             (log_lookup t (set_current_searchterm t s))))) /\
    Forall2 (shows stemmer path_to_root (searchoptions s) (split1 (ch " ") t))
      items (firstn count results).
Proof.
  intros Hidx Hterm results count.
  apply str_eqb_neq in Hterm.
  destruct (doSearch_outcome index_search stemmer path_to_root t s)
    as (items & Hs & Hall).
  rewrite Hterm, Hidx in Hs.
  exists items. split; [exact Hs | exact (Hall idx Hidx Hterm)].
Qed.

(** The two canned results for [rust], rendered. *)
Lemma doSearch_renders_results_witness :
  let s := page (js "http://example.com/book/") (Some sample_results)
             two_results in
  exists items,
    length items = 2 /\
    searchresults
      (snd (doSearch canned_search toy_stemmer (js "../") (js "rust") s)) =
    items /\
    Forall2 (shows toy_stemmer (js "../") (demo_options 30) [js "rust"])
      items sample_results.
Proof.
  intros s.
  destruct (@doSearch_renders_results _ canned_search toy_stemmer (js "../")
              (js "rust") s sample_results eq_refl)
    as (items & Hs & Hall).
  - discriminate.
  - exists items. split; [|split].
    + apply Forall2_length in Hall. exact Hall.
    + rewrite Hs. reflexivity.
    + exact Hall.
Defined.

(** ** [searchbarKeyUpHandler] *)

Section Typing.

Variable Index : Type.
Variable index_search : Index -> jsstring -> SearchOptions -> list SearchResult.
Variable anchor : jsstring -> Anchor.t.
Variable history_url : jsstring -> jsstring -> option jsstring.
Variable stemmer : jsstring -> jsstring.
Variable path_to_root : jsstring.

Local Abbreviation key_up :=
  (searchbarKeyUpHandler index_search anchor history_url stemmer path_to_root).
Local Abbreviation run_search := (doSearch index_search stemmer path_to_root).

(** [setSearchUrlParameters] writes the URL and the history, nothing else. *)
Lemma setSearchUrlParameters_touches_location (t a : jsstring)
    (s : State Index) :
  let s' := snd (setSearchUrlParameters anchor history_url t a s) in
  s' = s \/ exists live c u, s' = set_location live c u s.
Proof.
  unfold setSearchUrlParameters.
  destruct (Obj.hasOwnProperty _ _); simpl; [|auto].
  destruct (commit_of a _); simpl; [|auto].
  destruct (renderURL _); simpl; [|auto].
  unfold history_commit. destruct (history_url _ _); simpl; [|auto].
  right. eexists _, _, _. reflexivity.
Qed.

(** The page after [searchbarKeyUpHandler], as far as the search is
    concerned, is the page after its first statement (lines 921-929): the
    rest touches the URL, the history and the marks only. *)
Lemma searchbarKeyUpHandler_search_side (s : State Index) :
  let term := trim (searchbar_value s) in
  let mid :=
    if negb (str_eqb term [])
    then snd (run_search term (set_searchbar_active true s))
    else removeChildren_searchresults
           (set_searchresults_outer_display (js "none")
              (set_searchbar_active false s)) in
  let s' := snd (key_up s) in
  searchresults s' = searchresults mid /\
  searchresults_outer_display s' = searchresults_outer_display mid /\
  current_searchterm s' = current_searchterm mid /\
  lookups s' = lookups mid /\
  searchbar_active s' = searchbar_active mid.
Proof.
  intros term mid s'. unfold s', searchbarKeyUpHandler. fold term.
  assert (E : (if negb (str_eqb term [])
               then run_search term (set_searchbar_active true s)
               else (Ok tt,
                     removeChildren_searchresults
                       (set_searchresults_outer_display (js "none")
                          (set_searchbar_active false s)))) = (Ok tt, mid)).
  { unfold mid. destruct (negb (str_eqb term [])); [|reflexivity].
    destruct (doSearch_outcome index_search stemmer path_to_root term
                (set_searchbar_active true s)) as (items & -> & _).
    reflexivity. }
  rewrite E.
  destruct (setSearchUrlParameters_touches_location term
              PUSH_IF_NEW_SEARCH_ELSE_REPLACE mid) as [H|(live & c & u & H)];
    destruct (setSearchUrlParameters anchor history_url term
                PUSH_IF_NEW_SEARCH_ELSE_REPLACE mid) as [[[]|e] s2];
    simpl in H; subst s2; simpl; auto.
Qed.

End Typing.

(** X6.  The cached term outlives the results it stands for.  After a keyup
    with some text in the search box, a keyup with the box emptied, and a
    keyup with the first text back in the box, the result list is empty and
    the results panel hidden, and the last two keyups made no lookup: the
    second search returns at the test of the cached term, which emptying the
    box did not reset. *)
Theorem searchbarKeyUpHandler_retyped_term_shows_nothing (Index : Type)
    (index_search : Index -> jsstring -> SearchOptions -> list SearchResult)
    (anchor : jsstring -> Anchor.t)
    (history_url : jsstring -> jsstring -> option jsstring)
    (stemmer : jsstring -> jsstring)
    (path_to_root : jsstring) (text : jsstring) (s : State Index) :
  let key_up :=
    searchbarKeyUpHandler index_search anchor history_url stemmer
      path_to_root in
  let s1 := snd (key_up (set_searchbar_value text s)) in
  let s2 := snd (key_up (set_searchbar_value [] s1)) in
  let s3 := snd (key_up (set_searchbar_value text s2)) in
  searchresults s3 = [] /\
  searchresults_outer_display s3 = js "none" /\
  lookups s3 = lookups s1 /\
  searchbar_active s3 = negb (str_eqb (trim text) []).
Proof.
  intros key_up s1 s2 s3.
  pose proof (searchbarKeyUpHandler_search_side index_search anchor
                history_url stemmer
                path_to_root (set_searchbar_value text s)) as H1.
  pose proof (searchbarKeyUpHandler_search_side index_search anchor
                history_url stemmer
                path_to_root (set_searchbar_value [] s1)) as H2.
  pose proof (searchbarKeyUpHandler_search_side index_search anchor
                history_url stemmer
                path_to_root (set_searchbar_value text s2)) as H3.
  cbv zeta in H1, H2, H3. fold key_up in H1, H2, H3.
  fold s1 in H1. fold s2 in H2. fold s3 in H3.
  simpl in H2. destruct H2 as (R2 & D2 & C2 & L2 & _).
  cbn [searchbar_value set_searchbar_value] in H1, H3.
  destruct H3 as (R3 & D3 & C3 & L3 & A3).
  destruct (negb (str_eqb (trim text) [])) eqn:E.
  - (* some text: the cached term is that text since the first keyup *)
    destruct H1 as (_ & _ & C1 & _ & _).
    rewrite (proj1 (@doSearch_records_term _ index_search stemmer
                      path_to_root (trim text) _)) in C1.
    assert (Hc : current_searchterm
                   (set_searchbar_active true (set_searchbar_value text s2))
                 = trim text) by (simpl; congruence).
    rewrite (@doSearch_same_term _ index_search stemmer path_to_root _ _ Hc)
      in R3, D3, L3, A3.
    simpl in R3, D3, L3, A3.
    repeat split; congruence.
  - simpl in R3, D3, L3, A3. repeat split; congruence.
Qed.

(** ** The string a history call is made with *)

Lemma delete_keys (o : Obj.obj) (k : jsstring) :
  map fst (Obj.delete o k) =
  filter (fun k' => negb (str_eqb k' k)) (map fst o).
Proof.
  unfold Obj.delete. induction o as [|[k0 v0] o IH]; simpl; [reflexivity|].
  destruct (negb (str_eqb k0 k)); simpl; rewrite IH; reflexivity.
Qed.

Lemma delete_plain (o : Obj.obj) (k : jsstring) :
  plain_params o -> plain_params (Obj.delete o k).
Proof.
  intros [Hnd Hall]. split.
  - rewrite delete_keys. apply NoDup_filter. exact Hnd.
  - unfold Obj.delete. rewrite Forall_forall in *.
    intros kv H. apply filter_In in H. apply Hall, H.
Qed.

(** An assignment keeps the keys of an object distinct. *)
Lemma set_distinct (o : Obj.obj) (k : jsstring) (v : Obj.jsval) :
  NoDup (map fst o) -> NoDup (map fst (Obj.set o k v)).
Proof.
  intros Hnd. unfold Obj.set.
  destruct (str_eqb k (js "__proto__")); [exact Hnd|].
  unfold Obj.has_own. destruct (Obj.get o k) as [x|] eqn:G.
  - rewrite update_keys. exact Hnd.
  - apply get_None_not_In in G.
    assert (Hp : Permutation ((k, v) :: o)
                   (match Obj.array_index k with
                    | Some n => Obj.insert_index o n k v
                    | None => o ++ [(k, v)]
                    end)).
    { destruct (Obj.array_index k);
        [symmetry; apply insert_index_perm | apply Permutation_cons_append]. }
    eapply Permutation_NoDup; [apply Permutation_map; exact Hp|].
    simpl. constructor; assumption.
Qed.

Lemma params_loop_distinct (segs : list jsstring) :
  forall ret,
    NoDup (map fst ret) -> NoDup (map fst (params_loop segs ret)).
Proof.
  induction segs as [|seg segs IH]; intros ret H; [exact H|].
  rewrite params_loop_cons. destruct seg; apply IH; [exact H|].
  apply set_distinct. exact H.
Qed.

(** The string rendered from the parsed live URL after the edit of lines
    944-950. *)
Lemma edited_url_text (anchor : jsstring -> Anchor.t)
    (href term action : jsstring) :
  let url := edit_search_url (parseURL anchor href) term action in
  Obj.has_own (Url.params (parseURL anchor href)) (js "hasOwnProperty")
  = false ->
  renderURL url = Ok (render_text url).
Proof.
  intros url Hs. apply renderURL_text.
  - unfold url. rewrite edit_search_url_keeps_shadow. exact Hs.
  - assert (H0 : NoDup (map fst (Url.params (parseURL anchor href)))).
    { unfold parseURL, parse_params. simpl.
      apply params_loop_distinct. constructor. }
    unfold url, edit_search_url.
    destruct (negb (str_eqb term []) || _); simpl;
      rewrite delete_keys; apply NoDup_filter;
      [apply set_distinct|]; exact H0.
Qed.

(** ** [searchbarKeyUpHandler]: how it ends *)

(** X17.  How a keyup in the search box ends.  On a page whose URL has a
    parameter named [hasOwnProperty] it ends with TypeError after the search
    has run; the URL, the history and the marks are as before.  Otherwise
    it calls [pushState] (when the URL had no [search] parameter) or
    [replaceState] (when it had one) with the rendering of the URL object in
    which [search] is the trimmed text of the box.  If the browser refuses
    that call the handler ends with SecurityError, again with the URL, the
    history and the marks as before; if the call goes through the handler
    ends normally, the live URL is the one the browser made of the string,
    the call is recorded and the marks are removed. *)
Theorem searchbarKeyUpHandler_completion (Index : Type)
    (index_search : Index -> jsstring -> SearchOptions -> list SearchResult)
    (anchor : jsstring -> Anchor.t)
    (history_url : jsstring -> jsstring -> option jsstring)
    (stemmer : jsstring -> jsstring)
    (path_to_root : jsstring) (s : State Index) :
  let url := parseURL anchor (location_href s) in
  let term := trim (searchbar_value s) in
  let r :=
    searchbarKeyUpHandler index_search anchor history_url stemmer
      path_to_root s in
  let c := if Obj.has_own (Url.params url) URL_SEARCH_PARAM
           then ReplaceState else PushState in
  let unchanged :=
    marked (snd r) = marked s /\
    location_href (snd r) = location_href s /\
    history_calls (snd r) = history_calls s in
  if Obj.has_own (Url.params url) (js "hasOwnProperty")
  then fst r = Throw TypeError /\ unchanged
  else
    exists u,
      renderURL (edit_search_url url term PUSH_IF_NEW_SEARCH_ELSE_REPLACE)
      = Ok u /\
      match history_url (location_href s) u with
      | Some live =>
          fst r = Ok tt /\
          marked (snd r) = None /\
          location_href (snd r) = live /\
          history_calls (snd r) = history_calls s ++ [(c, u)]
      | None => fst r = Throw SecurityError /\ unchanged
      end.
Proof.
  intros url term r c unchanged. unfold unchanged, r, searchbarKeyUpHandler.
  fold term.
  set (mid := if negb (str_eqb term [])
              then snd (doSearch index_search stemmer path_to_root term
                          (set_searchbar_active true s))
              else removeChildren_searchresults
                     (set_searchresults_outer_display (js "none")
                        (set_searchbar_active false s))).
  assert (E : (if negb (str_eqb term [])
               then doSearch index_search stemmer path_to_root term
                      (set_searchbar_active true s)
               else (Ok tt,
                     removeChildren_searchresults
                       (set_searchresults_outer_display (js "none")
                          (set_searchbar_active false s)))) = (Ok tt, mid)).
  { unfold mid. destruct (negb (str_eqb term [])); [|reflexivity].
    destruct (doSearch_outcome index_search stemmer path_to_root term
                (set_searchbar_active true s)) as (items & -> & _).
    reflexivity. }
  rewrite E.
  assert (F : location_href mid = location_href s /\
              history_calls mid = history_calls s /\
              marked mid = marked s).
  { unfold mid. destruct (negb (str_eqb term [])); [|auto].
    destruct (doSearch_outcome index_search stemmer path_to_root term
                (set_searchbar_active true s)) as (items & -> & _).
    cbn [snd].
    destruct (str_eqb _ term); [auto|].
    cbn [searchindex set_searchbar_active].
    destruct (searchindex s); auto. }
  destruct F as (Fl & Fh & Fm).
  pose proof (@setSearchUrlParameters_run Index anchor history_url term
                PUSH_IF_NEW_SEARCH_ELSE_REPLACE mid) as R.
  cbv zeta in R. rewrite Fl in R. fold url in R.
  destruct (Obj.has_own (Url.params url) (js "hasOwnProperty")).
  - rewrite R. simpl. auto.
  - destruct R as (u & Hu & ->). exists u. split; [exact Hu|].
    assert (C : commit_of PUSH_IF_NEW_SEARCH_ELSE_REPLACE
                  (negb (Obj.has_own (Url.params url) URL_SEARCH_PARAM)) =
                Some c).
    { unfold c.
      destruct (Obj.has_own (Url.params url) URL_SEARCH_PARAM); reflexivity. }
    rewrite C. unfold history_commit. rewrite Fl.
    destruct (history_url (location_href s) u); simpl.
    + rewrite Fh. auto.
    + auto.
Qed.

(** ** [globalKeyHandler]: Escape *)

(** X7.  Escape without a modifier key, on a page whose URL has no parameter
    named [hasOwnProperty].  The handler prevents the default action, takes
    the class [active] off the search bar and makes one history call,
    [pushState] when the search box holds more than white space and
    [replaceState] otherwise, with the string rendered from the parsed live
    URL less its [search] parameter: protocol, host, port and path, every
    other parameter in order as [key=value] (one without a value as
    [key=undefined]), and the fragment.  If the browser refuses the call the
    handler ends there with SecurityError: the search bar keeps the focus
    and its display, and the marks stay.  If the call goes through the
    handler completes: the live URL is the one the browser made of the
    string, the search bar has lost the focus and its display, and the marks
    are removed.  In both cases the result list, the display of the results
    panel, the text of the search box and the cached term stay as they
    were. *)
Theorem globalKeyHandler_escape (Index : Type) (anchor : jsstring -> Anchor.t)
    (history_url : jsstring -> jsstring -> option jsstring)
    (e : KeyEvent) (s : State Index) :
  no_modifier e = true ->
  keyCode e = ESCAPE_KEYCODE ->
  let url := parseURL anchor (location_href s) in
  Obj.has_own (Url.params url) (js "hasOwnProperty") = false ->
  let u :=
    render_text
      (Url.with_params url (Obj.delete (Url.params url) URL_SEARCH_PARAM)) in
  let c := if str_eqb (trim (searchbar_value s)) [] then ReplaceState
           else PushState in
  let r := globalKeyHandler anchor history_url e s in
  match history_url (location_href s) u with
  | Some live =>
      fst r = Ok tt /\
      location_href (snd r) = live /\
      history_calls (snd r) = history_calls s ++ [(c, u)] /\
      has_focus (snd r) = false /\
      searchbar_active (snd r) = false /\
      searchbar_outer_display (snd r) = js "none" /\
      marked (snd r) = None /\
      default_prevented (snd r) = true /\
      searchresults (snd r) = searchresults s /\
      searchresults_outer_display (snd r) = searchresults_outer_display s /\
      searchbar_value (snd r) = searchbar_value s /\
      current_searchterm (snd r) = current_searchterm s
  | None =>
      r = (Throw SecurityError, set_searchbar_active false (preventDefault s))
  end.
Proof.
  intros Hm Hk url Hs u c r.
  unfold r, globalKeyHandler. rewrite Hm, Hk. simpl negb. cbv iota.
  change (N.eqb ESCAPE_KEYCODE ESCAPE_KEYCODE) with true. cbv iota.
  set (s0 := set_searchbar_active false (preventDefault s)).
  set (action := if negb (str_eqb (trim (searchbar_value s0)) [])
                 then PUSH else REPLACE).
  pose proof (@setSearchUrlParameters_run Index anchor history_url [] action
                s0) as R.
  cbv zeta in R.
  change (location_href s0) with (location_href s) in R.
  fold url in R. rewrite Hs in R.
  destruct R as (v & Hv & R).
  assert (He : edit_search_url url [] action =
               Url.with_params url
                 (Obj.delete (Url.params url) URL_SEARCH_PARAM)).
  { unfold action. destruct (negb _); reflexivity. }
  assert (Hu : v = u).
  { pose proof (@edited_url_text anchor (location_href s) [] action Hs) as T.
    cbv zeta in T. fold url in T. rewrite Hv, He in T.
    injection T as ->. reflexivity. }
  subst v.
  assert (Hc : commit_of action
                 (negb (Obj.has_own (Url.params url) URL_SEARCH_PARAM)) =
               Some c).
  { unfold action, c. change (searchbar_value s0) with (searchbar_value s).
    destruct (str_eqb (trim (searchbar_value s)) []);
      destruct (Obj.has_own (Url.params url) URL_SEARCH_PARAM);
      reflexivity. }
  rewrite Hc in R. unfold action in R.
  change (searchbar_value s0) with (searchbar_value s) in R.
  rewrite R. unfold history_commit.
  change (location_href s0) with (location_href s).
  destruct (history_url (location_href s) u); [|reflexivity].
  simpl. destruct (has_focus s) eqn:F; simpl; rewrite ?F;
    repeat split; reflexivity.
Qed.

(** Escape on a page that shows results for [rust] and came from a
    highlight link. *)
Lemma globalKeyHandler_escape_witness :
  let s := set_searchbar_value (js "rust")
             (page (js "http://example.com/book/?search=rust&highlight=a#x")
                (Some sample_results) two_results) in
  let r := globalKeyHandler reference_anchor reference_history
             (key ESCAPE_KEYCODE) s in
  fst r = Ok tt /\
  location_href (snd r) = js "http://example.com/book/?highlight=a#x" /\
  history_calls (snd r) =
  [(PushState, js "http://example.com/book/?highlight=a#x")] /\
  searchresults (snd r) = two_results.
Proof.
  intros s r.
  pose proof (@globalKeyHandler_escape _ reference_anchor reference_history
                (key ESCAPE_KEYCODE) s eq_refl eq_refl eq_refl) as H.
  cbv zeta in H.
  assert (E : reference_history (location_href s)
                (render_text
                   (Url.with_params
                      (parseURL reference_anchor (location_href s))
                      (Obj.delete
                         (Url.params
                            (parseURL reference_anchor (location_href s)))
                         URL_SEARCH_PARAM))) =
              Some (js "http://example.com/book/?highlight=a#x"))
    by reflexivity.
  rewrite E in H.
  destruct H as (Hok & Hloc & Hhist & _ & _ & _ & _ & _ & Hres & _).
  repeat split; assumption.
Defined.

(** Escape again, on a URL with a parameter that has no value, and on a
    page opened with credentials. *)
Example globalKeyHandler_escape_valueless :
  let s := page (js "http://example.com/book/?search=rust&a")
             (Some sample_results) [] in
  history_calls
    (snd (globalKeyHandler reference_anchor reference_history
            (key ESCAPE_KEYCODE) s)) =
  [(ReplaceState, js "http://example.com/book/?a=undefined")].
Proof. reflexivity. Qed.

Example globalKeyHandler_escape_refused :
  let s := set_has_focus true
             (page (js "http://user:pw@example.com/book/?search=rust")
                (Some sample_results) []) in
  let r := globalKeyHandler reference_anchor reference_history
             (key ESCAPE_KEYCODE) s in
  fst r = Throw SecurityError /\
  has_focus (snd r) = true /\
  searchbar_outer_display (snd r) = searchbar_outer_display s /\
  location_href (snd r) = location_href s.
Proof. repeat split; reflexivity. Qed.

(** ** The highlight link *)

(** Joining the pieces of a split with another character replaces every
    separator by that character. *)
Lemma join_split1_map (sep r : char) (s : jsstring) :
  join [r] (split1 sep s) =
  map (fun c => if char_eqb c sep then r else c) s.
Proof.
  induction s as [|c s IH]; [reflexivity|].
  simpl split1. simpl map. destruct (char_eqb c sep).
  - rewrite join_cons by apply split1_nonempty. rewrite IH. reflexivity.
  - rewrite join_cons_head by apply split1_nonempty. rewrite IH.
    reflexivity.
Qed.

(** A character of the comma-joined terms other than the comma is a
    character of the search term other than the space. *)
Lemma joined_terms_chars (searchterm : jsstring) (c : char) :
  c <> ch "," ->
  In c (join (js ",") (split1 (ch " ") searchterm)) ->
  In c searchterm /\ c <> ch " ".
Proof.
  intros Hc H. change (js ",") with [ch ","] in H.
  rewrite join_split1_map in H. apply in_map_iff in H.
  destruct H as (x & Hx & Hin).
  destruct (char_eqb x (ch " ")) eqn:E; [congruence|].
  subst x. split; [exact Hin|].
  intros ->. discriminate.
Qed.

(** The parameters parsed from a query that holds one [highlight]
    parameter. *)
Lemma parse_params_highlight (value : jsstring) :
  ~ In (ch "&") value -> ~ In (ch "=") value ->
  parse_params (js "?highlight=" ++ value) =
  [(URL_MARK_PARAM, Obj.Str value)].
Proof.
  intros Ha He. unfold parse_params.
  change (strip_question (js "?highlight=" ++ value))
    with (js "highlight=" ++ value).
  rewrite split1_no_sep.
  2:{ intros H. apply in_app_or in H. destruct H as [H|H]; [|tauto].
      simpl in H. repeat (destruct H as [H|H]; [discriminate|]). exact H. }
  change (js "highlight=" ++ value)
    with (js "highlight" ++ ch "=" :: value).
  unfold params_loop.
  change ((js "highlight" ++ ch "=" :: value))
    with (ch "h" :: (js "ighlight" ++ ch "=" :: value)) at 1.
  cbv iota.
  rewrite split1_app_sep.
  2:{ simpl. intros H. repeat (destruct H as [H|H]; [discriminate|]).
      exact H. }
  rewrite (@split1_no_sep (ch "=") value He). reflexivity.
Qed.

Section Highlight.

Variable Index : Type.
Variable index_search : Index -> jsstring -> SearchOptions -> list SearchResult.
Variable anchor : jsstring -> Anchor.t.
Variable stemmer : jsstring -> jsstring.
Variable path_to_root : jsstring.

(** The link of a rendered result carries the terms joined by commas. *)
Lemma formatSearchResult_link (opts : SearchOptions) (res : SearchResult)
    (searchterms : list jsstring) (html : jsstring) :
  formatSearchResult stemmer path_to_root opts res searchterms = Ok html ->
  exists pre post,
    html = pre ++ js "?highlight=" ++ join (js ",") searchterms
           ++ js "#" ++ post.
Proof.
  unfold formatSearchResult.
  destruct (makeTeaser _ _ _ _) as [teaser|]; simpl; [|discriminate].
  intros H. injection H as <-.
  set (url := if length (split1 (ch "#") (ref res)) =? 1
              then split1 (ch "#") (ref res) ++ [[]]
              else split1 (ch "#") (ref res)).
  exists (js "<a href=" ++ [34%N] ++ path_to_root ++ nth 0 url []),
         (nth 1 url []
          ++ [34%N] ++ js ">" ++ doc_breadcrumbs res ++ js "</a>"
          ++ js "<span class=" ++ [34%N] ++ js "breadcrumbs" ++ [34%N]
          ++ js ">" ++ js "</span>"
          ++ js "<span class=" ++ [34%N] ++ js "teaser" ++ [34%N] ++ js ">"
          ++ teaser ++ js "</span>").
  rewrite <- !app_assoc. reflexivity.
Qed.

End Highlight.

(** X8.  The result links and the marking on arrival do not agree on the
    separator.  [doSearch] splits the query at spaces and
    [formatSearchResult] writes the terms into the link joined by commas
    (the string form of the array), while [doSearchOrMarkFromUrl] splits the
    [highlight] parameter at spaces.  So on a page reached with the query
    string of such a link, for a query without [&] and [=], [marker.mark]
    is given one word, the comma-joined terms as a whole, and the search bar
    is hidden. *)
Theorem doSearchOrMarkFromUrl_marks_joined_terms (Index : Type)
    (index_search : Index -> jsstring -> SearchOptions -> list SearchResult)
    (anchor : jsstring -> Anchor.t)
    (history_url : jsstring -> jsstring -> option jsstring)
    (stemmer : jsstring -> jsstring)
    (path_to_root : jsstring) (searchterm : jsstring) (s : State Index) :
  let searchterms := split1 (ch " ") searchterm in
  let value := join (js ",") searchterms in
  ~ In (ch "&") searchterm ->
  ~ In (ch "=") searchterm ->
  Anchor.search (anchor (location_href s)) = js "?highlight=" ++ value ->
  (forall opts res html,
     formatSearchResult stemmer path_to_root opts res searchterms = Ok html ->
     exists pre post, html = pre ++ js "?highlight=" ++ value ++ js "#" ++ post)
  /\
  doSearchOrMarkFromUrl index_search anchor history_url stemmer path_to_root s =
  (Ok tt,
   set_marked (Some [value]) (set_searchbar_outer_display (js "none") s)).
Proof.
  intros searchterms value Ha He Hsearch.
  split.
  { intros opts res html H.
    exact (@formatSearchResult_link stemmer path_to_root opts res _ html H). }
  assert (Hchars : forall c, c <> ch "," -> c <> ch " " -> In c value ->
                             In c searchterm).
  { intros c Hc _ H. apply (@joined_terms_chars searchterm c Hc H). }
  assert (Hsp : ~ In (ch " ") value).
  { intros H.
    destruct (@joined_terms_chars searchterm (ch " ") ltac:(discriminate) H)
      as [_ N].
    apply N. reflexivity. }
  assert (Hp : Url.params (parseURL anchor (location_href s)) =
               [(URL_MARK_PARAM, Obj.Str value)]).
  { unfold parseURL. simpl. rewrite Hsearch.
    apply parse_params_highlight; intros H;
      [apply Ha | apply He]; apply Hchars; auto; discriminate. }
  unfold doSearchOrMarkFromUrl, mark_from_url. rewrite Hp.
  change (Obj.hasOwnProperty [(URL_MARK_PARAM, Obj.Str value)]
            URL_SEARCH_PARAM) with (@Ok bool false).
  cbv iota. simpl andb. cbv iota.
  change (Obj.hasOwnProperty [(URL_MARK_PARAM, Obj.Str value)]
            URL_MARK_PARAM) with (@Ok bool true).
  cbv iota.
  change (Obj.read [(URL_MARK_PARAM, Obj.Str value)] URL_MARK_PARAM)
    with (Obj.Str value).
  cbv iota. rewrite (@split1_no_sep (ch " ") value Hsp). reflexivity.
Qed.

(** The link of a result for the query [safe rust], followed. *)
Lemma doSearchOrMarkFromUrl_marks_joined_terms_witness :
  let s := page (js "http://example.com/book/ch1.html?highlight=safe,rust#intro")
             (Some sample_results) [] in
  marked (snd (doSearchOrMarkFromUrl canned_search reference_anchor
                 reference_history
                 toy_stemmer (js "../") s)) =
  Some [js "safe,rust"].
Proof.
  intros s.
  destruct (@doSearchOrMarkFromUrl_marks_joined_terms _ canned_search
              reference_anchor reference_history toy_stemmer (js "../")
              (js "safe rust") s)
    as [_ H].
  - simpl. intros H. repeat (destruct H as [H|H]; [discriminate|]). exact H.
  - simpl. intros H. repeat (destruct H as [H|H]; [discriminate|]). exact H.
  - reflexivity.
  - rewrite H. reflexivity.
Defined.

(** ** Writing the search term into the URL and reading it back *)

(** X12.  A search term written into the URL is read back from it, as long
    as nothing in it needs encoding.  When [setSearchUrlParameters] makes a
    history call that goes through, with the string [u], for a term without
    [&] and [=] (it is written as typed) on a page whose parameters all
    carry a value: [u] is the rendering of the edited URL object, and the
    live URL afterwards is the one the browser made of [u].  If the browser
    reports the query string of that live URL exactly as it was rendered
    (it does not when a character of it has to be percent-encoded, as a
    space has), parsing the live URL gives [search] the term, no
    [highlight], and every parameter the value it has in the edited URL
    object. *)
Theorem setSearchUrlParameters_term_reads_back (Index : Type)
    (anchor : jsstring -> Anchor.t)
    (history_url : jsstring -> jsstring -> option jsstring)
    (term action : jsstring)
    (s : State Index) (c : commit) (u : jsstring) :
  let r := setSearchUrlParameters anchor history_url term action s in
  let url' := edit_search_url (parseURL anchor (location_href s)) term action in
  history_calls (snd r) = history_calls s ++ [(c, u)] ->
  term <> [] \/ action = PUSH_IF_NEW_SEARCH_ELSE_REPLACE ->
  plain_text term ->
  Forall (fun seg => seg <> [] -> In (ch "=") seg)
    (split1 (ch "&")
       (strip_question (Anchor.search (anchor (location_href s))))) ->
  renderURL url' = Ok u /\
  history_url (location_href s) u = Some (location_href (snd r)) /\
  (Anchor.search (anchor (location_href (snd r)))
   = render_query (Url.params url') ->
   let back := Url.params (parseURL anchor (location_href (snd r))) in
   Obj.get back URL_SEARCH_PARAM = Some (Obj.Str term) /\
   Obj.has_own back URL_MARK_PARAM = false /\
   forall k, Obj.get back k = Obj.get (Url.params url') k).
Proof.
  intros r url' Hhist Hterm Hplain Hval.
  destruct (@setSearchUrlParameters_committed_url Index anchor history_url
              term action s c u Hhist)
    as (Hu & (live & Hlive & Hr) & Hspec & _).
  fold url' in Hu, Hspec. fold r in Hr.
  split; [exact Hu|].
  split; [rewrite Hr; exact Hlive|].
  intros Hsearch back.
  assert (Hp0 : plain_params (Url.params (parseURL anchor (location_href s)))).
  { apply params_loop_plain; [|split; constructor].
    pose proof (split1_pieces (ch "&")
                  (strip_question (Anchor.search (anchor (location_href s)))))
      as Hp.
    rewrite Forall_forall in *. intros seg Hin.
    split; [apply (Hp seg Hin) | apply (Hval seg Hin)]. }
  assert (Hp : plain_params (Url.params url')).
  { unfold url', edit_search_url.
    destruct (negb (str_eqb term []) || _); simpl.
    - apply delete_plain, set_plain; [exact Hp0 | | exact Hplain].
      split; simpl; intros H;
        repeat (destruct H as [H|H]; [discriminate|]); exact H.
    - apply delete_plain, Hp0. }
  assert (Hback : forall k, Obj.get back k = Obj.get (Url.params url') k).
  { intros k. unfold back, parseURL. simpl. rewrite Hsearch.
    apply parse_render_params. exact Hp. }
  destruct (Hspec Hterm) as (Hget & Hmark & _).
  split; [rewrite Hback; exact Hget|].
  split; [|exact Hback].
  unfold Obj.has_own in *. rewrite Hback. exact Hmark.
Qed.

(** The term [rust] pushed on a page that has a parameter already. *)
Lemma setSearchUrlParameters_term_reads_back_witness :
  let s : State (list SearchResult) :=
    page (js "http://example.com/book/?a=1&highlight=x#top") None [] in
  let u := js "http://example.com/book/?a=1&search=rust" in
  let r := setSearchUrlParameters reference_anchor reference_history
             (js "rust") PUSH s in
  location_href (snd r) = u /\
  Obj.get (Url.params (parseURL reference_anchor (location_href (snd r))))
    URL_SEARCH_PARAM = Some (Obj.Str (js "rust")).
Proof.
  intros s u r.
  destruct (@setSearchUrlParameters_term_reads_back _ reference_anchor
              reference_history (js "rust") PUSH s PushState u)
    as (_ & _ & H).
  - reflexivity.
  - left. discriminate.
  - split; simpl; intros H;
      repeat (destruct H as [H|H]; [discriminate|]); exact H.
  - repeat constructor; intros _; simpl; auto 10.
  - split; [reflexivity|]. apply H. reflexivity.
Defined.

(** A term with a space: the live URL carries [%20], and what is parsed from
    it is the encoded text. *)
Example setSearchUrlParameters_space_reads_back :
  let s : State (list SearchResult) :=
    page (js "http://example.com/book/") None [] in
  let r := setSearchUrlParameters reference_anchor reference_history
             (js "rust lang") PUSH s in
  Obj.get (Url.params (parseURL reference_anchor (location_href (snd r))))
    URL_SEARCH_PARAM = Some (Obj.Str (js "rust%20lang")).
Proof. reflexivity. Qed.

(** ** Hidden lines of code blocks *)

Example hide_lines_demo :
  hide_lines (js "# use std::io;" ++ [newline] ++ js "fn main() {}"
              ++ [newline] ++ js "  #helper();") =
  (hidden_open ++ js "use std::io;" ++ [newline] ++ hidden_close
   ++ js "fn main() {}"
   ++ hidden_open ++ [newline] ++ js "  helper();" ++ hidden_close,
   true).
Proof. reflexivity. Qed.

Lemma strip_marker_eq (s : jsstring) :
  strip_marker s =
  match marker_at_start s with
  | Some r => r
  | None => match s with
            | c :: s' => c :: strip_marker s'
            | [] => []
            end
  end.
Proof. destruct s; reflexivity. Qed.

Lemma take_drop_spaces (s : jsstring) : take_spaces s ++ drop_spaces s = s.
Proof.
  induction s as [|c s IH]; simpl; [reflexivity|].
  destruct (is_space c); simpl; [rewrite IH|]; reflexivity.
Qed.

Lemma take_spaces_all (s : jsstring) : forallb is_space (take_spaces s) = true.
Proof.
  induction s as [|c s IH]; simpl; [reflexivity|].
  destruct (is_space c) eqn:E; simpl; [rewrite E, IH|]; reflexivity.
Qed.

Lemma drop_spaces_head (s : jsstring) (c : char) (t : jsstring) :
  drop_spaces s = c :: t -> is_space c = false.
Proof.
  induction s as [|x s IH]; simpl; [discriminate|].
  destruct (is_space x) eqn:E; [exact IH|].
  intros H. injection H as <- _. exact E.
Qed.

Lemma drop_spaces_snoc (l : jsstring) (c : char) :
  is_space c = false -> drop_spaces (l ++ [c]) = drop_spaces l ++ [c].
Proof.
  intros Hc. induction l as [|x l IH]; simpl; [rewrite Hc; reflexivity|].
  destruct (is_space x); [exact IH | reflexivity].
Qed.

(** The first character of the trimmed line is the first one that is not
    white space. *)
Lemma trim_head (s : jsstring) :
  match trim s with
  | c :: _ => exists t, drop_spaces s = c :: t
  | [] => drop_spaces s = []
  end.
Proof.
  unfold trim. destruct (drop_spaces s) as [|c d] eqn:E; [reflexivity|].
  pose proof (drop_spaces_head _ E) as Hc.
  assert (H : exists x, drop_spaces (rev (c :: d)) = x ++ [c]).
  { simpl rev. rewrite (@drop_spaces_snoc (rev d) c Hc). eauto. }
  destruct H as [x ->]. rewrite rev_app_distr. simpl. eauto.
Qed.

(** What the marker removal gives keeps the characters of the line. *)
Lemma strip_marker_incl (s : jsstring) : incl (strip_marker s) s.
Proof.
  induction s as [|c s IH]; [rewrite strip_marker_eq; simpl; apply incl_refl|].
  rewrite strip_marker_eq. unfold marker_at_start.
  destruct (drop_spaces (c :: s)) as [|x t] eqn:E.
  - apply incl_cons; [left; reflexivity | apply incl_tl, IH].
  - destruct (char_eqb x (ch "#")).
    + rewrite <- (take_drop_spaces (c :: s)) at 2. rewrite E.
      apply incl_app; [apply incl_appl, incl_refl|].
      apply incl_appr, incl_tl.
      destruct t as [|d t']; [apply incl_refl|].
      destruct (char_eqb d (ch " ")); [apply incl_tl|]; apply incl_refl.
    + apply incl_cons; [left; reflexivity | apply incl_tl, IH].
Qed.

Lemma line_breaks_app (a b : jsstring) :
  line_breaks (a ++ b) = line_breaks a + line_breaks b.
Proof. unfold line_breaks. rewrite filter_app, length_app. reflexivity. Qed.

Lemma line_breaks_none (s : jsstring) : ~ In newline s -> line_breaks s = 0.
Proof.
  unfold line_breaks. induction s as [|c s IH]; [reflexivity|].
  intros H. cbn [filter]. destruct (char_eqb newline c) eqn:E.
  - apply char_eqb_eq in E. exfalso. apply H. left. congruence.
  - apply IH. intros X. apply H. right. exact X.
Qed.

(** The line breaks of the rewritten lines: one for each line once a line
    that is not hidden has been seen, and before that one for each hidden
    line. *)
Lemma hide_loop_line_breaks (lines : list jsstring) :
  Forall (fun line => ~ In newline line) lines ->
  forall first_non_hidden_line lines_hidden,
    line_breaks (concat (fst (hide_loop lines first_non_hidden_line
                                lines_hidden))) =
    if first_non_hidden_line || forallb starts_hidden lines
    then length lines else length lines - 1.
Proof.
  induction 1 as [|line rest Hl _ IH]; intros f h.
  - simpl. destruct f; reflexivity.
  - assert (Hs : line_breaks (strip_marker line) = 0).
    { apply line_breaks_none. intros X. apply Hl.
      apply (strip_marker_incl line). exact X. }
    cbn [hide_loop forallb length].
    destruct (starts_hidden line).
    + specialize (IH f true).
      destruct (hide_loop rest f true) as [out h'].
      cbn [fst concat] in *.
      rewrite line_breaks_app, IH.
      cbn [andb].
      destruct f; rewrite !line_breaks_app, Hs; cbn [orb];
        change (line_breaks hidden_open) with 0;
        change (line_breaks [newline]) with 1;
        change (line_breaks hidden_close) with 0.
      * lia.
      * destruct (forallb starts_hidden rest) eqn:E; [lia|].
        destruct rest; [discriminate E | simpl length; lia].
    + cbn [andb]. destruct f; specialize (IH true h);
        destruct (hide_loop rest true h) as [out h'];
        cbn [fst concat orb] in *;
        rewrite ?line_breaks_app, IH, (@line_breaks_none line Hl).
      * reflexivity.
      * lia.
Qed.

Lemma line_breaks_join (lines : list jsstring) :
  Forall (fun line => ~ In newline line) lines ->
  line_breaks (join [newline] lines) = length lines - 1.
Proof.
  induction 1 as [|line rest Hl _ IH]; [reflexivity|].
  destruct rest as [|l2 rest']; [simpl; apply line_breaks_none, Hl|].
  rewrite join_cons by discriminate.
  rewrite !line_breaks_app, IH, (@line_breaks_none line Hl). simpl. lia.
Qed.

(** The lines left alone, joined. *)
Lemma hide_loop_nothing_hidden (lines : list jsstring) :
  forall first_non_hidden_line lines_hidden,
    existsb starts_hidden lines = false ->
    hide_loop lines first_non_hidden_line lines_hidden =
    (if first_non_hidden_line
     then map (fun line => [newline] ++ line) lines
     else match lines with
          | [] => []
          | line :: rest => line :: map (fun line => [newline] ++ line) rest
          end,
     lines_hidden).
Proof.
  induction lines as [|line rest IH]; intros f h He.
  - destruct f; reflexivity.
  - simpl in He. apply orb_false_iff in He. destruct He as [H1 H2].
    simpl hide_loop. rewrite H1.
    rewrite (IH true h H2). destruct f; reflexivity.
Qed.

Lemma concat_prefixed (lines : list jsstring) (first : jsstring) :
  first ++ concat (map (fun line => [newline] ++ line) lines) =
  join [newline] (first :: lines).
Proof.
  revert first; induction lines as [|l rest IH]; intros first.
  - simpl. apply app_nil_r.
  - rewrite join_cons by discriminate. simpl concat. rewrite <- IH.
    reflexivity.
Qed.

Lemma hide_loop_flag (lines : list jsstring) :
  forall first_non_hidden_line lines_hidden,
    snd (hide_loop lines first_non_hidden_line lines_hidden) =
    lines_hidden || existsb starts_hidden lines.
Proof.
  induction lines as [|line rest IH]; intros f h; simpl.
  - rewrite orb_false_r. reflexivity.
  - destruct (starts_hidden line).
    + specialize (IH f true). destruct (hide_loop rest f true). simpl in *.
      rewrite IH. rewrite orb_true_r. reflexivity.
    + destruct f; specialize (IH true h); destruct (hide_loop rest true h);
        simpl in *; exact IH.
Qed.

(** X9.  The rewriting of a code block reports hidden lines exactly when
    some line, trimmed, starts with [#]; and when it reports none (the case
    in which the function returns without adding the button) the markup it
    has written back is the markup it read. *)
Theorem hide_lines_nothing_hidden (innerHTML : jsstring) :
  snd (hide_lines innerHTML) =
  existsb starts_hidden (split1 newline innerHTML) /\
  (snd (hide_lines innerHTML) = false ->
   fst (hide_lines innerHTML) = innerHTML).
Proof.
  unfold hide_lines.
  pose proof (hide_loop_flag (split1 newline innerHTML) false false) as F.
  simpl in F.
  split.
  - destruct (hide_loop _ _ _); exact F.
  - intros H.
    assert (He : existsb starts_hidden (split1 newline innerHTML) = false).
    { destruct (hide_loop _ _ _); simpl in *; congruence. }
    rewrite (@hide_loop_nothing_hidden _ false false He).
    simpl fst. rewrite join_empty_concat.
    pose proof (join_split1 newline innerHTML) as J.
    destruct (split1 newline innerHTML) as [|first rest];
      [exact J|].
    simpl concat. rewrite concat_prefixed. exact J.
Qed.

(** X10.  The rewriting keeps the line structure: the markup written back
    has as many line breaks as the markup read, each hidden line taking its
    line break inside its [span]; except that a block in which every line is
    hidden gets one line break more. *)
Theorem hide_lines_line_breaks (innerHTML : jsstring) :
  line_breaks (fst (hide_lines innerHTML)) =
  line_breaks innerHTML
  + if forallb starts_hidden (split1 newline innerHTML) then 1 else 0.
Proof.
  unfold hide_lines.
  assert (Hl : Forall (fun line => ~ In newline line)
                 (split1 newline innerHTML)).
  { eapply Forall_impl; [|apply split1_pieces]. intros a [H _]. exact H. }
  pose proof (hide_loop_line_breaks Hl false false) as B.
  pose proof (line_breaks_join Hl) as J.
  rewrite join_split1 in J. rewrite J.
  destruct (hide_loop _ _ _) as [out h]. simpl fst in *.
  rewrite join_empty_concat, B. simpl orb.
  pose proof (split1_nonempty newline innerHTML).
  destruct (split1 newline innerHTML); [congruence|].
  destruct (forallb _ _); simpl; lia.
Qed.

(** X11.  On a line that counts as hidden the marker removal takes away the
    very [#] the test saw, together with one space after it when there is
    one, and keeps the indentation before it and the rest of the line. *)
Theorem strip_marker_hidden_line (line : jsstring) :
  starts_hidden line = true ->
  exists indent rest,
    line = indent ++ hiding_character :: rest /\
    forallb is_space indent = true /\
    strip_marker line =
    indent ++ match rest with
              | d :: rest' => if char_eqb d (ch " ") then rest' else rest
              | [] => []
              end.
Proof.
  unfold starts_hidden. intros H.
  pose proof (trim_head line) as T.
  destruct (trim line) as [|c t]; [discriminate|].
  destruct T as [rest Hd]. apply char_eqb_eq in H. subst c.
  exists (take_spaces line), rest.
  split; [rewrite <- Hd; symmetry; apply take_drop_spaces|].
  split; [apply take_spaces_all|].
  rewrite strip_marker_eq. unfold marker_at_start. rewrite Hd.
  reflexivity.
Qed.

(** An indented hidden line with a space after the marker. *)
Lemma strip_marker_hidden_line_witness :
  exists indent rest,
    js "  # let x = 1;" = indent ++ hiding_character :: rest /\
    forallb is_space indent = true /\
    strip_marker (js "  # let x = 1;") =
    indent ++ match rest with
              | d :: rest' => if char_eqb d (ch " ") then rest' else rest
              | [] => []
              end.
Proof.
  apply (strip_marker_hidden_line (js "  # let x = 1;")). reflexivity.
Defined.

(** ** The theme switch *)

Lemma classList_remove_valid (token : jsstring) (l : list jsstring) :
  token_check token = None ->
  classList_remove token l =
  inr (filter (fun t => negb (str_eqb t token)) l).
Proof. unfold classList_remove. intros ->. reflexivity. Qed.

Lemma classList_add_valid (token : jsstring) (l : list jsstring) :
  token_check token = None ->
  exists l', classList_add token l = inr l' /\
             In token l' /\
             forall t, In t l' <-> In t l \/ t = token.
Proof.
  unfold classList_add. intros ->.
  destruct (existsb (fun t => str_eqb t token) l) eqn:E.
  - apply existsb_exists in E. destruct E as (t & Ht & Et).
    apply str_eqb_eq in Et. subst t.
    exists l. repeat split; auto.
    intros [H| ->]; assumption.
  - exists (l ++ [token]). split; [reflexivity|].
    split; [apply in_or_app; right; left; reflexivity|].
    intros t. rewrite in_app_iff. simpl. intuition congruence.
Qed.

(** One call with valid tokens: it completes, and the class list of [html]
    is the old one less the previous theme, with the new theme. *)
Lemma set_theme_valid (theme : jsstring) (p : Theme.page) :
  token_check theme = None ->
  token_check (previous_theme (Theme.local_storage p)) = None ->
  let r := set_theme theme p in
  fst r = None /\
  Theme.body_className (snd r) = theme /\
  Theme.local_storage (snd r) =
  (if Theme.writable (Theme.local_storage p)
   then {| Theme.readable := Theme.readable (Theme.local_storage p);
           Theme.writable := Theme.writable (Theme.local_storage p);
           Theme.item := Some theme |}
   else Theme.local_storage p) /\
  forall t,
    In t (Theme.html_classList (snd r)) <->
    (In t (Theme.html_classList p) /\
     t <> previous_theme (Theme.local_storage p)) \/ t = theme.
Proof.
  intros Ht Hp r. unfold r, set_theme.
  destruct (if str_eqb theme (js "coal") || str_eqb theme (js "navy")
            then _ else _) as [[[ayu night] plain] ace].
  rewrite (@classList_remove_valid _ (Theme.html_classList p) Hp).
  destruct (@classList_add_valid theme
              (filter (fun t => negb (str_eqb t
                         (previous_theme (Theme.local_storage p))))
                 (Theme.html_classList p)) Ht) as (l' & -> & _ & Hl').
  simpl. split; [reflexivity|]. split; [reflexivity|].
  split.
  { destruct (Theme.writable (Theme.local_storage p)); reflexivity. }
  intros t. rewrite Hl', filter_In, negb_true_iff, str_eqb_neq. tauto.
Qed.

(** X15.  Two theme changes in a row, with class tokens that are valid.
    Both calls complete, [body] carries the second theme as its class and
    [html] has it in its class list.  With a storage that can be read and
    written the first theme is gone from the class list of [html] unless it
    is the second one.  With a storage that cannot be read the previous
    theme is taken to be [light] each time, so the first theme stays in the
    class list beside the second. *)
Theorem set_theme_twice (first second : jsstring) (p : Theme.page) :
  token_check first = None ->
  token_check second = None ->
  token_check (previous_theme (Theme.local_storage p)) = None ->
  let r1 := set_theme first p in
  let r2 := set_theme second (snd r1) in
  fst r1 = None /\ fst r2 = None /\
  Theme.body_className (snd r2) = second /\
  In second (Theme.html_classList (snd r2)) /\
  (Theme.readable (Theme.local_storage p) = true ->
   Theme.writable (Theme.local_storage p) = true ->
   (In first (Theme.html_classList (snd r2)) <-> first = second)) /\
  (Theme.readable (Theme.local_storage p) = false ->
   first <> js "light" ->
   In first (Theme.html_classList (snd r2))).
Proof.
  intros H1 H2 Hp r1 r2.
  destruct (@set_theme_valid first p H1 Hp) as (Hr1 & _ & Hs1 & Hc1).
  fold r1 in Hr1, Hs1, Hc1.
  assert (Hp2 : token_check (previous_theme (Theme.local_storage (snd r1)))
                = None).
  { rewrite Hs1. unfold previous_theme in *.
    destruct (Theme.writable (Theme.local_storage p)); simpl;
      [|exact Hp].
    destruct (Theme.readable (Theme.local_storage p));
      [exact H1 | reflexivity]. }
  destruct (@set_theme_valid second (snd r1) H2 Hp2) as (Hr2 & Hb2 & _ & Hc2).
  fold r2 in Hr2, Hb2, Hc2.
  split; [exact Hr1|]. split; [exact Hr2|]. split; [exact Hb2|].
  split; [apply Hc2; right; reflexivity|].
  split.
  - intros Hread Hwrite. rewrite Hc2, Hs1, Hwrite.
    unfold previous_theme at 1. simpl. rewrite Hread.
    split; [|intros ->; right; reflexivity].
    intros [[_ N]| E]; [congruence | exact E].
  - intros Hread Hlight. apply Hc2. left.
    split; [apply Hc1; right; reflexivity|].
    rewrite Hs1. unfold previous_theme.
    destruct (Theme.writable (Theme.local_storage p)); simpl;
      rewrite Hread; exact Hlight.
Qed.

(** From [light] to [coal] to [navy], with and without a storage. *)
Lemma set_theme_twice_witness :
  let page (st : Theme.storage) :=
    {| Theme.ayuHighlight_disabled := true;
       Theme.tomorrowNight_disabled := true;
       Theme.highlight_disabled := false;
       Theme.editors := None;
       Theme.local_storage := st;
       Theme.body_className := js "light";
       Theme.html_classList := [js "js"; js "light"];
       Theme.meta_updates := 0 |} in
  let works := {| Theme.readable := true; Theme.writable := true;
                  Theme.item := Some (js "light") |} in
  let blocked := {| Theme.readable := false; Theme.writable := false;
                    Theme.item := None |} in
  ~ In (js "coal")
      (Theme.html_classList
         (snd (set_theme (js "navy")
                 (snd (set_theme (js "coal") (page works)))))) /\
  In (js "coal")
    (Theme.html_classList
       (snd (set_theme (js "navy")
               (snd (set_theme (js "coal") (page blocked)))))).
Proof.
  intros page works blocked.
  destruct (@set_theme_twice (js "coal") (js "navy") (page works)
              eq_refl eq_refl eq_refl) as (_ & _ & _ & _ & Hw & _).
  destruct (@set_theme_twice (js "coal") (js "navy") (page blocked)
              eq_refl eq_refl eq_refl) as (_ & _ & _ & _ & _ & Hb).
  split.
  - intros H. apply (Hw eq_refl eq_refl) in H. discriminate H.
  - apply (Hb eq_refl). discriminate.
Defined.

(** ** The menu bar *)

Lemma lt_antisym (a b : Menu.num) :
  QArith_base.Qcompare a b = Lt -> Menu.lt b a = false /\ Menu.eq b a = false.
Proof.
  intros H. unfold Menu.lt, Menu.eq.
  rewrite <- QArith_base.Qcompare_antisym, H. split; reflexivity.
Qed.

(** What [scroll_run] maintains: the stored position is the latest one, and
    the menu bar is folded according to the last change of position. *)
Lemma scroll_run_invariant (m : Menu.t) (tops : list Menu.num) :
  let m' := scroll_run tops m in
  (exists older,
     rev (Menu.previousScrollTop m :: tops) =
     Menu.previousScrollTop m' :: older) /\
  Menu.folded m' =
  match last_move (rev (Menu.previousScrollTop m :: tops)) with
  | Some Menu.Down => true
  | Some Menu.Up => false
  | None => Menu.folded m
  end.
Proof.
  induction tops as [|top tops IH] using rev_ind.
  - simpl. split; [exists []; reflexivity | reflexivity].
  - unfold scroll_run in *. rewrite fold_left_app. simpl fold_left.
    set (mm := fold_left (fun m scrollTop => on_scroll scrollTop m) tops m)
      in *.
    cbv zeta in IH. destruct IH as [[older Ho] Hf].
    change (Menu.previousScrollTop m :: tops ++ [top])
      with ((Menu.previousScrollTop m :: tops) ++ [top]).
    rewrite rev_app_distr.
    change (rev [top] ++ rev (Menu.previousScrollTop m :: tops))
      with (top :: rev (Menu.previousScrollTop m :: tops)).
    rewrite Ho in *.
    split; [exists (Menu.previousScrollTop mm :: older); reflexivity|].
    cbn [last_move]. unfold on_scroll. cbn [Menu.folded].
    destruct (QArith_base.Qcompare (Menu.previousScrollTop mm) top) eqn:C.
    + unfold Menu.lt. rewrite C, <- QArith_base.Qcompare_antisym, C.
      simpl. rewrite !andb_false_r. exact Hf.
    + destruct (@lt_antisym _ _ C) as [L _]. rewrite L.
      unfold Menu.lt. rewrite C.
      destruct (Menu.folded mm); reflexivity.
    + unfold Menu.lt at 1.
      rewrite <- QArith_base.Qcompare_antisym, C. simpl.
      destruct (Menu.folded mm); [reflexivity|].
      unfold Menu.lt. rewrite C. reflexivity.
Qed.

(** X16.  After any run of scroll events the menu bar is folded exactly
    when the last change of the scroll position was downwards (and as it was
    at the start when the position never changed); and after an event at a
    position that is not negative it has the class [bordered] exactly when
    that position is not zero. *)
Theorem scroll_run_follows_last_move (m : Menu.t) (tops : list Menu.num) :
  Menu.folded (scroll_run tops m) =
  match last_move (rev (Menu.previousScrollTop m :: tops)) with
  | Some Menu.Down => true
  | Some Menu.Up => false
  | None => Menu.folded m
  end /\
  forall top,
    QArith_base.Qle Menu.zero top ->
    (Menu.bordered (scroll_run (tops ++ [top]) m) = true <->
     QArith_base.Qlt Menu.zero top).
Proof.
  split; [apply scroll_run_invariant|].
  intros top Hle. unfold scroll_run. rewrite fold_left_app. simpl.
  set (mm := fold_left _ tops m).
  rewrite QArith_base.Qlt_alt.
  apply QArith_base.Qle_alt in Hle.
  unfold Menu.lt, Menu.eq.
  rewrite <- (QArith_base.Qcompare_antisym Menu.zero top).
  destruct (QArith_base.Qcompare Menu.zero top) eqn:C; simpl.
  - rewrite andb_false_r, andb_true_r.
    destruct (Menu.bordered mm); simpl; split; congruence.
  - rewrite andb_true_r, !andb_false_r.
    destruct (Menu.bordered mm); simpl; split; congruence.
  - exfalso. apply Hle. exact C.
Qed.
